(** * bigip_pool_member: reconciliation of one BIG-IP pool member

    A shallow embedding of
    [lib/ansible/modules/network/f5/bigip_pool_member.py].  The module
    talks to the device through the iControl client (the [api] object of
    the source); here the client is a record of operations over an
    abstract device state, and every remote call made by the module is
    recorded, with its reply, in a trace. *)

From Stdlib Require Import ZArith Ascii String List Bool Lia.
From stdpp Require Import base option gmap strings list.

Local Open Scope Z_scope.
Local Open Scope string_scope.
Local Open Scope list_scope.

(** ** Python strings *)

Module PyStr.

(** [needle in hay] *)
Fixpoint contains (needle hay : string) : bool :=
  if String.prefix needle hay then true
  else match hay with
       | EmptyString => false
       | String _ rest => contains needle rest
       end.

Definition is_upper (c : ascii) : bool :=
  ((65 <=? Z.of_N (N_of_ascii c)) && (Z.of_N (N_of_ascii c) <=? 90))%Z.

Definition is_lower (c : ascii) : bool :=
  ((97 <=? Z.of_N (N_of_ascii c)) && (Z.of_N (N_of_ascii c) <=? 122))%Z.

Definition lower_char (c : ascii) : ascii :=
  if is_upper c then ascii_of_N (N_of_ascii c + 32) else c.

Definition upper_char (c : ascii) : ascii :=
  if is_lower c then ascii_of_N (N_of_ascii c - 32) else c.

Fixpoint map_chars (f : ascii -> ascii) (s : string) : string :=
  match s with
  | EmptyString => EmptyString
  | String c rest => String (f c) (map_chars f rest)
  end.

(** the text holds ASCII characters only, as the status names of the
    device and the words of the module do *)
Fixpoint is_ascii (s : string) : bool :=
  match s with
  | EmptyString => true
  | String c rest => (Z.of_N (N_of_ascii c) <? 128)%Z && is_ascii rest
  end.

(** [s.lower()] and [s.upper()] of ASCII text ([is_ascii]): the letters
    A-Z, respectively a-z, change case.  Python maps letters beyond
    ASCII as well; here such a character is left as it is, so what is
    stated of a value in lower or upper case is stated of ASCII text. *)
Definition lower : string -> string := map_chars lower_char.
Definition upper : string -> string := map_chars upper_char.

(** the characters [str.strip()] removes: space, \t, \n, \v, \f, \r *)
Definition is_space (c : ascii) : bool :=
  let n := Z.of_N (N_of_ascii c) in
  ((n =? 32) || ((9 <=? n) && (n <=? 13)))%Z.

Fixpoint lstrip (s : string) : string :=
  match s with
  | EmptyString => EmptyString
  | String c rest => if is_space c then lstrip rest else s
  end.

Fixpoint rstrip (s : string) : string :=
  match s with
  | EmptyString => EmptyString
  | String c rest =>
      match rstrip rest with
      | EmptyString => if is_space c then EmptyString else String c EmptyString
      | rest' => String c rest'
      end
  end.

(** [s.strip()] *)
Definition strip (s : string) : string := rstrip (lstrip s).

(** [s.split(sep)], scanning left to right for occurrences of a
    non-empty [sep] that do not overlap.  [skip] counts the characters
    of a separator found earlier that are still to be passed over, and
    [cur] is the piece read so far. *)
Fixpoint split_from (sep s : string) (skip : nat) (cur : string) : list string :=
  match s with
  | EmptyString => [cur]
  | String c rest =>
      match skip with
      | S k => split_from sep rest k cur
      | O =>
          if String.prefix sep s
          then cur :: split_from sep rest (String.length sep - 1) EmptyString
          else split_from sep rest 0 (cur ++ String c EmptyString)%string
      end
  end.

Definition split (sep s : string) : list string := split_from sep s 0 EmptyString.

(** [s.split(sep)[-1]]; a split is never empty *)
Definition split_last (sep s : string) : string := List.last (split sep s) EmptyString.

End PyStr.

(** ** Values exchanged with the device *)

(** A resource name as the module holds it: a Python [str], or [None]
    when the parameter it derives from was not given. *)
Definition name := option string.

(** [str(x)] for such a value, as ["%s" % x] formats it *)
Definition str_name (n : name) : string :=
  match n with
  | Some s => s
  | None => "None"
  end.

(** the dictionary [{'address': address, 'port': port}] *)
Record member := Member { member_address : name; member_port : Z }.

(** The exceptions the module can meet.  [OperationFailed] is
    [bigsuds.OperationFailed]; [OtherError] stands for every other
    exception a remote call can raise (connection, parsing, ...). *)
Inductive exn :=
| OperationFailed (msg : string)
| OtherError (msg : string)
| IndexError
| TypeError.

(** [str(e)] *)
Definition str_exn (e : exn) : string :=
  match e with
  | OperationFailed msg => msg
  | OtherError msg => msg
  | IndexError => "list index out of range"
  | TypeError => "'>' not supported between instances of 'int' and 'NoneType'"
  end.

Inductive reply (A : Type) :=
| Reply (a : A)
| Fault (e : exn).
Arguments Reply {A} a.
Arguments Fault {A} e.

(** ** The remote client

    The iControl methods the module calls, each as a transition of the
    device state [S].  Probes return a status the module discards;
    getters return one sequence per pool, with one value per member. *)
Record Client (S : Type) := {
  bigip_api : S -> reply unit * S;
  Pool_get_object_status : list name -> S -> reply unit * S;
  Pool_get_member_object_status : list name -> list (list member) -> S -> reply unit * S;
  Pool_remove_member_v2 : list name -> list (list member) -> S -> reply unit * S;
  Pool_add_member_v2 : list name -> list (list member) -> S -> reply unit * S;
  NodeAddressV2_delete_node_address : list name -> S -> reply unit * S;
  Pool_get_member_connection_limit : list name -> list (list member) -> S -> reply (list (list Z)) * S;
  Pool_set_member_connection_limit : list name -> list (list member) -> list (list Z) -> S -> reply unit * S;
  Pool_get_member_description : list name -> list (list member) -> S -> reply (list (list string)) * S;
  Pool_set_member_description : list name -> list (list member) -> list (list string) -> S -> reply unit * S;
  Pool_get_member_rate_limit : list name -> list (list member) -> S -> reply (list (list Z)) * S;
  Pool_set_member_rate_limit : list name -> list (list member) -> list (list Z) -> S -> reply unit * S;
  Pool_get_member_ratio : list name -> list (list member) -> S -> reply (list (list Z)) * S;
  Pool_set_member_ratio : list name -> list (list member) -> list (list Z) -> S -> reply unit * S;
  Pool_get_member_priority : list name -> list (list member) -> S -> reply (list (list Z)) * S;
  Pool_set_member_priority : list name -> list (list member) -> list (list Z) -> S -> reply unit * S;
  Pool_set_member_session_enabled_state : list name -> list (list member) -> list (list string) -> S -> reply unit * S;
  Pool_get_member_session_status : list name -> list (list member) -> S -> reply (list (list string)) * S;
  Pool_set_member_monitor_state : list name -> list (list member) -> list (list string) -> S -> reply unit * S;
  Pool_get_member_monitor_status : list name -> list (list member) -> S -> reply (list (list string)) * S
}.
Arguments bigip_api {S} _ _.
Arguments Pool_get_object_status {S} _ _ _.
Arguments Pool_get_member_object_status {S} _ _ _ _.
Arguments Pool_remove_member_v2 {S} _ _ _ _.
Arguments Pool_add_member_v2 {S} _ _ _ _.
Arguments NodeAddressV2_delete_node_address {S} _ _ _.
Arguments Pool_get_member_connection_limit {S} _ _ _ _.
Arguments Pool_set_member_connection_limit {S} _ _ _ _ _.
Arguments Pool_get_member_description {S} _ _ _ _.
Arguments Pool_set_member_description {S} _ _ _ _ _.
Arguments Pool_get_member_rate_limit {S} _ _ _ _.
Arguments Pool_set_member_rate_limit {S} _ _ _ _ _.
Arguments Pool_get_member_ratio {S} _ _ _ _.
Arguments Pool_set_member_ratio {S} _ _ _ _ _.
Arguments Pool_get_member_priority {S} _ _ _ _.
Arguments Pool_set_member_priority {S} _ _ _ _ _.
Arguments Pool_set_member_session_enabled_state {S} _ _ _ _ _.
Arguments Pool_get_member_session_status {S} _ _ _ _.
Arguments Pool_set_member_monitor_state {S} _ _ _ _ _.
Arguments Pool_get_member_monitor_status {S} _ _ _ _.

(** ** The trace of remote calls *)

Inductive method :=
| m_bigip_api
| m_get_object_status
| m_get_member_object_status
| m_remove_member_v2
| m_add_member_v2
| m_delete_node_address
| m_get_member_connection_limit
| m_set_member_connection_limit
| m_get_member_description
| m_set_member_description
| m_get_member_rate_limit
| m_set_member_rate_limit
| m_get_member_ratio
| m_set_member_ratio
| m_get_member_priority
| m_set_member_priority
| m_set_member_session_enabled_state
| m_get_member_session_status
| m_set_member_monitor_state
| m_get_member_monitor_status.

(** the value a call carries besides pool and member, or a reply brings back *)
Inductive payload :=
| PNone
| PNodes (nodes : list name)
| PInts (v : list (list Z))
| PStrs (v : list (list string)).

Record call := Call {
  call_method : method;
  call_pool_names : list name;
  call_members : list (list member);
  call_value : payload
}.

Record event := Ev { ev_call : call; ev_reply : reply payload }.

(** the calls that change the device *)
Definition is_write (m : method) : bool :=
  match m with
  | m_remove_member_v2 | m_add_member_v2 | m_delete_node_address
  | m_set_member_connection_limit | m_set_member_description
  | m_set_member_rate_limit | m_set_member_ratio | m_set_member_priority
  | m_set_member_session_enabled_state | m_set_member_monitor_state => true
  | _ => false
  end.

Definition ev_method (e : event) : method := call_method (ev_call e).

Global Instance method_eq_dec : EqDecision method.
Proof. solve_decision. Defined.

(** ** Running the module against a client

    A computation starts in a device state and ends with a value, an
    exception, or the [SystemExit] that [module.fail_json] raises; it
    returns the device state it leaves and the calls it made. *)

Inductive res (A : Type) :=
| Ok (a : A)
| Raise (e : exn)
| SysExit (msg : string).
Arguments Ok {A} a.
Arguments Raise {A} e.
Arguments SysExit {A} msg.

Definition M (S A : Type) : Type := S -> res A * S * list event.

Definition ret {S A} (a : A) : M S A := fun s => (Ok a, s, []).

Definition raise {S A} (e : exn) : M S A := fun s => (Raise e, s, []).

(** [module.fail_json(msg=...)]: the process exits; [except Exception]
    does not catch the exit *)
Definition fail_json {S A} (msg : string) : M S A := fun s => (SysExit msg, s, []).

Definition bind {S A B} (m : M S A) (k : A -> M S B) : M S B :=
  fun s =>
    match m s with
    | (Ok a, s1, t1) => let '(r, s2, t2) := k a s1 in (r, s2, t1 ++ t2)
    | (Raise e, s1, t1) => (Raise e, s1, t1)
    | (SysExit msg, s1, t1) => (SysExit msg, s1, t1)
    end.

(** [try: m  except bigsuds.OperationFailed as e: h e] *)
Definition try_except_OperationFailed {S A} (m : M S A) (h : exn -> M S A) : M S A :=
  fun s =>
    match m s with
    | (Raise (OperationFailed msg), s1, t1) =>
        let '(r, s2, t2) := h (OperationFailed msg) s1 in (r, s2, t1 ++ t2)
    | other => other
    end.

Declare Scope py_scope.
Delimit Scope py_scope with py.
Notation "x <- m ;; k" := (bind m (fun x => k))
  (at level 100, m at next level, right associativity) : py_scope.
Notation "m ;;; k" := (bind m (fun _ => k))
  (at level 100, right associativity) : py_scope.
Local Open Scope py_scope.

(** one remote call: the client's transition, recorded in the trace *)
Definition invoke {S A} (c : call) (inj : A -> payload) (op : S -> reply A * S) : M S A :=
  fun s =>
    match op s with
    | (Reply a, s1) => (Ok a, s1, [Ev c (Reply (inj a))])
    | (Fault e, s1) => (Raise e, s1, [Ev c (Fault e)])
    end.

Definition no_payload (_ : unit) : payload := PNone.

(** [v[0][0]] *)
Definition index00 {S A} (v : list (list A)) : M S A :=
  match v with
  | (x :: _) :: _ => ret x
  | _ => raise IndexError
  end.

(** the two values of [session_state] and [monitor_state]
    ([choices=['enabled', 'disabled']]) *)
Inductive choice := enabled | disabled.

Definition choice_str (c : choice) : string :=
  match c with
  | enabled => "enabled"
  | disabled => "disabled"
  end.

Section Module_functions.

Context {S : Type} (api : Client S).

Definition connect : M S unit :=
  invoke (Call m_bigip_api [] [] PNone) no_payload (bigip_api api).

Definition pool_exists (pool : name) : M S bool :=
  try_except_OperationFailed
    (invoke (Call m_get_object_status [pool] [] PNone) no_payload
            (Pool_get_object_status api [pool]);;;
     ret true)
    (fun e =>
       if PyStr.contains "was not found" (str_exn e)
       then ret false
       else raise e).

Definition member_exists (pool address : name) (port : Z) : M S bool :=
  let members := [Member address port] in
  try_except_OperationFailed
    (invoke (Call m_get_member_object_status [pool] [members] PNone) no_payload
            (Pool_get_member_object_status api [pool] [members]);;;
     ret true)
    (fun e =>
       if PyStr.contains "was not found" (str_exn e)
       then ret false
       else raise e).

Definition delete_node_address (address : name) : M S bool :=
  try_except_OperationFailed
    (invoke (Call m_delete_node_address [] [] (PNodes [address])) no_payload
            (NodeAddressV2_delete_node_address api [address]);;;
     ret true)
    (fun e =>
       if PyStr.contains "is referenced by a member of pool" (str_exn e)
       then ret false
       else raise e).

Definition remove_pool_member (pool address : name) (port : Z) : M S unit :=
  let members := [Member address port] in
  invoke (Call m_remove_member_v2 [pool] [members] PNone) no_payload
         (Pool_remove_member_v2 api [pool] [members]).

Definition add_pool_member (pool address : name) (port : Z) : M S unit :=
  let members := [Member address port] in
  invoke (Call m_add_member_v2 [pool] [members] PNone) no_payload
         (Pool_add_member_v2 api [pool] [members]).

Definition get_connection_limit (pool address : name) (port : Z) : M S Z :=
  let members := [Member address port] in
  result <- invoke (Call m_get_member_connection_limit [pool] [members] PNone) PInts
                   (Pool_get_member_connection_limit api [pool] [members]);;
  index00 result.

Definition set_connection_limit (pool address : name) (port : Z) (limit : Z) : M S unit :=
  let members := [Member address port] in
  invoke (Call m_set_member_connection_limit [pool] [members] (PInts [[limit]])) no_payload
         (Pool_set_member_connection_limit api [pool] [members] [[limit]]).

Definition get_description (pool address : name) (port : Z) : M S string :=
  let members := [Member address port] in
  result <- invoke (Call m_get_member_description [pool] [members] PNone) PStrs
                   (Pool_get_member_description api [pool] [members]);;
  index00 result.

Definition set_description (pool address : name) (port : Z) (description : string) : M S unit :=
  let members := [Member address port] in
  invoke (Call m_set_member_description [pool] [members] (PStrs [[description]])) no_payload
         (Pool_set_member_description api [pool] [members] [[description]]).

Definition get_rate_limit (pool address : name) (port : Z) : M S Z :=
  let members := [Member address port] in
  result <- invoke (Call m_get_member_rate_limit [pool] [members] PNone) PInts
                   (Pool_get_member_rate_limit api [pool] [members]);;
  index00 result.

Definition set_rate_limit (pool address : name) (port : Z) (limit : Z) : M S unit :=
  let members := [Member address port] in
  invoke (Call m_set_member_rate_limit [pool] [members] (PInts [[limit]])) no_payload
         (Pool_set_member_rate_limit api [pool] [members] [[limit]]).

Definition get_ratio (pool address : name) (port : Z) : M S Z :=
  let members := [Member address port] in
  result <- invoke (Call m_get_member_ratio [pool] [members] PNone) PInts
                   (Pool_get_member_ratio api [pool] [members]);;
  index00 result.

Definition set_ratio (pool address : name) (port : Z) (ratio : Z) : M S unit :=
  let members := [Member address port] in
  invoke (Call m_set_member_ratio [pool] [members] (PInts [[ratio]])) no_payload
         (Pool_set_member_ratio api [pool] [members] [[ratio]]).

Definition get_priority_group (pool address : name) (port : Z) : M S Z :=
  let members := [Member address port] in
  result <- invoke (Call m_get_member_priority [pool] [members] PNone) PInts
                   (Pool_get_member_priority api [pool] [members]);;
  index00 result.

Definition set_priority_group (pool address : name) (port : Z) (priority_group : Z) : M S unit :=
  let members := [Member address port] in
  invoke (Call m_set_member_priority [pool] [members] (PInts [[priority_group]])) no_payload
         (Pool_set_member_priority api [pool] [members] [[priority_group]]).

Definition set_member_session_enabled_state
    (pool address : name) (port : Z) (session_state : string) : M S unit :=
  let members := [Member address port] in
  let session_state := [("STATE_" ++ PyStr.upper (PyStr.strip session_state))%string] in
  invoke (Call m_set_member_session_enabled_state [pool] [members] (PStrs [session_state]))
         no_payload
         (Pool_set_member_session_enabled_state api [pool] [members] [session_state]).

Definition get_member_session_status (pool address : name) (port : Z) : M S string :=
  let members := [Member address port] in
  result <- invoke (Call m_get_member_session_status [pool] [members] PNone) PStrs
                   (Pool_get_member_session_status api [pool] [members]);;
  result <- index00 result;;
  ret (PyStr.lower (PyStr.split_last "SESSION_STATUS_" result)).

Definition set_member_monitor_state
    (pool address : name) (port : Z) (monitor_state : string) : M S unit :=
  let members := [Member address port] in
  let monitor_state := [("STATE_" ++ PyStr.upper (PyStr.strip monitor_state))%string] in
  invoke (Call m_set_member_monitor_state [pool] [members] (PStrs [monitor_state]))
         no_payload
         (Pool_set_member_monitor_state api [pool] [members] [monitor_state]).

Definition get_member_monitor_status (pool address : name) (port : Z) : M S string :=
  let members := [Member address port] in
  result <- invoke (Call m_get_member_monitor_status [pool] [members] PNone) PStrs
                   (Pool_get_member_monitor_status api [pool] [members]);;
  result <- index00 result;;
  ret (PyStr.lower (PyStr.split_last "MONITOR_STATUS_" result)).

End Module_functions.

(** ** The invocation

    [module.params] with the two flags [main] reads besides it:
    [module.check_mode], and what the controller's Python offers
    ([bigsuds_found], [hasattr(ssl, 'SSLContext')]).  The connection
    parameters (server, user, password, server_port) only reach
    [bigip_api] and are left out. *)
Module Args.
Record t := {
  state : string;
  session_state : option choice;
  monitor_state : option choice;
  pool : string;
  partition : string;
  host : option string;
  port : option Z;
  connection_limit : option Z;
  description : option string;
  rate_limit : option Z;
  ratio : option Z;
  preserve_node : bool;
  priority_group : option Z;
  validate_certs : bool;
  check_mode : bool;
  bigsuds_found : bool;
  ssl_has_SSLContext : bool
}.

(** the same task, run with or without check mode *)
Definition with_check_mode (b : bool) (a : t) : t :=
  {| state := state a; session_state := session_state a;
     monitor_state := monitor_state a; pool := pool a; partition := partition a;
     host := host a; port := port a; connection_limit := connection_limit a;
     description := description a; rate_limit := rate_limit a; ratio := ratio a;
     preserve_node := preserve_node a; priority_group := priority_group a;
     validate_certs := validate_certs a; check_mode := b;
     bigsuds_found := bigsuds_found a; ssl_has_SSLContext := ssl_has_SSLContext a |}.
End Args.

(** how the run ends: [module.exit_json] with the result, [module.fail_json] with a message,
    or an exception nothing catches *)
Inductive outcome :=
| exit_json (result : gmap string bool)
| failed (msg : string)
| uncaught (e : exn).

(** Python truth of [host]: a non-empty string *)
Definition truthy (host : option string) : bool :=
  match host with
  | Some (String _ _) => true
  | _ => false
  end.

Definition is_None {A} (x : option A) : bool :=
  match x with
  | None => true
  | Some _ => false
  end.

Section Main.

Context {S : Type} (api : Client S).

(** [fqdn_name] of [module_utils.network.f5.common], which is not among
    the sources: taken as it comes. *)
Variable fqdn_name : string -> option string -> name.

Abbreviation result_t := (gmap string bool).

(** lines 487-490 *)
Definition modify_connection_limit (a : Args.t) (pool address : name) (port : Z)
    (result : result_t) : M S result_t :=
  match Args.connection_limit a with
  | Some connection_limit =>
      current <- get_connection_limit api pool address port;;
      if negb (connection_limit =? current)%Z then
        (if negb (Args.check_mode a)
         then set_connection_limit api pool address port connection_limit
         else ret tt);;;
        ret {[ "changed" := true ]}
      else ret result
  | None => ret result
  end.

(** lines 491-494 *)
Definition modify_description (a : Args.t) (pool address : name) (port : Z)
    (result : result_t) : M S result_t :=
  match Args.description a with
  | Some description =>
      current <- get_description api pool address port;;
      if negb (description =? current)%string then
        (if negb (Args.check_mode a)
         then set_description api pool address port description
         else ret tt);;;
        ret {[ "changed" := true ]}
      else ret result
  | None => ret result
  end.

(** lines 495-498 *)
Definition modify_rate_limit (a : Args.t) (pool address : name) (port : Z)
    (result : result_t) : M S result_t :=
  match Args.rate_limit a with
  | Some rate_limit =>
      current <- get_rate_limit api pool address port;;
      if negb (rate_limit =? current)%Z then
        (if negb (Args.check_mode a)
         then set_rate_limit api pool address port rate_limit
         else ret tt);;;
        ret {[ "changed" := true ]}
      else ret result
  | None => ret result
  end.

(** lines 499-502 *)
Definition modify_ratio (a : Args.t) (pool address : name) (port : Z)
    (result : result_t) : M S result_t :=
  match Args.ratio a with
  | Some ratio =>
      current <- get_ratio api pool address port;;
      if negb (ratio =? current)%Z then
        (if negb (Args.check_mode a)
         then set_ratio api pool address port ratio
         else ret tt);;;
        ret {[ "changed" := true ]}
      else ret result
  | None => ret result
  end.

(** lines 503-512 *)
Definition modify_session_state (a : Args.t) (pool address : name) (port : Z)
    (result : result_t) : M S result_t :=
  match Args.session_state a with
  | Some session_state =>
      session_status <- get_member_session_status api pool address port;;
      if (choice_str session_state =? "enabled")%string
         && (session_status =? "forced_disabled")%string then
        (if negb (Args.check_mode a)
         then set_member_session_enabled_state api pool address port (choice_str session_state)
         else ret tt);;;
        ret {[ "changed" := true ]}
      else if (choice_str session_state =? "disabled")%string
              && negb (session_status =? "forced_disabled")%string then
        (if negb (Args.check_mode a)
         then set_member_session_enabled_state api pool address port (choice_str session_state)
         else ret tt);;;
        ret {[ "changed" := true ]}
      else ret result
  | None => ret result
  end.

(** lines 513-522 *)
Definition modify_monitor_state (a : Args.t) (pool address : name) (port : Z)
    (result : result_t) : M S result_t :=
  match Args.monitor_state a with
  | Some monitor_state =>
      monitor_status <- get_member_monitor_status api pool address port;;
      if (choice_str monitor_state =? "enabled")%string
         && (monitor_status =? "forced_down")%string then
        (if negb (Args.check_mode a)
         then set_member_monitor_state api pool address port (choice_str monitor_state)
         else ret tt);;;
        ret {[ "changed" := true ]}
      else if (choice_str monitor_state =? "disabled")%string
              && negb (monitor_status =? "forced_down")%string then
        (if negb (Args.check_mode a)
         then set_member_monitor_state api pool address port (choice_str monitor_state)
         else ret tt);;;
        ret {[ "changed" := true ]}
      else ret result
  | None => ret result
  end.

(** lines 523-526 *)
Definition modify_priority_group (a : Args.t) (pool address : name) (port : Z)
    (result : result_t) : M S result_t :=
  match Args.priority_group a with
  | Some priority_group =>
      current <- get_priority_group api pool address port;;
      if negb (priority_group =? current)%Z then
        (if negb (Args.check_mode a)
         then set_priority_group api pool address port priority_group
         else ret tt);;;
        ret {[ "changed" := true ]}
      else ret result
  | None => ret result
  end.

(** lines 486-526: the member exists *)
Definition modify_attributes (a : Args.t) (pool address : name) (port : Z)
    (result : result_t) : M S result_t :=
  result <- modify_connection_limit a pool address port result;;
  result <- modify_description a pool address port result;;
  result <- modify_rate_limit a pool address port result;;
  result <- modify_ratio a pool address port result;;
  result <- modify_session_state a pool address port result;;
  result <- modify_monitor_state a pool address port result;;
  modify_priority_group a pool address port result.

(** lines 469-483: the member is created and every supplied attribute written *)
Definition create_member (a : Args.t) (pool address : name) (port : Z) : M S unit :=
  add_pool_member api pool address port;;;
  match Args.connection_limit a with
  | Some connection_limit => set_connection_limit api pool address port connection_limit
  | None => ret tt
  end;;;
  match Args.description a with
  | Some description => set_description api pool address port description
  | None => ret tt
  end;;;
  match Args.rate_limit a with
  | Some rate_limit => set_rate_limit api pool address port rate_limit
  | None => ret tt
  end;;;
  match Args.ratio a with
  | Some ratio => set_ratio api pool address port ratio
  | None => ret tt
  end;;;
  match Args.session_state a with
  | Some session_state =>
      set_member_session_enabled_state api pool address port (choice_str session_state)
  | None => ret tt
  end;;;
  match Args.monitor_state a with
  | Some monitor_state =>
      set_member_monitor_state api pool address port (choice_str monitor_state)
  | None => ret tt
  end;;;
  match Args.priority_group a with
  | Some priority_group => set_priority_group api pool address port priority_group
  | None => ret tt
  end.

(** lines 456-464: the member exists and is to go *)
Definition remove_member (a : Args.t) (pool address : name) (port : Z) : M S result_t :=
  if negb (Args.check_mode a) then
    remove_pool_member api pool address port;;;
    if Args.preserve_node a then ret {[ "changed" := true ]}
    else
      deleted <- delete_node_address api address;;
      ret (<[ "deleted" := deleted ]> {[ "changed" := true ]})
  else ret {[ "changed" := true ]}.

(** lines 452-526: the pool exists *)
Definition reconcile_member (a : Args.t) (pool address : name) (port : Z) : M S result_t :=
  let result : result_t := {[ "changed" := false ]} in
  if (Args.state a =? "absent")%string then
    found <- member_exists api pool address port;;
    if found then remove_member a pool address port
    else ret result
  else if (Args.state a =? "present")%string then
    found <- member_exists api pool address port;;
    if negb found then
      (if negb (Args.check_mode a)
       then create_member a pool address port
       else ret tt);;;
      ret {[ "changed" := true ]}
    else modify_attributes a pool address port result
  else ret result.

(** lines 449-526: the body of [try] *)
Definition main_try (a : Args.t) (pool address : name) (port : Z) : M S result_t :=
  connect api;;;
  pool_found <- pool_exists api pool;;
  (if negb pool_found
   then fail_json ("pool " ++ str_name pool ++ " does not exist")%string
   else ret tt);;;
  reconcile_member a pool address port.

(** lines 411-531.  Comparing [None] with an integer raises [TypeError]
    (Python 3), outside [try]. *)
Definition main (a : Args.t) (s : S) : outcome * S * list event :=
  if negb (Args.bigsuds_found a)
  then (failed "the python bigsuds module is required", s, [])
  else if Args.validate_certs a && negb (Args.ssl_has_SSLContext a)
  then (failed ("bigsuds does not support verifying certificates with python < 2.7.9. "
                ++ "Either update python or set validate_certs=False on the task")%string,
        s, [])
  else
    let pool := fqdn_name (Args.partition a) (Some (Args.pool a)) in
    let host := Args.host a in
    let address := fqdn_name (Args.partition a) host in
    if (truthy host && is_None (Args.port a))
       || (negb (is_None (Args.port a)) && negb (truthy host))
    then (failed "both host and port must be supplied", s, [])
    else
      match Args.port a with
      | None => (uncaught TypeError, s, [])
      | Some port =>
          if (0 >? port)%Z || (port >? 65535)%Z
          then (failed "valid ports must be in range 0 - 65535", s, [])
          else
            match main_try a pool address port s with
            | (Ok result, s', t) => (exit_json result, s', t)
            | (Raise e, s', t) => (failed ("received exception: " ++ str_exn e)%string, s', t)
            | (SysExit msg, s', t) => (failed msg, s', t)
            end
      end.

End Main.

(** ** A reference device

    A BIG-IP reduced to what the module can observe: the pools, the
    members of each pool with their settings, and the node addresses.
    Every write is kept; it serves as the concrete client of the
    examples below. *)
Module Device.

Record settings := {
  connection_limit : Z;
  description : string;
  rate_limit : Z;
  ratio : Z;
  priority : Z;
  session_status : string;
  monitor_status : string
}.

Definition key : Type := name * name * Z.

Record t := {
  pools : gset name;
  members : gmap key settings;
  nodes : gset name
}.

Definition fresh : settings :=
  {| connection_limit := 0; description := ""; rate_limit := 0; ratio := 1;
     priority := 0; session_status := "SESSION_STATUS_ENABLED";
     monitor_status := "MONITOR_STATUS_UP" |}.

Definition not_found (what : string) : exn :=
  OperationFailed ("01020036:3: The requested " ++ what ++ " was not found.")%string.

Definition unsupported {A} : reply A := Fault (OtherError "unsupported request").

Definition with_members (d : t) (m : gmap key settings) : t :=
  {| pools := pools d; members := m; nodes := nodes d |}.

Definition get_object_status (pool_names : list name) (d : t) : reply unit * t :=
  match pool_names with
  | [pool] =>
      if bool_decide (pool ∈ pools d) then (Reply tt, d)
      else (Fault (not_found "pool"), d)
  | _ => (unsupported, d)
  end.

(** a request about one member of one pool *)
Definition on_member {A} (pool_names : list name) (members_ : list (list member))
    (d : t) (k : key -> settings -> reply A * t) : reply A * t :=
  match pool_names, members_ with
  | [pool], [[Member address port]] =>
      match members d !! (pool, address, port) with
      | Some cfg => k (pool, address, port) cfg
      | None => (Fault (not_found "pool member"), d)
      end
  | _, _ => (unsupported, d)
  end.

Definition get_member_object_status pool_names members_ (d : t) : reply unit * t :=
  on_member pool_names members_ d (fun _ _ => (Reply tt, d)).

Definition remove_member_v2 pool_names members_ (d : t) : reply unit * t :=
  on_member pool_names members_ d
    (fun k _ => (Reply tt, with_members d (delete k (members d)))).

Definition add_member_v2 (pool_names : list name) (members_ : list (list member))
    (d : t) : reply unit * t :=
  match pool_names, members_ with
  | [pool], [[Member address port]] =>
      if negb (bool_decide (pool ∈ pools d)) then (Fault (not_found "pool"), d)
      else match members d !! (pool, address, port) with
           | Some _ =>
               (Fault (OperationFailed "01020066:3: The requested pool member already exists."), d)
           | None =>
               (Reply tt,
                {| pools := pools d;
                   members := <[ (pool, address, port) := fresh ]> (members d);
                   nodes := {[ address ]} ∪ nodes d |})
           end
  | _, _ => (unsupported, d)
  end.

Definition referenced (address : name) (d : t) : bool :=
  existsb (fun kv : key * settings => bool_decide (kv.1.1.2 = address))
          (map_to_list (members d)).

Definition delete_node_address (node_names : list name) (d : t) : reply unit * t :=
  match node_names with
  | [address] =>
      if referenced address d
      then (Fault (OperationFailed
                     ("01070110:3: Node address '" ++ str_name address
                      ++ "' is referenced by a member of pool.")%string), d)
      else if bool_decide (address ∈ nodes d)
      then (Reply tt, {| pools := pools d; members := members d;
                         nodes := nodes d ∖ {[ address ]} |})
      else (Fault (not_found "node address"), d)
  | _ => (unsupported, d)
  end.

Definition getter {A} (field : settings -> A) pool_names members_ (d : t)
    : reply (list (list A)) * t :=
  on_member pool_names members_ d (fun _ cfg => (Reply [[field cfg]], d)).

Definition setter {A} (update : A -> settings -> option settings)
    pool_names members_ (values : list (list A)) (d : t) : reply unit * t :=
  match values with
  | [[v]] =>
      on_member pool_names members_ d
        (fun k cfg =>
           match update v cfg with
           | Some cfg' => (Reply tt, with_members d (<[ k := cfg' ]> (members d)))
           | None => (Fault (OperationFailed "01070734:3: Configuration error."), d)
           end)
  | _ => (unsupported, d)
  end.

Definition with_connection_limit (v : Z) (c : settings) : settings :=
  {| connection_limit := v; description := description c; rate_limit := rate_limit c;
     ratio := ratio c; priority := priority c; session_status := session_status c;
     monitor_status := monitor_status c |}.

Definition with_description (v : string) (c : settings) : settings :=
  {| connection_limit := connection_limit c; description := v; rate_limit := rate_limit c;
     ratio := ratio c; priority := priority c; session_status := session_status c;
     monitor_status := monitor_status c |}.

Definition with_rate_limit (v : Z) (c : settings) : settings :=
  {| connection_limit := connection_limit c; description := description c; rate_limit := v;
     ratio := ratio c; priority := priority c; session_status := session_status c;
     monitor_status := monitor_status c |}.

Definition with_ratio (v : Z) (c : settings) : settings :=
  {| connection_limit := connection_limit c; description := description c;
     rate_limit := rate_limit c; ratio := v; priority := priority c;
     session_status := session_status c; monitor_status := monitor_status c |}.

Definition with_priority (v : Z) (c : settings) : settings :=
  {| connection_limit := connection_limit c; description := description c;
     rate_limit := rate_limit c; ratio := ratio c; priority := v;
     session_status := session_status c; monitor_status := monitor_status c |}.

Definition with_session_status (v : string) (c : settings) : settings :=
  {| connection_limit := connection_limit c; description := description c;
     rate_limit := rate_limit c; ratio := ratio c; priority := priority c;
     session_status := v; monitor_status := monitor_status c |}.

Definition with_monitor_status (v : string) (c : settings) : settings :=
  {| connection_limit := connection_limit c; description := description c;
     rate_limit := rate_limit c; ratio := ratio c; priority := priority c;
     session_status := session_status c; monitor_status := v |}.

Definition put_connection_limit (v : Z) (c : settings) : option settings :=
  Some (with_connection_limit v c).

Definition put_description (v : string) (c : settings) : option settings :=
  Some (with_description v c).

Definition put_rate_limit (v : Z) (c : settings) : option settings :=
  Some (with_rate_limit v c).

Definition put_ratio (v : Z) (c : settings) : option settings :=
  Some (with_ratio v c).

Definition put_priority (v : Z) (c : settings) : option settings :=
  Some (with_priority v c).

(** disabling a member by hand forces it; enabling it releases it *)
Definition put_session_state (token : string) (c : settings) : option settings :=
  if (token =? "STATE_DISABLED")%string
  then Some (with_session_status "SESSION_STATUS_FORCED_DISABLED" c)
  else if (token =? "STATE_ENABLED")%string
  then Some (with_session_status "SESSION_STATUS_ENABLED" c)
  else None.

Definition put_monitor_state (token : string) (c : settings) : option settings :=
  if (token =? "STATE_DISABLED")%string
  then Some (with_monitor_status "MONITOR_STATUS_FORCED_DOWN" c)
  else if (token =? "STATE_ENABLED")%string
  then Some (with_monitor_status "MONITOR_STATUS_UP" c)
  else None.

Definition client : Client t := {|
  bigip_api := fun d => (Reply tt, d);
  Pool_get_object_status := get_object_status;
  Pool_get_member_object_status := get_member_object_status;
  Pool_remove_member_v2 := remove_member_v2;
  Pool_add_member_v2 := add_member_v2;
  NodeAddressV2_delete_node_address := delete_node_address;
  Pool_get_member_connection_limit := getter connection_limit;
  Pool_set_member_connection_limit := setter put_connection_limit;
  Pool_get_member_description := getter description;
  Pool_set_member_description := setter put_description;
  Pool_get_member_rate_limit := getter rate_limit;
  Pool_set_member_rate_limit := setter put_rate_limit;
  Pool_get_member_ratio := getter ratio;
  Pool_set_member_ratio := setter put_ratio;
  Pool_get_member_priority := getter priority;
  Pool_set_member_priority := setter put_priority;
  Pool_set_member_session_enabled_state := setter put_session_state;
  Pool_get_member_session_status := getter session_status;
  Pool_set_member_monitor_state := setter put_monitor_state;
  Pool_get_member_monitor_status := getter monitor_status
|}.

(** the qualified name, as the F5 modules build it *)
Definition fqdn_name (partition : string) (value : option string) : name :=
  match value with
  | Some v =>
      if String.prefix "/" v then Some v
      else Some ("/" ++ partition ++ "/" ++ v)%string
  | None => None
  end.

(** a device with one pool and one member in it *)
Definition lab : t := {|
  pools := {[ Some "/Common/web" ]};
  members := {[ (Some "/Common/web", Some "/Common/10.0.0.1", 80) := fresh ]};
  nodes := {[ Some "/Common/10.0.0.1" ]}
|}.

(** the same, the member forced offline by hand *)
Definition forced : settings :=
  {| connection_limit := 0; description := ""; rate_limit := 0; ratio := 1;
     priority := 0; session_status := "SESSION_STATUS_FORCED_DISABLED";
     monitor_status := "MONITOR_STATUS_FORCED_DOWN" |}.

Definition lab_forced : t := {|
  pools := {[ Some "/Common/web" ]};
  members := {[ (Some "/Common/web", Some "/Common/10.0.0.1", 80) := forced ]};
  nodes := {[ Some "/Common/10.0.0.1" ]}
|}.

(** the same node serving a second pool *)
Definition lab_shared : t := {|
  pools := {[ Some "/Common/web" ]} ∪ {[ Some "/Common/api" ]};
  members := <[ (Some "/Common/api", Some "/Common/10.0.0.1", 8080) := fresh ]>
               {[ (Some "/Common/web", Some "/Common/10.0.0.1", 80) := fresh ]};
  nodes := {[ Some "/Common/10.0.0.1" ]}
|}.

(** the member without its node address, as after a deletion by hand *)
Definition lab_nodeless : t := {|
  pools := {[ Some "/Common/web" ]};
  members := {[ (Some "/Common/web", Some "/Common/10.0.0.1", 80) := fresh ]};
  nodes := ∅
|}.

(** a task on pool [pool] of partition Common, member [host]:[port] *)
Definition job (state pool host : string) (port : Z) (session monitor : option choice)
    (limit : option Z) (text : option string) (check : bool) : Args.t := {|
  Args.state := state;
  Args.session_state := session;
  Args.monitor_state := monitor;
  Args.pool := pool;
  Args.partition := "Common";
  Args.host := Some host;
  Args.port := Some port;
  Args.connection_limit := limit;
  Args.description := text;
  Args.rate_limit := None;
  Args.ratio := None;
  Args.preserve_node := false;
  Args.priority_group := None;
  Args.validate_certs := false;
  Args.check_mode := check;
  Args.bigsuds_found := true;
  Args.ssl_has_SSLContext := true
|}.

Definition web : name := Some "/Common/web".
Definition node1 : name := Some "/Common/10.0.0.1".

End Device.


(** ** Vocabulary of the statements *)

(** the calls, as the module issues them for one member *)
Definition call_connect : call := Call m_bigip_api [] [] PNone.

Definition call_pool_probe (pool : name) : call :=
  Call m_get_object_status [pool] [] PNone.

Definition call_member (m : method) (pool address : name) (port : Z) (v : payload) : call :=
  Call m [pool] [[Member address port]] v.

Definition call_member_probe (pool address : name) (port : Z) : call :=
  call_member m_get_member_object_status pool address port PNone.

Definition call_delete_node (address : name) : call :=
  Call m_delete_node_address [] [] (PNodes [address]).

(** the trace a computation leaves from a state *)
Definition trace_of {S A} (x : A * S * list event) : list event := x.2.

(** every event a computation can emit satisfies [P] *)
Definition emits {S A} (P : event -> Prop) (m : M S A) : Prop :=
  forall s, Forall P (trace_of (m s)).

(** the checks of lines 411-446 pass and [main] enters [try] with [port] *)
Definition enters_try (a : Args.t) (port : Z) : Prop :=
  Args.bigsuds_found a = true
  /\ (Args.validate_certs a = true -> Args.ssl_has_SSLContext a = true)
  /\ truthy (Args.host a) = true
  /\ Args.port a = Some port
  /\ 0 <= port <= 65535.

(** calls about the member, as opposed to the session and the pool *)
Definition member_level (m : method) : bool :=
  match m with
  | m_bigip_api | m_get_object_status => false
  | _ => true
  end.

(** a failure of the flavour the probes read as absence *)
Definition not_found_flavored (e : exn) : bool :=
  match e with
  | OperationFailed msg => PyStr.contains "was not found" msg
  | _ => false
  end.

(** the inputs the claims about validation speak of: a port out of
    range, a host without a port, a port without a host *)
Definition rejected (a : Args.t) : Prop :=
  (exists port, Args.port a = Some port /\ (port < 0 \/ 65535 < port))
  \/ (truthy (Args.host a) = true /\ Args.port a = None)
  \/ (Args.port a <> None /\ truthy (Args.host a) = false).

Definition validation_message (msg : string) : Prop :=
  msg = "both host and port must be supplied"
  \/ msg = "valid ports must be in range 0 - 65535".

(** a failure of the flavour [delete_node_address] reads as "still in use" *)
Definition still_referenced (e : exn) : bool :=
  match e with
  | OperationFailed msg => PyStr.contains "is referenced by a member of pool" msg
  | _ => false
  end.

(** how [main] ends a run of the body of [try] *)
Definition finish {S} (x : res (gmap string bool) * S * list event)
    : outcome * S * list event :=
  match x with
  | (Ok result, s, t) => (exit_json result, s, t)
  | (Raise e, s, t) => (failed ("received exception: " ++ str_exn e)%string, s, t)
  | (SysExit msg, s, t) => (failed msg, s, t)
  end.

(** a run that comes after the events [t0] *)
Definition after {S A} (t0 : list event) (x : A * S * list event) : A * S * list event :=
  (x.1, t0 ++ x.2).

(** every value a computation can return satisfies [Q] *)
Definition returns {S A} (Q : A -> Prop) (m : M S A) : Prop :=
  forall s a s' t, m s = (Ok a, s', t) -> Q a.

(** the event is a call of the method [m] *)
Definition calls (m : method) (e : event) : bool := bool_decide (ev_method e = m).

(** the token written for an intent *)
Definition state_token (c : choice) : string :=
  match c with
  | enabled => "STATE_ENABLED"
  | disabled => "STATE_DISABLED"
  end.

(** the call made for an attribute the caller supplied *)
Definition supplied {A} (o : option A) (f : A -> call) : list call :=
  match o with
  | Some v => [f v]
  | None => []
  end.

(** the calls of a creation, in order *)
Definition creation_calls (a : Args.t) (pool address : name) (port : Z) : list call :=
  [call_member m_add_member_v2 pool address port PNone]
  ++ supplied (Args.connection_limit a)
       (fun v => call_member m_set_member_connection_limit pool address port (PInts [[v]]))
  ++ supplied (Args.description a)
       (fun v => call_member m_set_member_description pool address port (PStrs [[v]]))
  ++ supplied (Args.rate_limit a)
       (fun v => call_member m_set_member_rate_limit pool address port (PInts [[v]]))
  ++ supplied (Args.ratio a)
       (fun v => call_member m_set_member_ratio pool address port (PInts [[v]]))
  ++ supplied (Args.session_state a)
       (fun c => call_member m_set_member_session_enabled_state pool address port
                   (PStrs [[state_token c]]))
  ++ supplied (Args.monitor_state a)
       (fun c => call_member m_set_member_monitor_state pool address port
                   (PStrs [[state_token c]]))
  ++ supplied (Args.priority_group a)
       (fun v => call_member m_set_member_priority pool address port (PInts [[v]])).

Definition replied (e : event) : Prop := exists p, ev_reply e = Reply p.

(** no write of the trace failed *)
Definition writes_replied (t : list event) : Prop :=
  Forall (fun e => is_write (ev_method e) = true -> replied e) t.

(** a computation that makes the calls [cs], in order, stopping only at
    a call that fails *)
Definition scripted {S A} (cs : list call) (m : M S A) : Prop :=
  forall s r s' t, m s = (r, s', t) ->
    (Forall replied t -> exists a, r = Ok a)
    /\ (forall a, r = Ok a -> map ev_call t = cs).

Abbreviation keeps_or_changes r0 :=
  (fun r : gmap string bool => r = r0 \/ r = {[ "changed" := true ]}).

(** the intent is contradicted by the live status: "enabled" by the
    forced sentinel only, "disabled" by anything else *)
Definition violated (sentinel : string) (intent : choice) (status : string) : bool :=
  match intent with
  | enabled => (status =? sentinel)%string
  | disabled => negb (status =? sentinel)%string
  end.

(** a run whose result, if any, is [T] *)
Definition only {S} (T : gmap string bool) (x : res (gmap string bool) * S * list event)
    : Prop :=
  forall r, x.1.1 = Ok r -> r = T.

(** two steps, the first in check mode and the second not, started from
    the same device and the same result: either they run alike, or both
    can only end with [changed=True] *)
Definition agree {S} (fd fr : gmap string bool -> M S (gmap string bool)) : Prop :=
  forall s r0,
    fd r0 s = fr r0 s
    \/ (only {[ "changed" := true ]} (fd r0 s) /\ only {[ "changed" := true ]} (fr r0 s)).

(** a step that keeps [changed=True] once it is set *)
Definition keeps_changed {S} (f : gmap string bool -> M S (gmap string bool)) : Prop :=
  forall s, only {[ "changed" := true ]} (f {[ "changed" := true ]} s).

(** ** Durable clients

    A client is durable when the settings of every member can be read
    off the device state ([view]) so that: no read, probe or node
    deletion changes them; a probe that replies finds a member and a
    probe that fails with "not found" finds none; a getter that replies
    returns the setting; a setter that replies has stored its value and
    left the other settings alone; disabling the session or the monitor
    makes the status read back as the forced sentinel, and enabling does
    not. *)

(** [v[0][0]], when there is one *)
Definition first_of {A} (v : list (list A)) : option A :=
  match v with
  | (x :: _) :: _ => Some x
  | _ => None
  end.

(** the status as the module compares it: [raw.split(prefix)[-1].lower()] *)
Definition status_word (prefix raw : string) : string :=
  PyStr.lower (PyStr.split_last prefix raw).

Section Durability.

Context {S : Type} (api : Client S).
Variable view : S -> Device.key -> option Device.settings.

Definition keeps_view (s s' : S) : Prop := forall k, view s' k = view s k.

Definition reads_field {A}
    (op : list name -> list (list member) -> S -> reply (list (list A)) * S)
    (field : Device.settings -> A) : Prop :=
  forall pool address port s,
    keeps_view s (op [pool] [[Member address port]] s).2
    /\ (forall v cfg x,
          (op [pool] [[Member address port]] s).1 = Reply v ->
          view s (pool, address, port) = Some cfg ->
          first_of v = Some x ->
          x = field cfg).

Definition writes_field {A}
    (op : list name -> list (list member) -> list (list A) -> S -> reply unit * S)
    (update : A -> Device.settings -> Device.settings) : Prop :=
  forall pool address port x s s' cfg,
    op [pool] [[Member address port]] [[x]] s = (Reply tt, s') ->
    view s (pool, address, port) = Some cfg ->
    view s' (pool, address, port) = Some (update x cfg).

Definition writes_state
    (op : list name -> list (list member) -> list (list string) -> S -> reply unit * S)
    (update : string -> Device.settings -> Device.settings)
    (prefix sentinel : string) : Prop :=
  forall pool address port token s s' cfg,
    op [pool] [[Member address port]] [[token]] s = (Reply tt, s') ->
    view s (pool, address, port) = Some cfg ->
    exists raw,
      view s' (pool, address, port) = Some (update raw cfg)
      /\ (status_word prefix raw = sentinel <-> token = "STATE_DISABLED").

Record Durable : Prop := {
  durable_connect : forall s, keeps_view s (bigip_api api s).2;
  durable_pool_probe : forall pools s, keeps_view s (Pool_get_object_status api pools s).2;
  durable_member_probe : forall pool address port s,
    keeps_view s (Pool_get_member_object_status api [pool] [[Member address port]] s).2
    /\ ((Pool_get_member_object_status api [pool] [[Member address port]] s).1 = Reply tt ->
        is_Some (view s (pool, address, port)))
    /\ (forall e,
        (Pool_get_member_object_status api [pool] [[Member address port]] s).1 = Fault e ->
        not_found_flavored e = true ->
        view s (pool, address, port) = None);
  durable_add : forall pool address port s s',
    Pool_add_member_v2 api [pool] [[Member address port]] s = (Reply tt, s') ->
    is_Some (view s' (pool, address, port));
  durable_remove : forall pool address port s s',
    Pool_remove_member_v2 api [pool] [[Member address port]] s = (Reply tt, s') ->
    view s' (pool, address, port) = None;
  durable_delete_node : forall nodes s,
    keeps_view s (NodeAddressV2_delete_node_address api nodes s).2;
  durable_get_connection_limit :
    reads_field (Pool_get_member_connection_limit api) Device.connection_limit;
  durable_set_connection_limit :
    writes_field (Pool_set_member_connection_limit api) Device.with_connection_limit;
  durable_get_description :
    reads_field (Pool_get_member_description api) Device.description;
  durable_set_description :
    writes_field (Pool_set_member_description api) Device.with_description;
  durable_get_rate_limit :
    reads_field (Pool_get_member_rate_limit api) Device.rate_limit;
  durable_set_rate_limit :
    writes_field (Pool_set_member_rate_limit api) Device.with_rate_limit;
  durable_get_ratio :
    reads_field (Pool_get_member_ratio api) Device.ratio;
  durable_set_ratio :
    writes_field (Pool_set_member_ratio api) Device.with_ratio;
  durable_get_priority :
    reads_field (Pool_get_member_priority api) Device.priority;
  durable_set_priority :
    writes_field (Pool_set_member_priority api) Device.with_priority;
  durable_get_session_status :
    reads_field (Pool_get_member_session_status api) Device.session_status;
  durable_set_session_state :
    writes_state (Pool_set_member_session_enabled_state api) Device.with_session_status
                 "SESSION_STATUS_" "forced_disabled";
  durable_get_monitor_status :
    reads_field (Pool_get_member_monitor_status api) Device.monitor_status;
  durable_set_monitor_state :
    writes_state (Pool_set_member_monitor_state api) Device.with_monitor_status
                 "MONITOR_STATUS_" "forced_down"
}.

End Durability.

(** the settings hold every attribute the task supplies *)
Definition conforms (a : Args.t) (cfg : Device.settings) : Prop :=
  (forall x, Args.connection_limit a = Some x -> Device.connection_limit cfg = x)
  /\ (forall x, Args.description a = Some x -> Device.description cfg = x)
  /\ (forall x, Args.rate_limit a = Some x -> Device.rate_limit cfg = x)
  /\ (forall x, Args.ratio a = Some x -> Device.ratio cfg = x)
  /\ (forall i, Args.session_state a = Some i ->
        violated "forced_disabled" i
                 (status_word "SESSION_STATUS_" (Device.session_status cfg)) = false)
  /\ (forall i, Args.monitor_state a = Some i ->
        violated "forced_down" i
                 (status_word "MONITOR_STATUS_" (Device.monitor_status cfg)) = false)
  /\ (forall x, Args.priority_group a = Some x -> Device.priority cfg = x).

(** the member is as the task wants it *)
Definition settled (a : Args.t) (v : option Device.settings) : Prop :=
  if (Args.state a =? "absent")%string then v = None
  else if (Args.state a =? "present")%string then exists cfg, v = Some cfg /\ conforms a cfg
  else True.

(** the settings of the members of the reference device *)
Definition device_view (d : Device.t) (k : Device.key) : option Device.settings :=
  Device.members d !! k.

(** ** Vocabulary of the further properties *)

(** the member attributes the module manages *)
Inductive attribute :=
| a_connection_limit
| a_description
| a_rate_limit
| a_ratio
| a_session_state
| a_monitor_state
| a_priority_group.

(** the attribute a remote method reads or writes, if any *)
Definition attribute_of (m : method) : option attribute :=
  match m with
  | m_get_member_connection_limit | m_set_member_connection_limit => Some a_connection_limit
  | m_get_member_description | m_set_member_description => Some a_description
  | m_get_member_rate_limit | m_set_member_rate_limit => Some a_rate_limit
  | m_get_member_ratio | m_set_member_ratio => Some a_ratio
  | m_get_member_session_status | m_set_member_session_enabled_state => Some a_session_state
  | m_get_member_monitor_status | m_set_member_monitor_state => Some a_monitor_state
  | m_get_member_priority | m_set_member_priority => Some a_priority_group
  | _ => None
  end.

(** the task gives a value for the attribute *)
Definition is_supplied (a : Args.t) (x : attribute) : bool :=
  match x with
  | a_connection_limit => negb (is_None (Args.connection_limit a))
  | a_description => negb (is_None (Args.description a))
  | a_rate_limit => negb (is_None (Args.rate_limit a))
  | a_ratio => negb (is_None (Args.ratio a))
  | a_session_state => negb (is_None (Args.session_state a))
  | a_monitor_state => negb (is_None (Args.monitor_state a))
  | a_priority_group => negb (is_None (Args.priority_group a))
  end.

(** the call concerns nothing but the session, the pool [pool], its
    member [address]:[port], or the node [address] *)
Definition aims_at (pool address : name) (port : Z) (c : call) : Prop :=
  match call_method c with
  | m_bigip_api => True
  | m_get_object_status => call_pool_names c = [pool] /\ call_members c = []
  | m_delete_node_address =>
      call_pool_names c = [] /\ call_members c = [] /\ call_value c = PNodes [address]
  | _ => call_pool_names c = [pool] /\ call_members c = [[Member address port]]
  end.

(** the attributes, in the order [main] takes them (lines 470-526) *)
Definition attributes : list attribute :=
  [ a_connection_limit; a_description; a_rate_limit; a_ratio;
    a_session_state; a_monitor_state; a_priority_group ].

(** the method that reads an attribute back, and the one that writes it *)
Definition getter_of (x : attribute) : method :=
  match x with
  | a_connection_limit => m_get_member_connection_limit
  | a_description => m_get_member_description
  | a_rate_limit => m_get_member_rate_limit
  | a_ratio => m_get_member_ratio
  | a_session_state => m_get_member_session_status
  | a_monitor_state => m_get_member_monitor_status
  | a_priority_group => m_get_member_priority
  end.

Definition setter_of (x : attribute) : method :=
  match x with
  | a_connection_limit => m_set_member_connection_limit
  | a_description => m_set_member_description
  | a_rate_limit => m_set_member_rate_limit
  | a_ratio => m_set_member_ratio
  | a_session_state => m_set_member_session_enabled_state
  | a_monitor_state => m_set_member_monitor_state
  | a_priority_group => m_set_member_priority
  end.

(** the attributes compared by value; the other two are the states *)
Definition is_scalar (x : attribute) : bool :=
  match x with
  | a_session_state | a_monitor_state => false
  | _ => true
  end.

(** the value the task asks for an attribute, as its setter carries it *)
Definition desired_payload (a : Args.t) (x : attribute) : option payload :=
  match x with
  | a_connection_limit => (fun v => PInts [[v]]) <$> Args.connection_limit a
  | a_description => (fun v => PStrs [[v]]) <$> Args.description a
  | a_rate_limit => (fun v => PInts [[v]]) <$> Args.rate_limit a
  | a_ratio => (fun v => PInts [[v]]) <$> Args.ratio a
  | a_session_state => (fun c => PStrs [[state_token c]]) <$> Args.session_state a
  | a_monitor_state => (fun c => PStrs [[state_token c]]) <$> Args.monitor_state a
  | a_priority_group => (fun v => PInts [[v]]) <$> Args.priority_group a
  end.

(** the two calls the update path can make for an attribute *)
Definition get_call (x : attribute) (pool address : name) (port : Z) : call :=
  call_member (getter_of x) pool address port PNone.

Definition set_call (x : attribute) (pool address : name) (port : Z) (p : payload) : call :=
  call_member (setter_of x) pool address port p.

(** [v[0][0]] of the reply, as the module reads it *)
Definition read_int (e : event) : option Z :=
  match ev_reply e with
  | Reply (PInts v) => first_of v
  | _ => None
  end.

Definition read_str (e : event) : option string :=
  match ev_reply e with
  | Reply (PStrs v) => first_of v
  | _ => None
  end.

(** [v[0][0]] of a reply, in the shape a setter carries it *)
Definition cell (p : payload) : option payload :=
  match p with
  | PInts v => (fun x => PInts [[x]]) <$> first_of v
  | PStrs v => (fun x => PStrs [[x]]) <$> first_of v
  | _ => None
  end.

(** the first value of the reply [v] is of the kind of [p], and another
    value than that of [p] *)
Definition differs (p v : payload) : bool :=
  match p, cell v with
  | PInts [[desired]], Some (PInts [[current]]) => negb (desired =? current)%Z
  | PStrs [[desired]], Some (PStrs [[current]]) => negb (desired =? current)%string
  | _, _ => false
  end.

(** the getter of the attribute replied, with a first value *)
Definition readable (x : attribute) (e : event) : bool :=
  match x with
  | a_description | a_session_state | a_monitor_state =>
      match read_str e with Some _ => true | None => false end
  | _ => match read_int e with Some _ => true | None => false end
  end.

(** the value a getter brought back contradicts the task: a scalar that
    differs from the one asked for (lines 487, 491, 495, 499, 523), a
    session or monitor status that violates the intent (lines 505, 509,
    515, 519) *)
Definition contradicts (a : Args.t) (e : event) : bool :=
  match ev_method e with
  | m_get_member_connection_limit =>
      match Args.connection_limit a, read_int e with
      | Some desired, Some current => negb (desired =? current)%Z
      | _, _ => false
      end
  | m_get_member_description =>
      match Args.description a, read_str e with
      | Some desired, Some current => negb (desired =? current)%string
      | _, _ => false
      end
  | m_get_member_rate_limit =>
      match Args.rate_limit a, read_int e with
      | Some desired, Some current => negb (desired =? current)%Z
      | _, _ => false
      end
  | m_get_member_ratio =>
      match Args.ratio a, read_int e with
      | Some desired, Some current => negb (desired =? current)%Z
      | _, _ => false
      end
  | m_get_member_session_status =>
      match Args.session_state a, read_str e with
      | Some intent, Some raw =>
          violated "forced_disabled" intent (status_word "SESSION_STATUS_" raw)
      | _, _ => false
      end
  | m_get_member_monitor_status =>
      match Args.monitor_state a, read_str e with
      | Some intent, Some raw =>
          violated "forced_down" intent (status_word "MONITOR_STATUS_" raw)
      | _, _ => false
      end
  | m_get_member_priority =>
      match Args.priority_group a, read_int e with
      | Some desired, Some current => negb (desired =? current)%Z
      | _, _ => false
      end
  | _ => false
  end.

(** what a step of the update path does for its attribute [x].  An
    attribute the task leaves out costs no call.  Otherwise the step
    reads the attribute back ([g]); a failed or empty reply ends it
    without a result; a value that does not contradict the task leaves
    the result as it was; one that does turns the result into
    [changed=True], after the set-call when the run is not in check
    mode, whose failure ends the step. *)
Definition reconciles {S} (a : Args.t) (pool address : name) (port : Z) (x : attribute)
    (step : gmap string bool -> M S (gmap string bool)) : Prop :=
  forall r0 s r s' t, step r0 s = (r, s', t) ->
    match desired_payload a x with
    | None => t = [] /\ r = Ok r0
    | Some p =>
        exists g, ev_call g = get_call x pool address port /\
          if readable x g then
            if contradicts a g then
              if Args.check_mode a then t = [g] /\ r = Ok {[ "changed" := true ]}
              else
                (t = [g; Ev (set_call x pool address port p) (Reply PNone)]
                 /\ r = Ok {[ "changed" := true ]})
                \/ (exists e, t = [g; Ev (set_call x pool address port p) (Fault e)]
                               /\ r = Raise e)
            else t = [g] /\ r = Ok r0
          else t = [g] /\ forall res, r <> Ok res
    end.

(** what the steps for the attributes [xs] do together: a write is the
    set-call of one of them, made outside check mode, with the value
    asked for, in a run with a read that contradicts the task; outside
    check mode a read that contradicts the task comes with the
    set-call; and a result is given only when every attribute asked for
    has been read, is [changed=True] when a read contradicts the task
    and the result given in otherwise, and outside check mode comes
    with the reply to the set-call of every such read *)
Definition audited {S} (a : Args.t) (pool address : name) (port : Z) (xs : list attribute)
    (step : gmap string bool -> M S (gmap string bool)) : Prop :=
  forall r0 s r s' t, step r0 s = (r, s', t) ->
    (forall e, In e t -> is_write (ev_method e) = true ->
       Args.check_mode a = false
       /\ exists x p g,
            In x xs /\ desired_payload a x = Some p
            /\ ev_call e = set_call x pool address port p
            /\ In g t /\ ev_call g = get_call x pool address port
            /\ contradicts a g = true)
    /\ (forall g, In g t -> contradicts a g = true -> Args.check_mode a = false ->
        exists x p sr,
          In x xs /\ desired_payload a x = Some p
          /\ ev_call g = get_call x pool address port
          /\ In (Ev (set_call x pool address port p) sr) t)
    /\ (forall res, r = Ok res ->
        res = (if existsb (contradicts a) t then {[ "changed" := true ]} else r0)
        /\ forall x p, In x xs -> desired_payload a x = Some p ->
             exists g, In g t /\ ev_call g = get_call x pool address port
               /\ readable x g = true
               /\ (contradicts a g = true -> Args.check_mode a = false ->
                   In (Ev (set_call x pool address port p) (Reply PNone)) t)).

(** the rule of lines 503-522 for the session or the monitor state of
    an existing member, read off a run that made the events [t] and
    ended with [o]; [get] and [set] are the two calls for that state.
    In any run: a set-call is [set] itself, is made outside check mode
    and comes with a read of a status that violates the intent; and
    outside check mode a read of a status that violates the intent
    comes with the set-call.  In a run that ends with a result the
    status has been read, the set-call is made exactly when it violates
    the intent and the run is not in check mode, and the result is
    [changed=True] exactly when it does or the read of another
    attribute contradicts the task. *)
Definition sentinel_rule (a : Args.t) (o : outcome) (t : list event) (intent : choice)
    (sentinel prefix : string) (get set : call) : Prop :=
  (forall e, In e t -> ev_method e = call_method set ->
     ev_call e = set /\ Args.check_mode a = false
     /\ exists g raw,
          In g t /\ ev_call g = get /\ read_str g = Some raw
          /\ violated sentinel intent (status_word prefix raw) = true)
  /\ (forall g raw,
      In g t -> ev_call g = get -> read_str g = Some raw ->
      violated sentinel intent (status_word prefix raw) = true ->
      Args.check_mode a = false ->
      exists sr, In (Ev set sr) t)
  /\ (forall result, o = exit_json result ->
      exists g raw,
        In g t /\ ev_call g = get /\ read_str g = Some raw
        /\ ((exists e, In e t /\ ev_method e = call_method set)
            <-> violated sentinel intent (status_word prefix raw) = true
                /\ Args.check_mode a = false)
        /\ (violated sentinel intent (status_word prefix raw) = true ->
            Args.check_mode a = false -> In (Ev set (Reply PNone)) t)
        /\ (result !! "changed" = Some true
            <-> violated sentinel intent (status_word prefix raw) = true
                \/ exists g', In g' t /\ ev_call g' <> get /\ contradicts a g' = true)).

(** the rule of lines 487-502 and 523-526 for a scalar attribute of an
    existing member, whose value asked for is [p].  In any run: a
    set-call is [set] itself, is made outside check mode and comes with
    a read of a value that differs from [p]; and outside check mode a
    read of a value that differs from [p] comes with the set-call.
    In a run that ends with a result the value has been read, the
    set-call is made exactly when it differs from [p] and the run is
    not in check mode, and the result is [changed=True] exactly when it
    differs or the read of another attribute contradicts the task. *)
Definition scalar_rule (a : Args.t) (o : outcome) (t : list event) (p : payload)
    (get set : call) : Prop :=
  (forall e, In e t -> ev_method e = call_method set ->
     ev_call e = set /\ Args.check_mode a = false
     /\ exists g v,
          In g t /\ ev_call g = get /\ ev_reply g = Reply v /\ differs p v = true)
  /\ (forall g v,
      In g t -> ev_call g = get -> ev_reply g = Reply v -> differs p v = true ->
      Args.check_mode a = false ->
      exists sr, In (Ev set sr) t)
  /\ (forall result, o = exit_json result ->
      exists g v,
        In g t /\ ev_call g = get /\ ev_reply g = Reply v /\ is_Some (cell v)
        /\ ((exists e, In e t /\ ev_method e = call_method set)
            <-> differs p v = true /\ Args.check_mode a = false)
        /\ (differs p v = true -> Args.check_mode a = false -> In (Ev set (Reply PNone)) t)
        /\ (result !! "changed" = Some true
            <-> differs p v = true
                \/ exists g', In g' t /\ ev_call g' <> get /\ contradicts a g' = true)).

(** the calls of one attribute on the update path: none, the getter, or
    the getter and then the setter *)
Definition block (x : attribute) (b : list method) : Prop :=
  b = [] \/ b = [getter_of x] \/ b = [getter_of x; setter_of x].

(** steps that make the calls of the attributes [xs], block after block *)
Definition blocked {S} (xs : list attribute)
    (f : gmap string bool -> M S (gmap string bool)) : Prop :=
  forall r0 s, exists bs,
    Forall2 block xs bs /\ map ev_method (trace_of (f r0 s)) = concat bs.

(** the three ways a run goes on after the probes *)
Definition absent_order (l : list method) : Prop :=
  l `prefix_of` [m_remove_member_v2; m_delete_node_address].

Definition create_order (l : list method) : Prop :=
  exists l', l = m_add_member_v2 :: l' /\ sublist l' (map setter_of attributes).

Definition update_order (l : list method) : Prop :=
  exists bs, Forall2 block attributes bs /\ l = concat bs.

(** the order of the calls of a run *)
Definition run_order (a : Args.t) (l : list method) : Prop :=
  l `prefix_of` [m_bigip_api; m_get_object_status; m_get_member_object_status]
  \/ exists rest,
       l = [m_bigip_api; m_get_object_status; m_get_member_object_status] ++ rest
       /\ ((Args.state a = "absent" /\ absent_order rest)
           \/ (Args.state a = "present" /\ (create_order rest \/ update_order rest))).

(** from a state where [P] holds, a value returned satisfies [Q]
    together with the state reached *)
Definition hoare {S A} (P : S -> Prop) (m : M S A) (Q : A -> S -> Prop) : Prop :=
  forall s a s' t, P s -> m s = (Ok a, s', t) -> Q a s'.

(** from a state where [P] holds, the computation writes nothing, keeps
    [P], and a value returned satisfies [Q] *)
Definition quiet {S A} (P : S -> Prop) (m : M S A) (Q : A -> Prop) : Prop :=
  forall s r s' t, P s -> m s = (r, s', t) ->
    Forall (fun e => is_write (ev_method e) = false) t
    /\ P s'
    /\ (forall a, r = Ok a -> Q a).

(** the member [k] exists and its settings satisfy [P] *)
Definition member_has {S} (view : S -> Device.key -> option Device.settings)
    (k : Device.key) (P : Device.settings -> Prop) (s : S) : Prop :=
  exists cfg, view s k = Some cfg /\ P cfg.

(** a call that went well: it replied, with a first value where one is
    asked for; or it is the member probe and failed with "not found" *)
Definition answered (e : event) : Prop :=
  match ev_reply e with
  | Reply (PInts v) => is_Some (first_of v)
  | Reply (PStrs v) => is_Some (first_of v)
  | Reply _ => True
  | Fault x => ev_method e = m_get_member_object_status /\ not_found_flavored x = true
  end.

(** when all its calls went well the computation returns, with a value
    satisfying [Q] *)
Definition finishes {S A} (Q : A -> Prop) (m : M S A) : Prop :=
  forall s r s' t, m s = (r, s', t) -> Forall answered t -> exists a, r = Ok a /\ Q a.

(** some call of the trace is a write *)
Definition wrote (t : list event) : bool := existsb (fun e => is_write (ev_method e)) t.

(** outside check mode a step ends with [changed=True] when it wrote,
    and with the result it was given when it did not *)
Definition tracks {S} (f : gmap string bool -> M S (gmap string bool)) : Prop :=
  forall s r0 r s' t,
    f r0 s = (Ok r, s', t) ->
    r = if wrote t then {[ "changed" := true ]} else r0.

(** a failure the module takes for an answer: "not found" from a probe,
    "still referenced" from the node deletion *)
Definition handled (e : event) : bool :=
  match ev_reply e with
  | Fault x =>
      match ev_method e with
      | m_get_object_status | m_get_member_object_status => not_found_flavored x
      | m_delete_node_address => still_referenced x
      | _ => false
      end
  | Reply _ => false
  end.

Definition fine (e : event) : Prop := replied e \/ handled e = true.

(** a computation raises the failure of its last call, or an error of
    its own after calls that were all fine; otherwise all its calls
    were fine *)
Definition tidy {S A} (m : M S A) : Prop :=
  forall s r s' t, m s = (r, s', t) ->
    match r with
    | Raise x => (exists t0 c, t = t0 ++ [Ev c (Fault x)] /\ Forall fine t0) \/ Forall fine t
    | _ => Forall fine t
    end.

(** the remote methods in the order [main] reaches them: the connection
    and the probes (lines 450-455), removal and node deletion (lines
    457-462), creation (line 469), then per attribute the getter of
    lines 486-526 and the setter of lines 470-526 *)
Definition call_order : list method :=
  [ m_bigip_api; m_get_object_status; m_get_member_object_status;
    m_remove_member_v2; m_delete_node_address;
    m_add_member_v2;
    m_get_member_connection_limit; m_set_member_connection_limit;
    m_get_member_description; m_set_member_description;
    m_get_member_rate_limit; m_set_member_rate_limit;
    m_get_member_ratio; m_set_member_ratio;
    m_get_member_session_status; m_set_member_session_enabled_state;
    m_get_member_monitor_status; m_set_member_monitor_state;
    m_get_member_priority; m_set_member_priority ].

(** the methods a computation calls are taken from [L], in the order of [L] *)
Definition in_order {S A} (L : list method) (m : M S A) : Prop :=
  forall s, sublist (map ev_method (trace_of (m s))) L.

(** a computation that made no write call has left the settings of every
    member as they were *)
Definition still {S A} (view : S -> Device.key -> option Device.settings) (m : M S A) : Prop :=
  forall s r s' t, m s = (r, s', t) -> wrote t = false -> forall k, view s' k = view s k.

(** * Properties *)

(** ** Traces of composed computations *)

Section Emits.

Context {S : Type}.

Lemma emits_ret {A} P (a : A) : emits P (ret (S:=S) a).
Proof. intros s. constructor. Qed.

Lemma emits_raise {A} P e : emits P (raise (S:=S) (A:=A) e).
Proof. intros s. constructor. Qed.

Lemma emits_fail_json {A} P msg : emits P (fail_json (S:=S) (A:=A) msg).
Proof. intros s. constructor. Qed.

Lemma emits_bind {A B} P (m : M S A) (k : A -> M S B) :
  emits P m -> (forall a, emits P (k a)) -> emits P (bind m k).
Proof.
  intros Hm Hk s. specialize (Hm s). unfold bind, trace_of in *.
  destruct (m s) as [[r s1] t1]. destruct r as [a| |]; simpl in *; auto.
  specialize (Hk a s1). destruct (k a s1) as [[r2 s2] t2]. simpl in *.
  apply Forall_app. auto.
Qed.

Lemma emits_try {A} P (m : M S A) (h : exn -> M S A) :
  emits P m -> (forall e, emits P (h e)) -> emits P (try_except_OperationFailed m h).
Proof.
  intros Hm Hh s. specialize (Hm s). unfold try_except_OperationFailed, trace_of in *.
  destruct (m s) as [[r s1] t1]. destruct r as [a|e|]; simpl in *; auto.
  destruct e; simpl; auto.
  specialize (Hh (OperationFailed msg) s1).
  destruct (h (OperationFailed msg) s1) as [[r2 s2] t2]. simpl in *.
  apply Forall_app. auto.
Qed.

Lemma emits_invoke {A} (P : event -> Prop) c (inj : A -> payload) op :
  (forall r, P (Ev c r)) -> emits P (invoke (S:=S) c inj op).
Proof.
  intros H s. unfold invoke, trace_of. destruct (op s) as [[a|e] s1]; simpl; auto.
Qed.

Lemma emits_index00 {A} P (v : list (list A)) : emits P (index00 (S:=S) v).
Proof. destruct v as [|[|x ?] ?]; simpl; auto using emits_ret, emits_raise. Qed.

Lemma emits_weaken {A} (P Q : event -> Prop) (m : M S A) :
  (forall e, P e -> Q e) -> emits P m -> emits Q m.
Proof. intros H Hm s. eapply Forall_impl; eauto. Qed.

End Emits.

Ltac emits_step :=
  first
    [ apply emits_ret | apply emits_raise | apply emits_fail_json | apply emits_index00
    | apply emits_invoke; intros; cbn; try reflexivity; try discriminate
    | apply emits_bind; [ | intros ? ]
    | apply emits_try; [ | intros ? ]
    | match goal with
      | |- emits _ (if ?b then _ else _) => destruct b
      | |- emits _ (match ?o with _ => _ end) => destruct o
      end ].

Ltac unfold_wrappers :=
  unfold connect, pool_exists, member_exists, delete_node_address, remove_pool_member,
    add_pool_member, get_connection_limit, set_connection_limit, get_description,
    set_description, get_rate_limit, set_rate_limit, get_ratio, set_ratio,
    get_priority_group, set_priority_group, set_member_session_enabled_state,
    get_member_session_status, set_member_monitor_state, get_member_monitor_status;
  cbv zeta.

Ltac unfold_steps :=
  unfold modify_attributes, modify_connection_limit, modify_description, modify_rate_limit,
    modify_ratio, modify_session_state, modify_monitor_state, modify_priority_group,
    create_member, remove_member.

Ltac solve_emits := unfold_steps; unfold_wrappers; repeat emits_step.

Section Frames.

Context {S : Type} (api : Client S).

(** past the pool probe, the module only makes calls about the member *)
Lemma reconcile_member_level a pool address port :
  emits (fun e => member_level (ev_method e) = true)
        (reconcile_member api a pool address port).
Proof. unfold reconcile_member. solve_emits. Qed.

End Frames.

(** ** Running the wrappers *)

Section Run.

Context {S : Type} (api : Client S).

Lemma bind_eq {A B} (m : M S A) (k : A -> M S B) s :
  bind m k s =
    match m s with
    | (Ok a, s1, t1) => after t1 (k a s1)
    | (Raise e, s1, t1) => (Raise e, s1, t1)
    | (SysExit msg, s1, t1) => (SysExit msg, s1, t1)
    end.
Proof.
  unfold bind, after. destruct (m s) as [[[a| |] s1] t1]; try reflexivity.
  destruct (k a s1) as [[r s2] t2]; reflexivity.
Qed.

Lemma run_eta {A} (x : A * S * list event) : x = (x.1.1, x.1.2, x.2).
Proof. destruct x as [[r s] t]; reflexivity. Qed.

Lemma after_nil {A} (x : A * S * list event) : after [] x = x.
Proof. destruct x as [[r s] t]; reflexivity. Qed.

Lemma after_after {A} t0 t1 (x : A * S * list event) :
  after t0 (after t1 x) = after (t0 ++ t1) x.
Proof. destruct x as [[r s] t]; unfold after; simpl. by rewrite app_assoc. Qed.

Lemma finish_after t0 (x : res (gmap string bool) * S * list event) :
  finish (after t0 x) = after t0 (finish x).
Proof. destruct x as [[[r| |] s] t]; reflexivity. Qed.

Lemma trace_of_after {A} t0 (x : A * S * list event) :
  trace_of (after t0 x) = t0 ++ trace_of x.
Proof. reflexivity. Qed.

Lemma trace_of_finish (x : res (gmap string bool) * S * list event) :
  trace_of (finish x) = trace_of x.
Proof. destruct x as [[[r| |] s] t]; reflexivity. Qed.

Lemma member_exists_eq pool address port s :
  member_exists api pool address port s =
    match Pool_get_member_object_status api [pool] [[Member address port]] s with
    | (Reply _, s1) => (Ok true, s1, [Ev (call_member_probe pool address port) (Reply PNone)])
    | (Fault e, s1) =>
        (if not_found_flavored e then Ok false else Raise e, s1,
         [Ev (call_member_probe pool address port) (Fault e)])
    end.
Proof.
  unfold member_exists, try_except_OperationFailed, bind, invoke. cbv zeta.
  destruct (Pool_get_member_object_status _ _ _ _) as [[[]|e] s1]; simpl; try reflexivity.
  destruct e as [msg| | |]; simpl; try reflexivity.
  destruct (PyStr.contains "was not found" msg); reflexivity.
Qed.

Lemma pool_exists_eq pool s :
  pool_exists api pool s =
    match Pool_get_object_status api [pool] s with
    | (Reply _, s1) => (Ok true, s1, [Ev (call_pool_probe pool) (Reply PNone)])
    | (Fault e, s1) =>
        (if not_found_flavored e then Ok false else Raise e, s1,
         [Ev (call_pool_probe pool) (Fault e)])
    end.
Proof.
  unfold pool_exists, try_except_OperationFailed, bind, invoke.
  destruct (Pool_get_object_status _ _ _) as [[[]|e] s1]; simpl; try reflexivity.
  destruct e as [msg| | |]; simpl; try reflexivity.
  destruct (PyStr.contains "was not found" msg); reflexivity.
Qed.

Lemma delete_node_address_eq address s :
  delete_node_address api address s =
    match NodeAddressV2_delete_node_address api [address] s with
    | (Reply _, s1) => (Ok true, s1, [Ev (call_delete_node address) (Reply PNone)])
    | (Fault e, s1) =>
        (if still_referenced e then Ok false else Raise e, s1,
         [Ev (call_delete_node address) (Fault e)])
    end.
Proof.
  unfold delete_node_address, try_except_OperationFailed, bind, invoke.
  destruct (NodeAddressV2_delete_node_address _ _ _) as [[[]|e] s1]; simpl; try reflexivity.
  destruct e as [msg| | |]; simpl; try reflexivity.
  destruct (PyStr.contains "is referenced by a member of pool" msg); reflexivity.
Qed.

Lemma invoke_unit_eq c (op : S -> reply unit * S) s :
  invoke c no_payload op s =
    match op s with
    | (Reply _, s1) => (Ok tt, s1, [Ev c (Reply PNone)])
    | (Fault e, s1) => (Raise e, s1, [Ev c (Fault e)])
    end.
Proof. unfold invoke. destruct (op s) as [[[]|e] s1]; reflexivity. Qed.

Lemma remove_member_eq a pool address port s :
  remove_member api a pool address port s =
    if negb (Args.check_mode a) then
      match Pool_remove_member_v2 api [pool] [[Member address port]] s with
      | (Fault e, s1) =>
          (Raise e, s1, [Ev (call_member m_remove_member_v2 pool address port PNone) (Fault e)])
      | (Reply _, s1) =>
          after [Ev (call_member m_remove_member_v2 pool address port PNone) (Reply PNone)]
            (if Args.preserve_node a then (Ok {[ "changed" := true ]}, s1, [])
             else
               match NodeAddressV2_delete_node_address api [address] s1 with
               | (Reply _, s2) =>
                   (Ok (<[ "deleted" := true ]> {[ "changed" := true ]}), s2,
                    [Ev (call_delete_node address) (Reply PNone)])
               | (Fault e, s2) =>
                   (if still_referenced e
                    then Ok (<[ "deleted" := false ]> {[ "changed" := true ]})
                    else Raise e,
                    s2, [Ev (call_delete_node address) (Fault e)])
               end)
      end
    else (Ok {[ "changed" := true ]}, s, []).
Proof.
  unfold remove_member. destruct (negb (Args.check_mode a)); [|reflexivity].
  rewrite bind_eq. unfold remove_pool_member, invoke. cbv zeta.
  destruct (Pool_remove_member_v2 _ _ _ _) as [[[]|e] s1]; [|reflexivity].
  f_equal. destruct (Args.preserve_node a); [reflexivity|].
  rewrite bind_eq, delete_node_address_eq.
  destruct (NodeAddressV2_delete_node_address _ _ _) as [[[]|e] s2]; [reflexivity|].
  destruct (still_referenced e); reflexivity.
Qed.

End Run.

(** ** What the steps return *)

Section Returns.

Context {S : Type}.

Lemma returns_ret {A} (Q : A -> Prop) (a : A) : Q a -> returns Q (ret (S:=S) a).
Proof. intros H s a' s' t E. inversion E; subst. exact H. Qed.

Lemma returns_bind {A B} (Q : B -> Prop) (m : M S A) (k : A -> M S B) :
  (forall a, returns Q (k a)) -> returns Q (bind m k).
Proof.
  intros Hk s b s' t E. unfold bind in E.
  destruct (m s) as [[[a| |] s1] t1]; try discriminate.
  destruct (k a s1) as [[r s2] t2] eqn:Ek. inversion E; subst.
  eapply Hk; eauto.
Qed.

End Returns.

Ltac returns_step :=
  first
    [ apply returns_ret; auto
    | apply returns_bind; intros ?
    | match goal with
      | |- returns _ (if ?b then _ else _) => destruct b
      | |- returns _ (match ?o with _ => _ end) => destruct o
      end ].

Section Step_results.

Context {S : Type} (api : Client S).

Lemma modify_connection_limit_returns a pool address port r0 :
  returns (keeps_or_changes r0) (modify_connection_limit api a pool address port r0).
Proof. unfold modify_connection_limit. repeat returns_step. Qed.

Lemma modify_description_returns a pool address port r0 :
  returns (keeps_or_changes r0) (modify_description api a pool address port r0).
Proof. unfold modify_description. repeat returns_step. Qed.

Lemma modify_rate_limit_returns a pool address port r0 :
  returns (keeps_or_changes r0) (modify_rate_limit api a pool address port r0).
Proof. unfold modify_rate_limit. repeat returns_step. Qed.

Lemma modify_ratio_returns a pool address port r0 :
  returns (keeps_or_changes r0) (modify_ratio api a pool address port r0).
Proof. unfold modify_ratio. repeat returns_step. Qed.

Lemma modify_session_state_returns a pool address port r0 :
  returns (keeps_or_changes r0) (modify_session_state api a pool address port r0).
Proof. unfold modify_session_state. repeat returns_step. Qed.

Lemma modify_monitor_state_returns a pool address port r0 :
  returns (keeps_or_changes r0) (modify_monitor_state api a pool address port r0).
Proof. unfold modify_monitor_state. repeat returns_step. Qed.

Lemma modify_priority_group_returns a pool address port r0 :
  returns (keeps_or_changes r0) (modify_priority_group api a pool address port r0).
Proof. unfold modify_priority_group. repeat returns_step. Qed.

Lemma returns_bind_strong {A B} (Q1 : A -> Prop) (Q : B -> Prop) (m : M S A) (k : A -> M S B) :
  returns Q1 m -> (forall a, Q1 a -> returns Q (k a)) -> returns Q (bind m k).
Proof.
  intros Hm Hk s b s' t E. unfold bind in E.
  destruct (m s) as [[[a| |] s1] t1] eqn:Em; try discriminate.
  destruct (k a s1) as [[r s2] t2] eqn:Ek. inversion E; subst.
  eapply Hk; eauto.
Qed.

Lemma returns_weaken {A} (Q1 Q : A -> Prop) (m : M S A) :
  (forall a, Q1 a -> Q a) -> returns Q1 m -> returns Q m.
Proof. intros H Hm s a s' t E. eauto. Qed.

Lemma modify_attributes_returns a pool address port r0 :
  returns (keeps_or_changes r0) (modify_attributes api a pool address port r0).
Proof.
  unfold modify_attributes.
  eapply returns_bind_strong; [apply modify_connection_limit_returns|intros r1 H1].
  eapply returns_bind_strong; [apply modify_description_returns|intros r2 H2].
  eapply returns_bind_strong; [apply modify_rate_limit_returns|intros r3 H3].
  eapply returns_bind_strong; [apply modify_ratio_returns|intros r4 H4].
  eapply returns_bind_strong; [apply modify_session_state_returns|intros r5 H5].
  eapply returns_bind_strong; [apply modify_monitor_state_returns|intros r6 H6].
  eapply returns_weaken; [|apply modify_priority_group_returns].
  simpl. intros r7 H7.
  destruct H1, H2, H3, H4, H5, H6, H7; subst; auto.
Qed.

(** outside the removal of a member, a result only holds ["changed"] *)
Lemma reconcile_member_not_absent_returns a pool address port :
  (Args.state a =? "absent")%string = false ->
  returns (fun r => r = {[ "changed" := false ]} \/ r = {[ "changed" := true ]})
          (reconcile_member api a pool address port).
Proof.
  intros Hs. unfold reconcile_member. rewrite Hs.
  destruct (Args.state a =? "present")%string; [|apply returns_ret; auto].
  apply returns_bind. intros found. destruct (negb found).
  - apply returns_bind. intros _. apply returns_ret. auto.
  - apply modify_attributes_returns.
Qed.

End Step_results.

(** ** The claims *)

Section Claims.

Context {S : Type} (api : Client S).
Variable fqdn_name : string -> option string -> name.

Local Abbreviation pool_of a := (fqdn_name (Args.partition a) (Some (Args.pool a))).
Local Abbreviation address_of a := (fqdn_name (Args.partition a) (Args.host a)).

Lemma main_enters_try a port s :
  enters_try a port ->
  main api fqdn_name a s = finish (main_try api a (pool_of a) (address_of a) port s).
Proof.
  intros (Hb & Hc & Hh & Hp & Hr). unfold main. rewrite Hb, Hh, Hp. simpl.
  replace (Args.validate_certs a && negb (Args.ssl_has_SSLContext a)) with false.
  2:{ destruct (Args.validate_certs a); simpl; auto. rewrite Hc; auto. }
  replace ((0 >? port) || (port >? 65535)) with false; [reflexivity|].
  symmetry. apply orb_false_iff. rewrite !Z.gtb_ltb, !Z.ltb_ge. lia.
Qed.

(** C9.  A port outside 0..65535, a host without a port or a port
    without a host make the run fail before any remote call: the device
    is left as it was and the trace is empty; once the two checks on the
    Python installation are passed, the message is one of the two
    validation messages.  Ports 0 and 65535 pass: the run goes on to
    open the session, its first remote call. *)
Theorem validation_precedes_remote_calls (a : Args.t) (s : S) :
  (rejected a ->
   exists msg, main api fqdn_name a s = (failed msg, s, [])
               /\ (Args.bigsuds_found a = true ->
                   Args.validate_certs a && negb (Args.ssl_has_SSLContext a) = false ->
                   validation_message msg))
  /\ (forall port, port = 0 \/ port = 65535 ->
      Args.port a = Some port -> truthy (Args.host a) = true ->
      Args.bigsuds_found a = true ->
      Args.validate_certs a && negb (Args.ssl_has_SSLContext a) = false ->
      exists o s' r t, main api fqdn_name a s = (o, s', Ev call_connect r :: t)).
Proof.
  split.
  - intros Hrej. unfold main.
    destruct (Args.bigsuds_found a); simpl; [|eexists; split; [reflexivity|discriminate]].
    destruct (Args.validate_certs a && negb (Args.ssl_has_SSLContext a)); simpl;
      [eexists; split; [reflexivity|discriminate]|].
    destruct Hrej as [(port & Hp & Hr)|[(Hh & Hp)|(Hp & Hh)]].
    + rewrite Hp. simpl.
      destruct (truthy (Args.host a)); simpl.
      * replace ((0 >? port) || (port >? 65535)) with true.
        { eexists; split; [reflexivity|]. right; reflexivity. }
        symmetry. apply orb_true_iff. rewrite !Z.gtb_ltb, !Z.ltb_lt. lia.
      * eexists; split; [reflexivity|]. left; reflexivity.
    + rewrite Hh, Hp. simpl. eexists; split; [reflexivity|]. left; reflexivity.
    + rewrite Hh. destruct (Args.port a); [|congruence]. simpl.
      eexists; split; [reflexivity|]. left; reflexivity.
  - intros port Hport Hp Hh Hb Hc.
    rewrite (main_enters_try a port).
    2:{ repeat split; auto; try lia.
        intros Hv. rewrite Hv in Hc. simpl in Hc. apply negb_false_iff in Hc. exact Hc. }
    unfold finish, main_try, bind, connect, invoke.
    destruct (bigip_api api s) as [[[]|e] s1].
    + destruct (pool_exists api (pool_of a) s1) as [[[pf| |] s2] t2]; simpl.
      * destruct (negb pf); simpl.
        -- do 4 eexists; reflexivity.
        -- destruct (reconcile_member _ _ _ _ _ _) as [[[| |] ?] ?]; do 4 eexists; reflexivity.
      * do 4 eexists; reflexivity.
      * do 4 eexists; reflexivity.
    + do 4 eexists; reflexivity.
Qed.

End Claims.

Section Probes.

Context {S : Type} (api : Client S).

(** C6.  [pool_exists] and [member_exists] each make one status query.
    When the query succeeds they return [True]; when it fails with an
    [OperationFailed] whose text has "was not found" they return
    [False], so that absence is never a failure; any other failure is
    raised again as it came. *)
Theorem probes_read_not_found_as_absent (pool address : name) (port : Z) (s : S) :
  (forall s1, Pool_get_object_status api [pool] s = (Reply tt, s1) ->
     pool_exists api pool s = (Ok true, s1, [Ev (call_pool_probe pool) (Reply PNone)]))
  /\ (forall e s1, Pool_get_object_status api [pool] s = (Fault e, s1) ->
     pool_exists api pool s =
       (if not_found_flavored e then Ok false else Raise e, s1,
        [Ev (call_pool_probe pool) (Fault e)]))
  /\ (forall s1,
     Pool_get_member_object_status api [pool] [[Member address port]] s = (Reply tt, s1) ->
     member_exists api pool address port s =
       (Ok true, s1, [Ev (call_member_probe pool address port) (Reply PNone)]))
  /\ (forall e s1,
     Pool_get_member_object_status api [pool] [[Member address port]] s = (Fault e, s1) ->
     member_exists api pool address port s =
       (if not_found_flavored e then Ok false else Raise e, s1,
        [Ev (call_member_probe pool address port) (Fault e)])).
Proof.
  repeat split; intros *; intros H;
    unfold pool_exists, member_exists, try_except_OperationFailed, bind, invoke;
    cbv zeta; rewrite H; simpl; try reflexivity;
    destruct e as [msg| | |]; simpl; try reflexivity;
    destruct (PyStr.contains "was not found" msg); reflexivity.
Qed.

End Probes.

Section Prologue.

Context {S : Type} (api : Client S).
Variable fqdn_name : string -> option string -> name.

Local Abbreviation pool_of a := (fqdn_name (Args.partition a) (Some (Args.pool a))).
Local Abbreviation address_of a := (fqdn_name (Args.partition a) (Args.host a)).

(** a run that does not enter [try] ends at once, without a result *)
Lemma main_cases a s :
  (exists port, enters_try a port)
  \/ (exists o, main api fqdn_name a s = (o, s, []) /\ forall r, o <> exit_json r).
Proof.
  unfold main.
  destruct (Args.bigsuds_found a) eqn:Hb; simpl; [|right; eexists; split; [reflexivity|discriminate]].
  destruct (Args.validate_certs a && negb (Args.ssl_has_SSLContext a)) eqn:Hc; simpl;
    [right; eexists; split; [reflexivity|discriminate]|].
  destruct (truthy (Args.host a)) eqn:Hh, (Args.port a) as [port|] eqn:Hp; simpl;
    try (right; eexists; split; [reflexivity|discriminate]).
  destruct ((0 >? port) || (port >? 65535)) eqn:Hr;
    [right; eexists; split; [reflexivity|discriminate]|].
  left. exists port. unfold enters_try. rewrite Hb, Hh. repeat split; auto.
  - intros Hv. rewrite Hv in Hc. simpl in Hc. apply negb_false_iff in Hc. exact Hc.
  - apply orb_false_iff in Hr. rewrite !Z.gtb_ltb, !Z.ltb_ge in Hr. lia.
  - apply orb_false_iff in Hr. rewrite !Z.gtb_ltb, !Z.ltb_ge in Hr. lia.
Qed.

(** the session is opened, the pool probed, and only then the member looked at *)
Lemma main_try_eq a pool address port s :
  main_try api a pool address port s =
    match bigip_api api s with
    | (Fault e, s1) => (Raise e, s1, [Ev call_connect (Fault e)])
    | (Reply _, s1) =>
        match Pool_get_object_status api [pool] s1 with
        | (Fault e, s2) =>
            (if not_found_flavored e
             then SysExit ("pool " ++ str_name pool ++ " does not exist")%string
             else Raise e,
             s2, [Ev call_connect (Reply PNone); Ev (call_pool_probe pool) (Fault e)])
        | (Reply _, s2) =>
            after [Ev call_connect (Reply PNone); Ev (call_pool_probe pool) (Reply PNone)]
                  (reconcile_member api a pool address port s2)
        end
    end.
Proof.
  unfold main_try, connect, pool_exists, try_except_OperationFailed, bind, invoke, after.
  destruct (bigip_api api s) as [[[]|e] s1]; simpl; [|reflexivity].
  destruct (Pool_get_object_status api [pool] s1) as [[[]|e] s2]; simpl.
  - destruct (reconcile_member api a pool address port s2) as [[[r| |] s3] t]; reflexivity.
  - destruct e as [msg| | |]; simpl; try reflexivity.
    destruct (PyStr.contains "was not found" msg); reflexivity.
Qed.

(** C7.  When the pool probe reports the pool absent, the run fails
    with "pool ... does not exist"; the session opening and that one
    probe are all the remote calls made: nothing about the member is
    asked or written. *)
Theorem missing_pool_fails_after_one_probe (a : Args.t) (s s' : S) (o : outcome)
    (t : list event) (e : exn) :
  main api fqdn_name a s = (o, s', t) ->
  In (Ev (call_pool_probe (pool_of a)) (Fault e)) t ->
  not_found_flavored e = true ->
  o = failed ("pool " ++ str_name (pool_of a) ++ " does not exist")%string
  /\ t = [Ev call_connect (Reply PNone); Ev (call_pool_probe (pool_of a)) (Fault e)].
Proof.
  intros Hmain Hin Hnf.
  destruct (main_cases a s) as [[port Hv]|(o' & Ho & _)].
  2:{ rewrite Hmain in Ho. inversion Ho; subst. destruct Hin. }
  rewrite (main_enters_try api fqdn_name a port s Hv), main_try_eq in Hmain.
  destruct (bigip_api api s) as [[[]|e1] s1].
  - destruct (Pool_get_object_status api [pool_of a] s1) as [[[]|e2] s2].
    + pose proof (reconcile_member_level api a (pool_of a) (address_of a) port s2) as Hlvl.
      unfold trace_of in Hlvl.
      destruct (reconcile_member api a (pool_of a) (address_of a) port s2) as [[r s3] t3].
      unfold after, finish in Hmain. simpl in Hlvl, Hmain.
      assert (In (Ev (call_pool_probe (pool_of a)) (Fault e)) t3) as Hin3.
      { destruct r; inversion Hmain; subst; simpl in Hin;
          destruct Hin as [Hx|[Hx|Hx]]; try discriminate; exact Hx. }
      rewrite Forall_forall in Hlvl. apply list_elem_of_In in Hin3.
      apply Hlvl in Hin3. discriminate.
    + unfold finish in Hmain. assert (e2 = e) as ->.
      { destruct (not_found_flavored e2); inversion Hmain; subst; simpl in Hin;
          destruct Hin as [Hx|[Hx|[]]]; try discriminate; inversion Hx; reflexivity. }
      rewrite Hnf in Hmain. inversion Hmain; subst. split; reflexivity.
  - unfold finish in Hmain. inversion Hmain; subst. simpl in Hin.
    destruct Hin as [Hx|[]]. discriminate.
Qed.

End Prologue.

Section Absent.

Context {S : Type} (api : Client S).
Variable fqdn_name : string -> option string -> name.

Local Abbreviation pool_of a := (fqdn_name (Args.partition a) (Some (Args.pool a))).
Local Abbreviation address_of a := (fqdn_name (Args.partition a) (Args.host a)).

Lemma finish_trace (x : res (gmap string bool) * S * list event) o s' t :
  finish x = (o, s', t) -> t = trace_of x.
Proof. destruct x as [[[r| |] s] t0]; simpl; intros H; inversion H; reflexivity. Qed.

Lemma remove_member_no_probe a pool address port :
  emits (fun e => calls m_get_member_object_status e = false)
        (remove_member api a pool address port).
Proof. solve_emits. Qed.

Lemma calls_In m (c : call) r t :
  call_method c = m -> In (Ev c r) t -> Forall (fun e => calls m e = false) t -> False.
Proof.
  intros Hc Hin Hall. rewrite Forall_forall in Hall.
  apply list_elem_of_In, Hall in Hin. unfold calls, ev_method in Hin. simpl in Hin.
  rewrite bool_decide_eq_false in Hin. auto.
Qed.

(** C8.  With [state=absent], when the member probe reports the member
    absent, the run ends with [changed=False]; the session opening and
    the two probes are all the remote calls made, so nothing is
    removed, deleted or set. *)
Theorem absent_member_needs_nothing (a : Args.t) (s s' : S) (o : outcome)
    (t : list event) (c : call) (e : exn) :
  main api fqdn_name a s = (o, s', t) ->
  Args.state a = "absent" ->
  call_method c = m_get_member_object_status ->
  In (Ev c (Fault e)) t ->
  not_found_flavored e = true ->
  o = exit_json {[ "changed" := false ]}
  /\ t = [Ev call_connect (Reply PNone);
          Ev (call_pool_probe (pool_of a)) (Reply PNone);
          Ev c (Fault e)].
Proof.
  intros Hmain Hst Hc Hin Hnf.
  destruct (main_cases api fqdn_name a s) as [[port Hv]|(o' & Ho & _)].
  2:{ rewrite Hmain in Ho. inversion Ho; subst. destruct Hin. }
  rewrite (main_enters_try api fqdn_name a port s Hv), main_try_eq in Hmain.
  destruct (bigip_api api s) as [[[]|e1] s1].
  2:{ inversion Hmain; subst. destruct Hin as [Hx|[]]. inversion Hx; subst. discriminate. }
  destruct (Pool_get_object_status api [pool_of a] s1) as [[[]|e2] s2].
  2:{ apply finish_trace in Hmain. subst t. simpl in Hin.
      destruct Hin as [Hx|[Hx|[]]]; inversion Hx; subst; discriminate. }
  unfold reconcile_member in Hmain. rewrite Hst, String.eqb_refl in Hmain.
  rewrite bind_eq, member_exists_eq in Hmain.
  destruct (Pool_get_member_object_status _ _ _ _) as [[[]|e3] s3].
  - exfalso. apply finish_trace in Hmain. subst t.
    rewrite !trace_of_after in Hin. simpl in Hin.
    destruct Hin as [Hx|[Hx|[Hx|Hx]]]; try (inversion Hx; subst; discriminate).
    eapply calls_In; [exact Hc|exact Hx|]. apply remove_member_no_probe.
  - assert (Ev c (Fault e) = Ev (call_member_probe (pool_of a) (address_of a) port) (Fault e3))
      as Hev.
    { apply finish_trace in Hmain. subst t.
      destruct (not_found_flavored e3); simpl in Hin;
        destruct Hin as [Hx|[Hx|[Hx|[]]]]; try (inversion Hx; subst; discriminate);
        symmetry; exact Hx. }
    inversion Hev; subst. rewrite Hnf in Hmain.
    unfold after, finish in Hmain. simpl in Hmain. inversion Hmain; subst.
    split; reflexivity.
Qed.

Ltac trace_cases Hin :=
  simpl in Hin;
  repeat (destruct Hin as [Hin|Hin];
          [try (inversion Hin; subst; try discriminate)|]);
  try (destruct Hin).

(** C4.  With [state=absent], an existing member, [preserve_node] off
    and outside check mode, the member is removed and then the node
    address is deleted, and the reply to the deletion decides the end of
    the run: a success gives [changed=True, deleted=True]; a failure
    saying the node "is referenced by a member of pool" gives
    [changed=True, deleted=False] and no error; any other failure ends
    the run with [fail_json].  Only a removal that fails keeps the
    deletion from being tried, and that too ends the run with
    [fail_json]. *)
Theorem node_deletion_outcomes (a : Args.t) (s s' : S) (o : outcome)
    (t : list event) (c : call) :
  main api fqdn_name a s = (o, s', t) ->
  Args.state a = "absent" ->
  Args.preserve_node a = false ->
  Args.check_mode a = false ->
  call_method c = m_get_member_object_status ->
  In (Ev c (Reply PNone)) t ->
  exists port,
    Args.port a = Some port
    /\ ((exists r,
           t = [Ev call_connect (Reply PNone);
                Ev (call_pool_probe (pool_of a)) (Reply PNone);
                Ev c (Reply PNone);
                Ev (call_member m_remove_member_v2 (pool_of a) (address_of a) port PNone)
                   (Reply PNone);
                Ev (call_delete_node (address_of a)) r]
           /\ o = match r with
                  | Reply _ => exit_json (<[ "deleted" := true ]> {[ "changed" := true ]})
                  | Fault e =>
                      if still_referenced e
                      then exit_json (<[ "deleted" := false ]> {[ "changed" := true ]})
                      else failed ("received exception: " ++ str_exn e)%string
                  end)
        \/ (exists e,
           t = [Ev call_connect (Reply PNone);
                Ev (call_pool_probe (pool_of a)) (Reply PNone);
                Ev c (Reply PNone);
                Ev (call_member m_remove_member_v2 (pool_of a) (address_of a) port PNone)
                   (Fault e)]
           /\ o = failed ("received exception: " ++ str_exn e)%string)).
Proof.
  intros Hmain Hst Hpn Hcm Hc Hin.
  destruct (main_cases api fqdn_name a s) as [[port Hv]|(o' & Ho & _)].
  2:{ rewrite Hmain in Ho. inversion Ho; subst. destruct Hin. }
  exists port. split; [apply Hv|].
  rewrite (main_enters_try api fqdn_name a port s Hv), main_try_eq in Hmain.
  destruct (bigip_api api s) as [[[]|e1] s1].
  2:{ inversion Hmain; subst. trace_cases Hin. }
  destruct (Pool_get_object_status api [pool_of a] s1) as [[[]|e2] s2].
  2:{ apply finish_trace in Hmain. subst t. trace_cases Hin. }
  unfold reconcile_member in Hmain. rewrite Hst, String.eqb_refl in Hmain.
  rewrite bind_eq, member_exists_eq in Hmain.
  destruct (Pool_get_member_object_status _ _ _ _) as [[[]|e3] s3].
  2:{ apply finish_trace in Hmain. subst t.
      destruct (not_found_flavored e3); trace_cases Hin. }
  rewrite remove_member_eq, Hcm, Hpn in Hmain. cbn [negb] in Hmain.
  destruct (Pool_remove_member_v2 _ _ _ _) as [[[]|e4] s4].
  - left. destruct (NodeAddressV2_delete_node_address _ _ _) as [[[]|e5] s5].
    + exists (Reply PNone).
      unfold after, finish in Hmain. simpl in Hmain. inversion Hmain; subst.
      trace_cases Hin. split; reflexivity.
    + exists (Fault e5).
      destruct (still_referenced e5) eqn:Hsr;
        unfold after, finish in Hmain; simpl in Hmain; inversion Hmain; subst;
        trace_cases Hin; split; reflexivity.
  - right. exists e4.
    unfold after, finish in Hmain. simpl in Hmain. inversion Hmain; subst.
    trace_cases Hin. split; reflexivity.
Qed.

(** C10.  A result holds a ['deleted'] field only when [state=absent],
    the member probe found the member, [preserve_node] is off and the run
    is not in check mode; so in check mode no result ever holds it. *)
Theorem deleted_only_after_real_removal (a : Args.t) (s s' : S)
    (result : gmap string bool) (t : list event) :
  main api fqdn_name a s = (exit_json result, s', t) ->
  (is_Some (result !! "deleted") ->
   Args.state a = "absent" /\ Args.preserve_node a = false /\ Args.check_mode a = false
   /\ exists c, call_method c = m_get_member_object_status /\ In (Ev c (Reply PNone)) t)
  /\ (Args.check_mode a = true -> result !! "deleted" = None).
Proof.
  intros Hmain.
  assert (is_Some (result !! "deleted") ->
          Args.state a = "absent" /\ Args.preserve_node a = false
          /\ Args.check_mode a = false
          /\ exists c, call_method c = m_get_member_object_status
                       /\ In (Ev c (Reply PNone)) t) as Hmainly.
  2:{ split; [exact Hmainly|]. intros Hcm.
      destruct (result !! "deleted") eqn:Hd; [|reflexivity].
      destruct Hmainly as (_ & _ & Hcm' & _); [eauto|congruence]. }
  intros Hsome.
  destruct (main_cases api fqdn_name a s) as [[port Hv]|(o' & Ho & Hne)].
  2:{ rewrite Hmain in Ho. inversion Ho; subst. exfalso. eapply Hne; reflexivity. }
  rewrite (main_enters_try api fqdn_name a port s Hv), main_try_eq in Hmain.
  destruct (bigip_api api s) as [[[]|e1] s1]; [|discriminate].
  destruct (Pool_get_object_status api [pool_of a] s1) as [[[]|e2] s2].
  2:{ destruct (not_found_flavored e2); discriminate. }
  destruct (Args.state a =? "absent")%string eqn:Hst.
  2:{ exfalso.
      pose proof (reconcile_member_not_absent_returns api a (pool_of a) (address_of a) port Hst
                    s2) as Hret.
      destruct (reconcile_member api a (pool_of a) (address_of a) port s2)
        as [[[r| |] s3] t3]; try discriminate.
      unfold after, finish in Hmain. simpl in Hmain. inversion Hmain; subst.
      destruct (Hret _ _ _ eq_refl) as [->| ->];
        rewrite lookup_singleton_ne in Hsome by discriminate;
        destruct Hsome; discriminate. }
  apply String.eqb_eq in Hst as Hstate.
  unfold reconcile_member in Hmain. rewrite Hst in Hmain.
  rewrite bind_eq, member_exists_eq in Hmain.
  destruct (Pool_get_member_object_status _ _ _ _) as [[[]|e3] s3].
  2:{ exfalso. destruct (not_found_flavored e3); try discriminate.
      unfold after, finish in Hmain. simpl in Hmain. inversion Hmain; subst.
      rewrite lookup_singleton_ne in Hsome by discriminate. destruct Hsome; discriminate. }
  rewrite remove_member_eq in Hmain.
  destruct (negb (Args.check_mode a)) eqn:Hcm.
  2:{ exfalso. unfold after, finish in Hmain. simpl in Hmain. inversion Hmain; subst.
      rewrite lookup_singleton_ne in Hsome by discriminate. destruct Hsome; discriminate. }
  apply negb_true_iff in Hcm.
  destruct (Pool_remove_member_v2 _ _ _ _) as [[[]|e4] s4]; [|discriminate].
  destruct (Args.preserve_node a).
  { exfalso. unfold after, finish in Hmain. simpl in Hmain. inversion Hmain; subst.
    rewrite lookup_singleton_ne in Hsome by discriminate. destruct Hsome; discriminate. }
  repeat split; auto.
  exists (call_member_probe (pool_of a) (address_of a) port). split; [reflexivity|].
  apply finish_trace in Hmain. subst t. rewrite !trace_of_after. simpl. auto.
Qed.

End Absent.

Section Creation.

Context {S : Type} (api : Client S).
Variable fqdn_name : string -> option string -> name.

Local Abbreviation pool_of a := (fqdn_name (Args.partition a) (Some (Args.pool a))).
Local Abbreviation address_of a := (fqdn_name (Args.partition a) (Args.host a)).

Lemma scripted_ret {A} (a : A) : scripted [] (ret (S:=S) a).
Proof.
  intros s r s' t E. inversion E; subst. split; [eauto|reflexivity].
Qed.

Lemma scripted_invoke {A} c (inj : A -> payload) op : scripted [c] (invoke (S:=S) c inj op).
Proof.
  intros s r s' t E. unfold invoke in E.
  destruct (op s) as [[x|e] s1]; inversion E; subst; split; eauto; try discriminate.
  intros Hall. inversion Hall as [|? ? [p Hp] _]; subst. discriminate.
Qed.

Lemma scripted_bind {A B} cs1 cs2 (m : M S A) (k : A -> M S B) :
  scripted cs1 m -> (forall a, scripted cs2 (k a)) -> scripted (cs1 ++ cs2) (bind m k).
Proof.
  intros Hm Hk s r s' t E. unfold bind in E.
  destruct (m s) as [[r1 s1] t1] eqn:Em. destruct (Hm _ _ _ _ Em) as [Hm1 Hm2].
  destruct r1 as [a|e|msg].
  - destruct (k a s1) as [[r2 s2] t2] eqn:Ek. destruct (Hk a _ _ _ _ Ek) as [Hk1 Hk2].
    inversion E; subst. split.
    + intros Hall. apply Forall_app in Hall. tauto.
    + intros b Hb. rewrite map_app. f_equal; eauto.
  - inversion E; subst. split; [|discriminate].
    intros Hall. destruct (Hm1 Hall). discriminate.
  - inversion E; subst. split; [|discriminate].
    intros Hall. destruct (Hm1 Hall). discriminate.
Qed.

Lemma state_token_eq c :
  ("STATE_" ++ PyStr.upper (PyStr.strip (choice_str c)))%string = state_token c.
Proof. destruct c; reflexivity. Qed.

Lemma create_member_scripted a pool address port :
  scripted (creation_calls a pool address port) (create_member api a pool address port).
Proof.
  unfold create_member, creation_calls. unfold_wrappers. rewrite ?state_token_eq.
  apply scripted_bind; [apply scripted_invoke|intros _].
  apply scripted_bind;
    [destruct (Args.connection_limit a); [apply scripted_invoke|apply scripted_ret]|intros _].
  apply scripted_bind;
    [destruct (Args.description a); [apply scripted_invoke|apply scripted_ret]|intros _].
  apply scripted_bind;
    [destruct (Args.rate_limit a); [apply scripted_invoke|apply scripted_ret]|intros _].
  apply scripted_bind;
    [destruct (Args.ratio a); [apply scripted_invoke|apply scripted_ret]|intros _].
  apply scripted_bind;
    [destruct (Args.session_state a);
     [rewrite state_token_eq; apply scripted_invoke|apply scripted_ret]|intros _].
  apply scripted_bind;
    [destruct (Args.monitor_state a);
     [rewrite state_token_eq; apply scripted_invoke|apply scripted_ret]|intros _].
  destruct (Args.priority_group a); [apply scripted_invoke|apply scripted_ret].
Qed.

Lemma create_member_writes a pool address port :
  emits (fun e => is_write (ev_method e) = true) (create_member api a pool address port).
Proof. solve_emits. Qed.

Lemma modify_attributes_no_probe a pool address port r0 :
  emits (fun e => calls m_get_member_object_status e = false)
        (modify_attributes api a pool address port r0).
Proof. solve_emits. Qed.

Lemma writes_not_probe t :
  Forall (fun e => is_write (ev_method e) = true) t ->
  Forall (fun e => calls m_get_member_object_status e = false) t.
Proof.
  intros H. eapply Forall_impl; [exact H|]. intros [c r]. unfold calls, ev_method. simpl.
  intros Hw. apply bool_decide_eq_false. intros Hc. rewrite Hc in Hw. discriminate.
Qed.

(** C5.  With [state=present] and check mode off, when the member probe
    reports the member absent and no write fails, the run ends with
    [changed=True]; and whenever such a run ends with a result, its
    remote calls are the session opening, the two probes, one
    [add_member_v2], and then one set-call for each supplied attribute
    and none for the others, in the order connection limit, description,
    rate limit, ratio, session state, monitor state, priority group: no
    attribute is read. *)
Theorem creation_writes_supplied_attributes (a : Args.t) (s s' : S) (o : outcome)
    (t : list event) (c : call) (e : exn) (port : Z) :
  main api fqdn_name a s = (o, s', t) ->
  Args.state a = "present" ->
  Args.check_mode a = false ->
  Args.port a = Some port ->
  call_method c = m_get_member_object_status ->
  In (Ev c (Fault e)) t ->
  not_found_flavored e = true ->
  (writes_replied t -> o = exit_json {[ "changed" := true ]})
  /\ (forall result, o = exit_json result ->
      result = {[ "changed" := true ]}
      /\ map ev_call t =
           [call_connect; call_pool_probe (pool_of a); c]
           ++ creation_calls a (pool_of a) (address_of a) port).
Proof.
  intros Hmain Hst Hcm Hport Hc Hin Hnf.
  destruct (main_cases api fqdn_name a s) as [[port' Hv]|(o' & Ho & _)].
  2:{ rewrite Hmain in Ho. inversion Ho; subst. destruct Hin. }
  assert (port' = port) as ->.
  { destruct Hv as (_ & _ & _ & Hp & _). congruence. }
  rewrite (main_enters_try api fqdn_name a port s Hv), main_try_eq in Hmain.
  destruct (bigip_api api s) as [[[]|e1] s1].
  2:{ inversion Hmain; subst. destruct Hin as [Hx|[]]. inversion Hx; subst. discriminate. }
  destruct (Pool_get_object_status api [pool_of a] s1) as [[[]|e2] s2].
  2:{ apply finish_trace in Hmain. subst t. simpl in Hin.
      destruct Hin as [Hx|[Hx|[]]]; inversion Hx; subst; discriminate. }
  unfold reconcile_member in Hmain. rewrite Hst, Hcm in Hmain.
  change ("present" =? "absent")%string with false in Hmain.
  change ("present" =? "present")%string with true in Hmain.
  cbv iota in Hmain. rewrite bind_eq, member_exists_eq in Hmain.
  destruct (Pool_get_member_object_status _ _ _ _) as [[[]|e3] s3].
  { exfalso. apply finish_trace in Hmain. subst t.
    rewrite !trace_of_after in Hin. simpl in Hin.
    destruct Hin as [Hx|[Hx|[Hx|Hx]]]; try (inversion Hx; subst; discriminate).
    eapply calls_In; [exact Hc|exact Hx|]. apply modify_attributes_no_probe. }
  destruct (not_found_flavored e3) eqn:Hnf3.
  2:{ exfalso. apply finish_trace in Hmain. subst t. simpl in Hin.
      destruct Hin as [Hx|[Hx|[Hx|[]]]]; try (inversion Hx; subst; discriminate).
      inversion Hx; subst. congruence. }
  change (negb true) with false in Hmain. change (negb false) with true in Hmain.
  cbv iota in Hmain. rewrite bind_eq in Hmain.
  pose proof (create_member_writes a (pool_of a) (address_of a) port s3) as Hw.
  destruct (create_member api a (pool_of a) (address_of a) port s3) as [[r4 s4] t4] eqn:Ec.
  unfold trace_of in Hw. simpl in Hw.
  destruct (create_member_scripted a _ _ _ _ _ _ _ Ec) as [Hdone Hcalls].
  assert (forall t0,
            In (Ev c (Fault e))
               (Ev call_connect (Reply PNone)
                :: Ev (call_pool_probe (pool_of a)) (Reply PNone)
                :: Ev (call_member_probe (pool_of a) (address_of a) port) (Fault e3)
                :: t0) ->
            t0 = t4 ->
            c = call_member_probe (pool_of a) (address_of a) port /\ e = e3) as Hev.
  { intros t0 Hin0 ->. simpl in Hin0.
    destruct Hin0 as [Hx|[Hx|[Hx|Hx]]]; try (inversion Hx; subst; discriminate).
    - inversion Hx; subst. split; reflexivity.
    - exfalso. eapply calls_In; [exact Hc|exact Hx|]. apply writes_not_probe, Hw. }
  destruct r4 as [[]|e4|msg]; unfold after, finish, ret in Hmain; simpl in Hmain;
    inversion Hmain; subst; clear Hmain;
    destruct (Hev _ Hin) as [-> ->]; auto using app_nil_r.
  - split; [reflexivity|]. intros result Hr. inversion Hr; subst. split; [reflexivity|].
    simpl. rewrite app_nil_r. do 3 f_equal. apply (Hcalls tt eq_refl).
  - split; [|discriminate]. intros Hall. exfalso.
    assert (Forall replied t4) as Hall4.
    { unfold writes_replied in Hall. rewrite !Forall_cons in Hall.
      destruct Hall as (_ & _ & _ & Hall).
      rewrite Forall_forall in *. intros x Hx. apply Hall; auto. }
    destruct (Hdone Hall4). discriminate.
  - split; [|discriminate]. intros Hall. exfalso.
    assert (Forall replied t4) as Hall4.
    { unfold writes_replied in Hall. rewrite !Forall_cons in Hall.
      destruct Hall as (_ & _ & _ & Hall).
      rewrite Forall_forall in *. intros x Hx. apply Hall; auto. }
    destruct (Hdone Hall4). discriminate.
Qed.

End Creation.

Section Check_mode.

Context {S : Type} (api : Client S).
Variable fqdn_name : string -> option string -> name.

Local Abbreviation pool_of a := (fqdn_name (Args.partition a) (Some (Args.pool a))).
Local Abbreviation address_of a := (fqdn_name (Args.partition a) (Args.host a)).
Local Abbreviation T := ({[ "changed" := true ]} : gmap string bool).

(** in check mode the body of [try] only reads *)
Lemma main_try_check_mode_reads a pool address port :
  Args.check_mode a = true ->
  emits (fun e => is_write (ev_method e) = false) (main_try api a pool address port).
Proof.
  intros Hcm.
  unfold main_try, reconcile_member, remove_member, modify_attributes,
    modify_connection_limit, modify_description, modify_rate_limit, modify_ratio,
    modify_session_state, modify_monitor_state, modify_priority_group.
  rewrite Hcm. change (negb true) with false. cbv iota.
  unfold_wrappers. repeat emits_step.
Qed.

Lemma only_ret (r : gmap string bool) (s : S) : only r (ret r s).
Proof. intros r' H. inversion H. reflexivity. Qed.

Lemma only_after {A} t0 (k : A -> gmap string bool) (x : res A * S * list event) r :
  only r (match x with
          | (Ok a, s1, t1) => after t1 (ret (k a) s1)
          | (Raise e, s1, t1) => (Raise e, s1, t1)
          | (SysExit msg, s1, t1) => (SysExit msg, s1, t1)
          end) ->
  only r (after t0 (match x with
                    | (Ok a, s1, t1) => after t1 (ret (k a) s1)
                    | (Raise e, s1, t1) => (Raise e, s1, t1)
                    | (SysExit msg, s1, t1) => (SysExit msg, s1, t1)
                    end)).
Proof. intros H. exact H. Qed.

(** a write, then [changed=True] *)
Lemma only_write_then_changed (m : M S unit) (s : S) : only T (bind m (fun _ => ret T) s).
Proof.
  intros r. unfold bind. destruct (m s) as [[[[]| |] s1] t1]; simpl; try discriminate.
  intros H. inversion H. reflexivity.
Qed.

Lemma only_after_iff t0 (x : res (gmap string bool) * S * list event) r :
  only r (after t0 x) <-> only r x.
Proof. reflexivity. Qed.

Ltac destruct_read :=
  match goal with
  | |- context [get_connection_limit ?api ?p ?a ?q ?s] =>
      destruct (get_connection_limit api p a q s) as [[[current| |] s1] t1]
  | |- context [get_description ?api ?p ?a ?q ?s] =>
      destruct (get_description api p a q s) as [[[current| |] s1] t1]
  | |- context [get_rate_limit ?api ?p ?a ?q ?s] =>
      destruct (get_rate_limit api p a q s) as [[[current| |] s1] t1]
  | |- context [get_ratio ?api ?p ?a ?q ?s] =>
      destruct (get_ratio api p a q s) as [[[current| |] s1] t1]
  | |- context [get_priority_group ?api ?p ?a ?q ?s] =>
      destruct (get_priority_group api p a q s) as [[[current| |] s1] t1]
  | |- context [get_member_session_status ?api ?p ?a ?q ?s] =>
      destruct (get_member_session_status api p a q s) as [[[current| |] s1] t1]
  | |- context [get_member_monitor_status ?api ?p ?a ?q ?s] =>
      destruct (get_member_monitor_status api p a q s) as [[[current| |] s1] t1]
  end.

Ltac agree_step :=
  intros s r0; cbn [Args.with_check_mode Args.check_mode Args.connection_limit
                      Args.description Args.rate_limit Args.ratio Args.session_state
                      Args.monitor_state Args.priority_group];
  match goal with
  | |- context [match ?o with Some _ => _ | None => _ end] =>
      destruct o; [|left; reflexivity]
  end;
  rewrite !bind_eq;
  destruct_read; try (left; reflexivity);
  cbn [negb];
  repeat match goal with
         | |- context [if ?b then _ else _] =>
             destruct b;
             try (left; reflexivity);
             try (right; split; apply only_after_iff, only_write_then_changed)
         end.

Lemma modify_connection_limit_agree a pool address port :
  agree (modify_connection_limit api (Args.with_check_mode true a) pool address port)
        (modify_connection_limit api (Args.with_check_mode false a) pool address port).
Proof. unfold modify_connection_limit. agree_step. Qed.

Lemma modify_description_agree a pool address port :
  agree (modify_description api (Args.with_check_mode true a) pool address port)
        (modify_description api (Args.with_check_mode false a) pool address port).
Proof. unfold modify_description. agree_step. Qed.

Lemma modify_rate_limit_agree a pool address port :
  agree (modify_rate_limit api (Args.with_check_mode true a) pool address port)
        (modify_rate_limit api (Args.with_check_mode false a) pool address port).
Proof. unfold modify_rate_limit. agree_step. Qed.

Lemma modify_ratio_agree a pool address port :
  agree (modify_ratio api (Args.with_check_mode true a) pool address port)
        (modify_ratio api (Args.with_check_mode false a) pool address port).
Proof. unfold modify_ratio. agree_step. Qed.

Lemma modify_session_state_agree a pool address port :
  agree (modify_session_state api (Args.with_check_mode true a) pool address port)
        (modify_session_state api (Args.with_check_mode false a) pool address port).
Proof. unfold modify_session_state. agree_step. Qed.

Lemma modify_monitor_state_agree a pool address port :
  agree (modify_monitor_state api (Args.with_check_mode true a) pool address port)
        (modify_monitor_state api (Args.with_check_mode false a) pool address port).
Proof. unfold modify_monitor_state. agree_step. Qed.

Lemma modify_priority_group_agree a pool address port :
  agree (modify_priority_group api (Args.with_check_mode true a) pool address port)
        (modify_priority_group api (Args.with_check_mode false a) pool address port).
Proof. unfold modify_priority_group. agree_step. Qed.

Lemma agree_seq (fd fr gd gr : gmap string bool -> M S (gmap string bool)) :
  agree fd fr -> agree gd gr -> keeps_changed gd -> keeps_changed gr ->
  agree (fun r => bind (fd r) gd) (fun r => bind (fr r) gr).
Proof.
  intros Hf Hg Hkd Hkr s r0. destruct (Hf s r0) as [Heq|[Hd Hr]].
  - rewrite !bind_eq, Heq. destruct (fr r0 s) as [[[r1| |] s1] t1]; try (left; reflexivity).
    destruct (Hg s1 r1) as [Heq2|[Hd2 Hr2]].
    + left. rewrite Heq2. reflexivity.
    + right. split; apply only_after_iff; assumption.
  - right. split; rewrite bind_eq.
    + destruct (fd r0 s) as [[[r1| |] s1] t1]; try (intros ? H; discriminate H).
      rewrite (Hd r1 eq_refl). apply only_after_iff, Hkd.
    + destruct (fr r0 s) as [[[r1| |] s1] t1]; try (intros ? H; discriminate H).
      rewrite (Hr r1 eq_refl). apply only_after_iff, Hkr.
Qed.

Lemma keeps_changed_seq (f g : gmap string bool -> M S (gmap string bool)) :
  keeps_changed f -> keeps_changed g -> keeps_changed (fun r => bind (f r) g).
Proof.
  intros Hf Hg s. rewrite bind_eq. specialize (Hf s).
  destruct (f T s) as [[[r1| |] s1] t1]; try (intros ? H; discriminate H).
  rewrite (Hf r1 eq_refl). apply only_after_iff, Hg.
Qed.

Lemma returns_keeps_changed (f : gmap string bool -> M S (gmap string bool)) :
  (forall r0, returns (keeps_or_changes r0) (f r0)) -> keeps_changed f.
Proof.
  intros H s r E. destruct (f T s) as [[r1 s1] t1] eqn:Ef. simpl in E. subst r1.
  destruct (H _ _ _ _ _ Ef); assumption.
Qed.

Ltac keeps_changed_steps :=
  repeat first
    [ apply keeps_changed_seq
    | apply returns_keeps_changed; intros ?;
      first [ apply modify_connection_limit_returns | apply modify_description_returns
            | apply modify_rate_limit_returns | apply modify_ratio_returns
            | apply modify_session_state_returns | apply modify_monitor_state_returns
            | apply modify_priority_group_returns ] ].

Lemma modify_attributes_agree a pool address port :
  agree (modify_attributes api (Args.with_check_mode true a) pool address port)
        (modify_attributes api (Args.with_check_mode false a) pool address port).
Proof.
  unfold modify_attributes.
  apply agree_seq; [apply modify_connection_limit_agree| |keeps_changed_steps..].
  apply agree_seq; [apply modify_description_agree| |keeps_changed_steps..].
  apply agree_seq; [apply modify_rate_limit_agree| |keeps_changed_steps..].
  apply agree_seq; [apply modify_ratio_agree| |keeps_changed_steps..].
  apply agree_seq; [apply modify_session_state_agree| |keeps_changed_steps..].
  apply agree_seq; [apply modify_monitor_state_agree| |keeps_changed_steps..].
  apply modify_priority_group_agree.
Qed.

Lemma with_check_mode_id a : Args.with_check_mode (Args.check_mode a) a = a.
Proof. destruct a; reflexivity. Qed.

Lemma changed_of_deleted (d : bool) :
  (<[ "deleted" := d ]> T : gmap string bool) !! "changed" = T !! "changed".
Proof. apply lookup_insert_ne. discriminate. Qed.

Lemma reconcile_member_agree a pool address port s r s1 t1 r' s2 t2 :
  reconcile_member api (Args.with_check_mode true a) pool address port s = (Ok r, s1, t1) ->
  reconcile_member api (Args.with_check_mode false a) pool address port s = (Ok r', s2, t2) ->
  r !! "changed" = r' !! "changed".
Proof.
  unfold reconcile_member. cbn [Args.with_check_mode Args.state Args.check_mode].
  destruct (Args.state a =? "absent")%string.
  - rewrite !bind_eq, member_exists_eq.
    destruct (Pool_get_member_object_status _ _ _ _) as [[[]|e] s3].
    + rewrite !remove_member_eq.
      cbn [Args.with_check_mode Args.check_mode Args.preserve_node negb].
      destruct (Pool_remove_member_v2 _ _ _ _) as [[[]|e4] s4].
      2:{ intros _ H. discriminate H. }
      destruct (Args.preserve_node a).
      { intros H1 H2. inversion H1; inversion H2; reflexivity. }
      destruct (NodeAddressV2_delete_node_address _ _ _) as [[[]|e5] s5].
      * intros H1 H2. inversion H1; inversion H2; subst.
        symmetry. apply changed_of_deleted.
      * destruct (still_referenced e5); intros H1 H2; inversion H1; inversion H2; subst.
        symmetry. apply changed_of_deleted.
    + destruct (not_found_flavored e); intros H1 H2; inversion H1; inversion H2; subst.
      reflexivity.
  - destruct (Args.state a =? "present")%string.
    2:{ intros H1 H2. inversion H1; inversion H2; reflexivity. }
    rewrite !bind_eq, member_exists_eq.
    destruct (Pool_get_member_object_status _ _ _ _) as [[[]|e] s3].
    + cbn [negb].
      pose proof (modify_attributes_agree a pool address port s3 {[ "changed" := false ]})
        as Hag.
      destruct (modify_attributes api (Args.with_check_mode true a) pool address port
                  {[ "changed" := false ]} s3) as [[x1 y1] z1].
      destruct (modify_attributes api (Args.with_check_mode false a) pool address port
                  {[ "changed" := false ]} s3) as [[x2 y2] z2].
      unfold after. simpl. intros H1 H2. inversion H1; inversion H2; subst.
      destruct Hag as [Heq|[Hd Hr]].
      * inversion Heq. reflexivity.
      * rewrite (Hd _ eq_refl), (Hr _ eq_refl). reflexivity.
    + destruct (not_found_flavored e); [|intros H; discriminate H].
      cbn [negb]. rewrite !bind_eq. intros H1 H2.
      assert (r = T) as ->.
      { inversion H1. reflexivity. }
      assert (r' = T) as ->; [|reflexivity].
      destruct (create_member api (Args.with_check_mode false a) pool address port s3)
        as [[[[]| |] s4] t4]; inversion H2. reflexivity.
Qed.

Lemma enters_try_with_check_mode b a port :
  enters_try a port -> enters_try (Args.with_check_mode b a) port.
Proof. intros H. exact H. Qed.

(** C3.  In check mode a run makes no write call: no member is added or
    removed, no node deleted, no attribute set.  And when the run in
    check mode and the run of the same task on the same device outside
    check mode both end with a result, they report the same [changed]. *)
Theorem check_mode_predicts_without_writing (a : Args.t) (s : S) :
  Args.check_mode a = true ->
  Forall (fun e => is_write (ev_method e) = false) (trace_of (main api fqdn_name a s))
  /\ (forall r s1 t1 r' s2 t2,
      main api fqdn_name a s = (exit_json r, s1, t1) ->
      main api fqdn_name (Args.with_check_mode false a) s = (exit_json r', s2, t2) ->
      r !! "changed" = r' !! "changed").
Proof.
  intros Hcm.
  destruct (main_cases api fqdn_name a s) as [[port Hv]|(o' & Ho & Hne)].
  2:{ rewrite Ho. split; [constructor|].
      intros r s1 t1 r' s2 t2 H. inversion H; subst. exfalso. eapply Hne; reflexivity. }
  rewrite (main_enters_try api fqdn_name a port s Hv).
  split.
  - rewrite trace_of_finish. apply main_try_check_mode_reads, Hcm.
  - intros r s1 t1 r' s2 t2.
    rewrite (main_enters_try api fqdn_name _ port s (enters_try_with_check_mode false a port Hv)).
    cbn [Args.with_check_mode Args.partition Args.pool Args.host].
    rewrite <- (with_check_mode_id a) at 1. rewrite Hcm.
    rewrite !main_try_eq.
    destruct (bigip_api api s) as [[[]|e1] s3]; [|intros H; discriminate H].
    destruct (Pool_get_object_status api [pool_of a] s3) as [[[]|e2] s4].
    2:{ destruct (not_found_flavored e2); intros H; discriminate H. }
    destruct (reconcile_member api (Args.with_check_mode true a) (pool_of a) (address_of a)
                port s4) as [[[x1| |] y1] z1] eqn:E1; try (intros H; discriminate H).
    destruct (reconcile_member api (Args.with_check_mode false a) (pool_of a) (address_of a)
                port s4) as [[[x2| |] y2] z2] eqn:E2; try (intros _ H; discriminate H).
    intros H1 H2. inversion H1; inversion H2; subst.
    eapply reconcile_member_agree; eauto.
Qed.

End Check_mode.

(** ** The reference device is durable *)

(** the lookup a hypothesis [H] branches on is the one [Hv] gives *)
Ltac use_lookup Hv H :=
  match type of H with
  | context [match ?l with Some _ => _ | None => _ end] =>
      let E := fresh in
      assert (E : l = _) by exact Hv; rewrite E in H; clear E
  end.

Lemma device_on_member_keeps {A} pool_names members_ d (k : Device.key -> Device.settings -> reply A * Device.t) :
  (forall key cfg, (k key cfg).2 = d) ->
  (Device.on_member pool_names members_ d k).2 = d.
Proof.
  intros Hk. unfold Device.on_member.
  destruct pool_names as [|pool [|]]; try reflexivity.
  destruct members_ as [|[|[address port] [|]] [|]]; try reflexivity.
  destruct (Device.members d !! (pool, address, port)); [apply Hk|reflexivity].
Qed.

Lemma device_reads_field {A} (field : Device.settings -> A) :
  reads_field device_view (Device.getter field) field.
Proof.
  intros pool address port s. split.
  - intros k. unfold Device.getter. rewrite device_on_member_keeps; auto.
  - intros v cfg x. unfold Device.getter, Device.on_member, device_view. cbn.
    intros Hr Hv. use_lookup Hv Hr. simpl in Hr. inversion Hr; subst.
    simpl. intros Hx. inversion Hx. reflexivity.
Qed.

Lemma device_writes_field {A} (update : A -> Device.settings -> Device.settings) :
  writes_field device_view (Device.setter (fun v c => Some (update v c))) update.
Proof.
  intros pool address port x s s' cfg. unfold Device.setter, Device.on_member, device_view.
  cbn. intros Hset Hv. use_lookup Hv Hset. inversion Hset; subst. simpl.
  apply lookup_insert_eq.
Qed.

Lemma device_durable : Durable Device.client device_view.
Proof.
  constructor.
  - intros s k. reflexivity.
  - intros pools s k. cbn. unfold Device.get_object_status.
    destruct pools as [|pool [|]]; try reflexivity.
    destruct (bool_decide _); reflexivity.
  - intros pool address port s. cbn. unfold device_view. split; [|split].
    + intros k. destruct (Device.members s !! _); reflexivity.
    + destruct (Device.members s !! _); [eauto|discriminate].
    + intros e. destruct (Device.members s !! _); [discriminate|reflexivity].
  - intros pool address port s s'. cbn. unfold Device.add_member_v2, device_view. cbn.
    destruct (negb _); [discriminate|].
    destruct (Device.members s !! _); [discriminate|].
    intros H. inversion H; subst. cbn. rewrite lookup_insert_eq. eauto.
  - intros pool address port s s'. cbn.
    unfold Device.remove_member_v2, Device.on_member, device_view. cbn.
    destruct (Device.members s !! _); [|discriminate].
    intros H. inversion H; subst. cbn. apply lookup_delete_eq.
  - intros nodes s k. cbn. unfold Device.delete_node_address, device_view.
    destruct nodes as [|address [|]]; try reflexivity.
    destruct (Device.referenced address s); [reflexivity|].
    destruct (bool_decide _); reflexivity.
  - apply device_reads_field.
  - apply (device_writes_field Device.with_connection_limit).
  - apply device_reads_field.
  - apply (device_writes_field Device.with_description).
  - apply device_reads_field.
  - apply (device_writes_field Device.with_rate_limit).
  - apply device_reads_field.
  - apply (device_writes_field Device.with_ratio).
  - apply device_reads_field.
  - apply (device_writes_field Device.with_priority).
  - apply device_reads_field.
  - intros pool address port token s s' cfg. cbn.
    unfold Device.setter, Device.on_member, device_view, Device.put_session_state. cbn.
    intros Hset Hv. use_lookup Hv Hset.
    destruct (token =? "STATE_DISABLED")%string eqn:Hd.
    + inversion Hset; subst. eexists. split; [apply lookup_insert_eq|].
      apply String.eqb_eq in Hd. split; [intros _; exact Hd|intros _; reflexivity].
    + destruct (token =? "STATE_ENABLED")%string eqn:He; [|discriminate].
      inversion Hset; subst. eexists. split; [apply lookup_insert_eq|].
      apply String.eqb_neq in Hd. split; [intros H; vm_compute in H; discriminate|tauto].
  - apply device_reads_field.
  - intros pool address port token s s' cfg. cbn.
    unfold Device.setter, Device.on_member, device_view, Device.put_monitor_state. cbn.
    intros Hset Hv. use_lookup Hv Hset.
    destruct (token =? "STATE_DISABLED")%string eqn:Hd.
    + inversion Hset; subst. eexists. split; [apply lookup_insert_eq|].
      apply String.eqb_eq in Hd. split; [intros _; exact Hd|intros _; reflexivity].
    + destruct (token =? "STATE_ENABLED")%string eqn:He; [|discriminate].
      inversion Hset; subst. eexists. split; [apply lookup_insert_eq|].
      apply String.eqb_neq in Hd. split; [intros H; vm_compute in H; discriminate|tauto].
Qed.

(** ** What a run leaves alone *)

Section Left_alone.

Context {S : Type} (api : Client S).
Variable fqdn_name : string -> option string -> name.

Local Abbreviation pool_of a := (fqdn_name (Args.partition a) (Some (Args.pool a))).
Local Abbreviation address_of a := (fqdn_name (Args.partition a) (Args.host a)).

Lemma main_trace_emits (P : event -> Prop) a s :
  (forall port, emits P (main_try api a (pool_of a) (address_of a) port)) ->
  Forall P (trace_of (main api fqdn_name a s)).
Proof.
  intros H. destruct (main_cases api fqdn_name a s) as [[port Hv]|(o & Ho & _)].
  - rewrite (main_enters_try api fqdn_name a port s Hv), trace_of_finish. apply H.
  - rewrite Ho. constructor.
Qed.

Ltac supplied_invoke :=
  apply emits_invoke; intros ? x Hx; cbn in Hx; inversion Hx; subst; reflexivity.

(** X1.  An attribute the task leaves unset is neither read nor written:
    every call of a run that gets or sets a member attribute is about an
    attribute the task supplies. *)
Theorem unset_attributes_are_left_alone (a : Args.t) (s : S) :
  Forall (fun e => forall x, attribute_of (ev_method e) = Some x -> is_supplied a x = true)
         (trace_of (main api fqdn_name a s)).
Proof.
  apply main_trace_emits. intros port.
  unfold main_try, reconcile_member. unfold_steps. unfold_wrappers. unfold is_supplied.
  repeat first
    [ apply emits_ret | apply emits_raise | apply emits_fail_json | apply emits_index00
    | apply emits_bind; [ | intros ? ]
    | apply emits_try; [ | intros ? ]
    | match goal with
      | |- emits _ (if ?b then _ else _) => destruct b
      | |- emits _ (match ?o with _ => _ end) => destruct o
      end
    | apply emits_invoke; intros ? x Hx; cbn in Hx; inversion Hx; subst; reflexivity
    | apply emits_invoke; intros ? x Hx; cbn in Hx; discriminate Hx ].
Qed.

(** X2.  A run touches one member only: besides the session opening,
    every call names the task's pool alone, the member calls name the
    task's address and port alone, and the node deletion names the
    task's address alone. *)
Theorem calls_aim_at_the_task_member (a : Args.t) (s : S) (port : Z) :
  Args.port a = Some port ->
  Forall (fun e => aims_at (pool_of a) (address_of a) port (ev_call e))
         (trace_of (main api fqdn_name a s)).
Proof.
  intros Hp.
  destruct (main_cases api fqdn_name a s) as [[port' Hv]|(o & Ho & _)].
  2:{ rewrite Ho. constructor. }
  assert (port' = port) as ->.
  { destruct Hv as (_ & _ & _ & Hp' & _). congruence. }
  rewrite (main_enters_try api fqdn_name a port s Hv), trace_of_finish.
  unfold main_try, reconcile_member. unfold_steps. unfold_wrappers.
  repeat first
    [ apply emits_ret | apply emits_raise | apply emits_fail_json | apply emits_index00
    | apply emits_bind; [ | intros ? ]
    | apply emits_try; [ | intros ? ]
    | match goal with
      | |- emits _ (if ?b then _ else _) => destruct b
      | |- emits _ (match ?o with _ => _ end) => destruct o
      end
    | apply emits_invoke; intros ?; cbn; auto ].
Qed.

(** X3.  With [preserve_node] on, the node address is never deleted. *)
Theorem preserved_node_is_never_deleted (a : Args.t) (s : S) :
  Args.preserve_node a = true ->
  Forall (fun e => calls m_delete_node_address e = false)
         (trace_of (main api fqdn_name a s)).
Proof.
  intros Hpn. apply main_trace_emits. intros port.
  unfold main_try, reconcile_member, remove_member. rewrite Hpn.
  solve_emits.
Qed.

End Left_alone.

(** ** Reading a status back *)

Section Splitting.

Lemma string_app_cons (c : ascii) (s t : string) :
  (String c s ++ t)%string = String c (s ++ t)%string.
Proof. reflexivity. Qed.

Lemma string_app_nil_r (s : string) : (s ++ "")%string = s.
Proof. induction s as [|c s IH]; [reflexivity|]. rewrite string_app_cons, IH. reflexivity. Qed.

Lemma string_app_assoc (s t u : string) : ((s ++ t) ++ u)%string = (s ++ (t ++ u))%string.
Proof.
  induction s as [|c s IH]; [reflexivity|]. rewrite !string_app_cons, IH. reflexivity.
Qed.

Lemma prefix_app (sep w : string) : String.prefix sep (sep ++ w) = true.
Proof.
  induction sep as [|c sep IH].
  - destruct w; reflexivity.
  - rewrite string_app_cons. cbn [String.prefix].
    destruct (ascii_dec c c); [exact IH|congruence].
Qed.

(** a string without the separator is one piece *)
Lemma split_from_without (sep s cur : string) :
  PyStr.contains sep s = false ->
  PyStr.split_from sep s 0 cur = [(cur ++ s)%string].
Proof.
  revert cur. induction s as [|c s IH]; intros cur H.
  - cbn [PyStr.split_from]. rewrite string_app_nil_r. reflexivity.
  - cbn [PyStr.contains] in H.
    destruct (String.prefix sep (String c s)) eqn:Hp; [discriminate|].
    cbn [PyStr.split_from]. rewrite Hp. rewrite (IH _ H), string_app_assoc. reflexivity.
Qed.

(** the characters still to skip are passed over *)
Lemma split_from_skip (sep u w cur : string) :
  PyStr.split_from sep (u ++ w) (String.length u) cur = PyStr.split_from sep w 0 cur.
Proof.
  induction u as [|c u IH]; [reflexivity|].
  rewrite string_app_cons. cbn [String.length PyStr.split_from]. exact IH.
Qed.

Lemma split_last_after (sep w : string) :
  sep <> ""%string ->
  PyStr.contains sep w = false ->
  PyStr.split_last sep (sep ++ w) = w.
Proof.
  intros Hne Hw. unfold PyStr.split_last, PyStr.split.
  destruct sep as [|c sep]; [congruence|].
  rewrite string_app_cons. cbn [PyStr.split_from].
  rewrite <- string_app_cons, prefix_app.
  replace (String.length (String c sep) - 1)%nat with (String.length sep) by (simpl; lia).
  rewrite split_from_skip, (split_from_without _ _ _ Hw). reflexivity.
Qed.

Lemma split_last_without (sep s : string) :
  PyStr.contains sep s = false -> PyStr.split_last sep s = s.
Proof.
  intros H. unfold PyStr.split_last, PyStr.split.
  rewrite (split_from_without _ _ _ H). reflexivity.
Qed.

End Splitting.

Section Status.

Context {S : Type} (api : Client S).

(** X5.  [get_member_session_status] and [get_member_monitor_status]
    make one call and look at the first status of the reply.  For a
    status of ASCII characters: one that begins with the marker
    "SESSION_STATUS_" ("MONITOR_STATUS_") and has no other is returned
    without the marker, its letters A-Z in lower case; one without the
    marker is returned whole, its letters A-Z in lower case.  A reply
    without a first status raises [IndexError]. *)
Theorem status_read_back_is_the_lowercase_suffix (pool address : name) (port : Z) (s : S) :
  (forall v s1,
     Pool_get_member_session_status api [pool] [[Member address port]] s = (Reply v, s1) ->
     let t := [Ev (call_member m_get_member_session_status pool address port PNone)
                  (Reply (PStrs v))] in
     (forall w, first_of v = Some ("SESSION_STATUS_" ++ w)%string ->
                PyStr.is_ascii w = true ->
                PyStr.contains "SESSION_STATUS_" w = false ->
                get_member_session_status api pool address port s = (Ok (PyStr.lower w), s1, t))
     /\ (forall raw, first_of v = Some raw ->
                PyStr.is_ascii raw = true ->
                PyStr.contains "SESSION_STATUS_" raw = false ->
                get_member_session_status api pool address port s
                = (Ok (PyStr.lower raw), s1, t))
     /\ (first_of v = None ->
         get_member_session_status api pool address port s = (Raise IndexError, s1, t)))
  /\ (forall v s1,
     Pool_get_member_monitor_status api [pool] [[Member address port]] s = (Reply v, s1) ->
     let t := [Ev (call_member m_get_member_monitor_status pool address port PNone)
                  (Reply (PStrs v))] in
     (forall w, first_of v = Some ("MONITOR_STATUS_" ++ w)%string ->
                PyStr.is_ascii w = true ->
                PyStr.contains "MONITOR_STATUS_" w = false ->
                get_member_monitor_status api pool address port s = (Ok (PyStr.lower w), s1, t))
     /\ (forall raw, first_of v = Some raw ->
                PyStr.is_ascii raw = true ->
                PyStr.contains "MONITOR_STATUS_" raw = false ->
                get_member_monitor_status api pool address port s
                = (Ok (PyStr.lower raw), s1, t))
     /\ (first_of v = None ->
         get_member_monitor_status api pool address port s = (Raise IndexError, s1, t))).
Proof.
  split; intros v s1 Hr t; subst t;
    unfold get_member_session_status, get_member_monitor_status, bind, invoke;
    cbv zeta; rewrite Hr.
  - split; [|split].
    + intros w Hv _ Hw. destruct v as [|[|x ?] ?]; try discriminate.
      cbn in Hv. inversion Hv; subst x. cbn [index00 ret].
      rewrite split_last_after; [reflexivity|discriminate|exact Hw].
    + intros raw Hv _ Hw. destruct v as [|[|x ?] ?]; try discriminate.
      cbn in Hv. inversion Hv; subst x. cbn [index00 ret].
      rewrite split_last_without; [reflexivity|exact Hw].
    + intros Hv. destruct v as [|[|x ?] ?]; try discriminate; reflexivity.
  - split; [|split].
    + intros w Hv _ Hw. destruct v as [|[|x ?] ?]; try discriminate.
      cbn in Hv. inversion Hv; subst x. cbn [index00 ret].
      rewrite split_last_after; [reflexivity|discriminate|exact Hw].
    + intros raw Hv _ Hw. destruct v as [|[|x ?] ?]; try discriminate.
      cbn in Hv. inversion Hv; subst x. cbn [index00 ret].
      rewrite split_last_without; [reflexivity|exact Hw].
    + intros Hv. destruct v as [|[|x ?] ?]; try discriminate; reflexivity.
Qed.

End Status.

(** ** A second run on a durable client *)

Section Hoare_rules.

Context {S : Type}.

Lemma hoare_ret {A} (P : S -> Prop) (a : A) (Q : A -> S -> Prop) :
  (forall s, P s -> Q a s) -> hoare P (ret a) Q.
Proof. intros H s a' s' t HP E. inversion E; subst. auto. Qed.

Lemma hoare_bind {A B} (P : S -> Prop) (R : A -> S -> Prop) (Q : B -> S -> Prop)
    (m : M S A) (k : A -> M S B) :
  hoare P m R -> (forall a, hoare (R a) (k a) Q) -> hoare P (bind m k) Q.
Proof.
  intros Hm Hk s b s' t HP E. unfold bind in E.
  destruct (m s) as [[[a| |] s1] t1] eqn:Em; try discriminate.
  destruct (k a s1) as [[r s2] t2] eqn:Ek. inversion E; subst.
  eapply Hk; [|exact Ek]. eapply Hm; eauto.
Qed.

Lemma hoare_weaken {A} (P P' : S -> Prop) (Q Q' : A -> S -> Prop) (m : M S A) :
  (forall s, P' s -> P s) -> (forall a s, Q a s -> Q' a s) -> hoare P m Q -> hoare P' m Q'.
Proof. intros HP HQ Hm s a s' t H E. eauto. Qed.

Lemma quiet_ret {A} (P : S -> Prop) (a : A) (Q : A -> Prop) : Q a -> quiet P (ret a) Q.
Proof.
  intros H s r s' t HP E. inversion E; subst.
  split; [constructor|]. split; [assumption|]. intros a' Ha. inversion Ha; subst. exact H.
Qed.

Lemma quiet_raise {A} (P : S -> Prop) e (Q : A -> Prop) : quiet P (raise e) Q.
Proof.
  intros s r s' t HP E. inversion E; subst.
  split; [constructor|]. split; [assumption|]. discriminate.
Qed.

Lemma quiet_bind {A B} (P : S -> Prop) (R : A -> Prop) (Q : B -> Prop)
    (m : M S A) (k : A -> M S B) :
  quiet P m R -> (forall a, R a -> quiet P (k a) Q) -> quiet P (bind m k) Q.
Proof.
  intros Hm Hk s r s' t HP E. unfold bind in E.
  destruct (m s) as [[r1 s1] t1] eqn:Em.
  destruct (Hm _ _ _ _ HP Em) as (Ht1 & HP1 & HR).
  destruct r1 as [a| |].
  - destruct (k a s1) as [[r2 s2] t2] eqn:Ek. inversion E; subst.
    destruct (Hk a (HR a eq_refl) _ _ _ _ HP1 Ek) as (Ht2 & HP2 & HQ).
    split; [apply Forall_app; auto|]. auto.
  - inversion E; subst. split; [assumption|]. split; [assumption|]. discriminate.
  - inversion E; subst. split; [assumption|]. split; [assumption|]. discriminate.
Qed.

Lemma quiet_weaken {A} (P : S -> Prop) (Q Q' : A -> Prop) (m : M S A) :
  (forall a, Q a -> Q' a) -> quiet P m Q -> quiet P m Q'.
Proof.
  intros HQ Hm s r s' t HP E. destruct (Hm _ _ _ _ HP E) as (H1 & H2 & H3). auto.
Qed.

End Hoare_rules.

Section Durable_calls.

Context {S : Type} (api : Client S).
Variable view : S -> Device.key -> option Device.settings.
Variables (pool address : name) (port : Z).

Local Abbreviation k := (pool, address, port).
Local Abbreviation T := ({[ "changed" := true ]} : gmap string bool).

Lemma hoare_read {A} c (inj : list (list A) -> payload)
    (op : list name -> list (list member) -> S -> reply (list (list A)) * S)
    (field : Device.settings -> A) cfg :
  reads_field view op field ->
  hoare (fun s => view s k = Some cfg)
        (bind (invoke c inj (op [pool] [[Member address port]])) (fun result => index00 result))
        (fun x s' => view s' k = Some cfg /\ x = field cfg).
Proof.
  intros Hrf s x s' t Hv E. unfold bind, invoke in E.
  destruct (Hrf pool address port s) as [Hkeep Hsound].
  destruct (op [pool] [[Member address port]] s) as [[v|e] s1] eqn:Eop; [|discriminate].
  simpl in *. destruct v as [|[|y ?] ?]; simpl in E; try discriminate.
  inversion E; subst. split; [rewrite Hkeep; exact Hv|].
  eapply Hsound; eauto; reflexivity.
Qed.

Lemma quiet_read {A} c (inj : list (list A) -> payload)
    (op : list name -> list (list member) -> S -> reply (list (list A)) * S)
    (field : Device.settings -> A) v0 :
  is_write (call_method c) = false ->
  reads_field view op field ->
  quiet (fun s => view s k = v0)
        (bind (invoke c inj (op [pool] [[Member address port]])) (fun result => index00 result))
        (fun x => forall cfg, v0 = Some cfg -> x = field cfg).
Proof.
  intros Hc Hrf s r s' t Hv E. unfold bind, invoke in E.
  destruct (Hrf pool address port s) as [Hkeep Hsound].
  destruct (op [pool] [[Member address port]] s) as [[v|e] s1] eqn:Eop.
  - simpl in *. destruct v as [|[|y ?] ?]; simpl in E; inversion E; subst;
      (split; [repeat constructor; exact Hc|]);
      (split; [rewrite Hkeep; reflexivity|]); try discriminate.
    intros a Ha cfg Hcfg. inversion Ha; subst. eapply Hsound; eauto; reflexivity.
  - inversion E; subst. simpl in *.
    split; [repeat constructor; exact Hc|]. split; [rewrite Hkeep; reflexivity|].
    discriminate.
Qed.

Lemma hoare_read_status c
    (op : list name -> list (list member) -> S -> reply (list (list string)) * S)
    (field : Device.settings -> string) (prefix : string) cfg :
  reads_field view op field ->
  hoare (fun s => view s k = Some cfg)
        (bind (invoke c PStrs (op [pool] [[Member address port]]))
              (fun result => bind (index00 result)
                                  (fun result => ret (PyStr.lower (PyStr.split_last prefix result)))))
        (fun x s' => view s' k = Some cfg /\ x = status_word prefix (field cfg)).
Proof.
  intros Hrf s x s' t Hv E. unfold bind, invoke in E.
  destruct (Hrf pool address port s) as [Hkeep Hsound].
  destruct (op [pool] [[Member address port]] s) as [[v|e] s1] eqn:Eop; [|discriminate].
  simpl in *. destruct v as [|[|y ?] ?]; simpl in E; try discriminate.
  inversion E; subst. split; [rewrite Hkeep; exact Hv|].
  unfold status_word. f_equal. f_equal. eapply Hsound; eauto; reflexivity.
Qed.

Lemma quiet_read_status c
    (op : list name -> list (list member) -> S -> reply (list (list string)) * S)
    (field : Device.settings -> string) (prefix : string) v0 :
  is_write (call_method c) = false ->
  reads_field view op field ->
  quiet (fun s => view s k = v0)
        (bind (invoke c PStrs (op [pool] [[Member address port]]))
              (fun result => bind (index00 result)
                                  (fun result => ret (PyStr.lower (PyStr.split_last prefix result)))))
        (fun x => forall cfg, v0 = Some cfg -> x = status_word prefix (field cfg)).
Proof.
  intros Hc Hrf s r s' t Hv E. unfold bind, invoke in E.
  destruct (Hrf pool address port s) as [Hkeep Hsound].
  destruct (op [pool] [[Member address port]] s) as [[v|e] s1] eqn:Eop.
  - simpl in *. destruct v as [|[|y ?] ?]; simpl in E; inversion E; subst;
      (split; [repeat constructor; exact Hc|]);
      (split; [rewrite Hkeep; reflexivity|]); try discriminate.
    intros a Ha cfg Hcfg. inversion Ha; subst.
    unfold status_word. f_equal. f_equal. eapply Hsound; eauto; reflexivity.
  - inversion E; subst. simpl in *.
    split; [repeat constructor; exact Hc|]. split; [rewrite Hkeep; reflexivity|].
    discriminate.
Qed.

Lemma hoare_write {A} c
    (op : list name -> list (list member) -> list (list A) -> S -> reply unit * S)
    (update : A -> Device.settings -> Device.settings) x cfg :
  writes_field view op update ->
  hoare (fun s => view s k = Some cfg)
        (invoke c no_payload (op [pool] [[Member address port]] [[x]]))
        (fun _ s' => view s' k = Some (update x cfg)).
Proof.
  intros Hwf s a s' t Hv E. unfold invoke in E.
  destruct (op [pool] [[Member address port]] [[x]] s) as [[[]|e] s1] eqn:Eop;
    [|discriminate].
  inversion E; subst. eapply Hwf; eauto.
Qed.

Lemma hoare_write_state c
    (op : list name -> list (list member) -> list (list string) -> S -> reply unit * S)
    (update : string -> Device.settings -> Device.settings) prefix sentinel token cfg :
  writes_state view op update prefix sentinel ->
  hoare (fun s => view s k = Some cfg)
        (invoke c no_payload (op [pool] [[Member address port]] [[token]]))
        (fun _ s' => exists raw,
             view s' k = Some (update raw cfg)
             /\ (status_word prefix raw = sentinel <-> token = "STATE_DISABLED")).
Proof.
  intros Hws s a s' t Hv E. unfold invoke in E.
  destruct (op [pool] [[Member address port]] [[token]] s) as [[[]|e] s1] eqn:Eop;
    [|discriminate].
  inversion E; subst. eapply Hws; eauto.
Qed.

End Durable_calls.

Section Durable_steps.

Context {S : Type}.
Variable view : S -> Device.key -> option Device.settings.
Variable k : Device.key.

Local Abbreviation T := ({[ "changed" := true ]} : gmap string bool).

(** a real run of a scalar step leaves the attribute as desired *)
Lemma hoare_modify_scalar {A} (eqb : A -> A -> bool) (desired : option A)
    (get : M S A) (set : A -> M S unit)
    (field : Device.settings -> A) (update : A -> Device.settings -> Device.settings)
    (P : Device.settings -> Prop) (r0 : gmap string bool) :
  (forall x y, eqb x y = true -> x = y) ->
  (forall cfg, hoare (fun s => view s k = Some cfg) get
                     (fun x s' => view s' k = Some cfg /\ x = field cfg)) ->
  (forall x cfg, hoare (fun s => view s k = Some cfg) (set x)
                       (fun _ s' => view s' k = Some (update x cfg))) ->
  (forall x cfg, field (update x cfg) = x) ->
  (forall x cfg, P cfg -> P (update x cfg)) ->
  hoare (member_has view k P)
        (match desired with
         | Some d =>
             bind get (fun current =>
               if negb (eqb d current)
               then bind (set d) (fun _ => ret T)
               else ret r0)
         | None => ret r0
         end)
        (fun _ s' => member_has view k
                       (fun cfg => P cfg /\ forall d, desired = Some d -> field cfg = d) s').
Proof.
  intros Heqb Hget Hset Hfield Hstable s r s' t (cfg & Hv & HP) E.
  destruct desired as [d|].
  2:{ inversion E; subst. exists cfg. split; [assumption|]. split; [assumption|discriminate]. }
  unfold bind in E.
  destruct (get s) as [[[current| |] s1] t1] eqn:Eg; try discriminate.
  destruct (Hget cfg _ _ _ _ Hv Eg) as [Hv1 ->].
  destruct (negb (eqb d (field cfg))) eqn:Hd.
  - destruct (set d s1) as [[[[]| |] s2] t2] eqn:Es; try discriminate.
    pose proof (Hset d cfg _ _ _ _ Hv1 Es) as Hv2. simpl in Hv2.
    inversion E; subst. exists (update d cfg). split; [assumption|].
    split; [auto|]. intros d' Hd'. inversion Hd'; subst. apply Hfield.
  - inversion E; subst. exists cfg. split; [assumption|]. split; [assumption|].
    intros d' Hd'. inversion Hd'; subst. apply negb_false_iff in Hd.
    symmetry. apply Heqb, Hd.
Qed.

(** on a creation the attribute is written when supplied *)
Lemma hoare_create_set {A} (desired : option A) (set : A -> M S unit)
    (field : Device.settings -> A) (update : A -> Device.settings -> Device.settings)
    (P : Device.settings -> Prop) :
  (forall x cfg, hoare (fun s => view s k = Some cfg) (set x)
                       (fun _ s' => view s' k = Some (update x cfg))) ->
  (forall x cfg, field (update x cfg) = x) ->
  (forall x cfg, P cfg -> P (update x cfg)) ->
  hoare (member_has view k P)
        (match desired with
         | Some d => set d
         | None => ret tt
         end)
        (fun _ s' => member_has view k
                       (fun cfg => P cfg /\ forall d, desired = Some d -> field cfg = d) s').
Proof.
  intros Hset Hfield Hstable s r s' t (cfg & Hv & HP) E.
  destruct desired as [d|].
  - pose proof (Hset d cfg _ _ _ _ Hv E) as Hv2. simpl in Hv2.
    exists (update d cfg). split; [assumption|]. split; [auto|].
    intros d' Hd'. inversion Hd'; subst. apply Hfield.
  - inversion E; subst. exists cfg. split; [assumption|]. split; [assumption|discriminate].
Qed.

(** a scalar step on a member that already has the value only reads *)
Lemma quiet_modify_scalar {A} (eqb : A -> A -> bool) (desired : option A)
    (get : M S A) (set : A -> M S unit) (check : bool)
    (field : Device.settings -> A) (cfg : Device.settings) (r0 : gmap string bool) :
  (forall x, eqb x x = true) ->
  quiet (fun s => view s k = Some cfg) get
        (fun x => forall cfg', Some cfg = Some cfg' -> x = field cfg') ->
  (forall d, desired = Some d -> field cfg = d) ->
  quiet (fun s => view s k = Some cfg)
        (match desired with
         | Some d =>
             bind get (fun current =>
               if negb (eqb d current)
               then bind (if negb check then set d else ret tt) (fun _ => ret T)
               else ret r0)
         | None => ret r0
         end)
        (fun r => r = r0).
Proof.
  intros Heqb Hget Hd. destruct desired as [d|]; [|apply quiet_ret; reflexivity].
  eapply quiet_bind; [exact Hget|]. intros current Hc. simpl in Hc.
  rewrite (Hc cfg eq_refl), (Hd d eq_refl), Heqb. simpl.
  apply quiet_ret. reflexivity.
Qed.

(** a real run of a state step leaves the status agreeing with the intent *)
Lemma hoare_modify_state (sentinel prefix : string) (desired : option choice)
    (get : M S string) (set : string -> M S unit)
    (field : Device.settings -> string)
    (update : string -> Device.settings -> Device.settings)
    (P : Device.settings -> Prop) (r0 : gmap string bool) :
  (forall cfg, hoare (fun s => view s k = Some cfg) get
                     (fun x s' => view s' k = Some cfg
                                  /\ x = status_word prefix (field cfg))) ->
  (forall i cfg, hoare (fun s => view s k = Some cfg) (set (choice_str i))
                       (fun _ s' => exists raw,
                            view s' k = Some (update raw cfg)
                            /\ (status_word prefix raw = sentinel <-> i = disabled))) ->
  (forall x cfg, field (update x cfg) = x) ->
  (forall x cfg, P cfg -> P (update x cfg)) ->
  hoare (member_has view k P)
        (match desired with
         | Some i =>
             bind get (fun status =>
               if (choice_str i =? "enabled")%string && (status =? sentinel)%string
               then bind (set (choice_str i)) (fun _ => ret T)
               else if (choice_str i =? "disabled")%string
                       && negb (status =? sentinel)%string
               then bind (set (choice_str i)) (fun _ => ret T)
               else ret r0)
         | None => ret r0
         end)
        (fun _ s' =>
           member_has view k
             (fun cfg => P cfg
                         /\ forall i, desired = Some i ->
                                      violated sentinel i (status_word prefix (field cfg))
                                      = false) s').
Proof.
  intros Hget Hset Hfield Hstable s r s' t (cfg & Hv & HP) E.
  destruct desired as [i|].
  2:{ inversion E; subst. exists cfg. split; [assumption|]. split; [assumption|discriminate]. }
  unfold bind in E.
  destruct (get s) as [[[status| |] s1] t1] eqn:Eg; try discriminate.
  destruct (Hget cfg _ _ _ _ Hv Eg) as [Hv1 ->].
  assert (forall s2 t2,
            set (choice_str i) s1 = (Ok tt, s2, t2) ->
            exists raw, view s2 k = Some (update raw cfg)
                        /\ (status_word prefix raw = sentinel <-> i = disabled)) as Hwrite.
  { intros s2 t2 Es. exact (Hset i cfg _ _ _ _ Hv1 Es). }
  destruct i; cbn [choice_str] in E;
    [ change ("enabled" =? "enabled")%string with true in E;
      change ("enabled" =? "disabled")%string with false in E
    | change ("disabled" =? "enabled")%string with false in E;
      change ("disabled" =? "disabled")%string with true in E ];
    cbn [andb] in E;
    destruct (status_word prefix (field cfg) =? sentinel)%string eqn:Hst;
    cbn [negb] in E.
  - destruct (set "enabled" s1) as [[[[]| |] s2] t2] eqn:Es; try discriminate.
    destruct (Hwrite _ _ Es) as (raw & Hv2 & Hraw).
    inversion E; subst. exists (update raw cfg). split; [assumption|]. split; [auto|].
    intros i Hi. inversion Hi; subst. cbn [violated]. rewrite Hfield.
    apply String.eqb_neq. intros Heq. apply Hraw in Heq. discriminate.
  - inversion E; subst. exists cfg. split; [assumption|]. split; [assumption|].
    intros i Hi. inversion Hi; subst. cbn [violated]. exact Hst.
  - inversion E; subst. exists cfg. split; [assumption|]. split; [assumption|].
    intros i Hi. inversion Hi; subst. cbn [violated]. rewrite Hst. reflexivity.
  - destruct (set "disabled" s1) as [[[[]| |] s2] t2] eqn:Es; try discriminate.
    destruct (Hwrite _ _ Es) as (raw & Hv2 & Hraw).
    inversion E; subst. exists (update raw cfg). split; [assumption|]. split; [auto|].
    intros i Hi. inversion Hi; subst. cbn [violated]. rewrite Hfield.
    apply negb_false_iff, String.eqb_eq, Hraw. reflexivity.
Qed.

(** on a creation the state is written when supplied *)
Lemma hoare_create_state (sentinel prefix : string) (desired : option choice)
    (set : string -> M S unit) (field : Device.settings -> string)
    (update : string -> Device.settings -> Device.settings)
    (P : Device.settings -> Prop) :
  (forall i cfg, hoare (fun s => view s k = Some cfg) (set (choice_str i))
                       (fun _ s' => exists raw,
                            view s' k = Some (update raw cfg)
                            /\ (status_word prefix raw = sentinel <-> i = disabled))) ->
  (forall x cfg, field (update x cfg) = x) ->
  (forall x cfg, P cfg -> P (update x cfg)) ->
  hoare (member_has view k P)
        (match desired with
         | Some i => set (choice_str i)
         | None => ret tt
         end)
        (fun _ s' =>
           member_has view k
             (fun cfg => P cfg
                         /\ forall i, desired = Some i ->
                                      violated sentinel i (status_word prefix (field cfg))
                                      = false) s').
Proof.
  intros Hset Hfield Hstable s r s' t (cfg & Hv & HP) E.
  destruct desired as [i|].
  - destruct (Hset i cfg _ _ _ _ Hv E) as (raw & Hv2 & Hraw).
    exists (update raw cfg). split; [assumption|]. split; [auto|].
    intros i' Hi. inversion Hi; subst i'. rewrite Hfield. destruct i; cbn [violated].
    + apply String.eqb_neq. intros Heq. apply Hraw in Heq. discriminate.
    + apply negb_false_iff, String.eqb_eq, Hraw. reflexivity.
  - inversion E; subst. exists cfg. split; [assumption|]. split; [assumption|discriminate].
Qed.

(** a state step on a member whose status agrees with the intent only reads *)
Lemma quiet_modify_state (sentinel prefix : string) (desired : option choice)
    (get : M S string) (set : string -> M S unit) (check : bool)
    (field : Device.settings -> string) (cfg : Device.settings) (r0 : gmap string bool) :
  quiet (fun s => view s k = Some cfg) get
        (fun x => forall cfg', Some cfg = Some cfg' -> x = status_word prefix (field cfg')) ->
  (forall i, desired = Some i ->
             violated sentinel i (status_word prefix (field cfg)) = false) ->
  quiet (fun s => view s k = Some cfg)
        (match desired with
         | Some i =>
             bind get (fun status =>
               if (choice_str i =? "enabled")%string && (status =? sentinel)%string
               then bind (if negb check then set (choice_str i) else ret tt)
                         (fun _ => ret T)
               else if (choice_str i =? "disabled")%string
                       && negb (status =? sentinel)%string
               then bind (if negb check then set (choice_str i) else ret tt)
                         (fun _ => ret T)
               else ret r0)
         | None => ret r0
         end)
        (fun r => r = r0).
Proof.
  intros Hget Hd. destruct desired as [i|]; [|apply quiet_ret; reflexivity].
  eapply quiet_bind; [exact Hget|]. intros status Hc. simpl in Hc.
  rewrite (Hc cfg eq_refl). specialize (Hd i eq_refl).
  destruct i; cbn [choice_str violated] in *.
  - change ("enabled" =? "enabled")%string with true.
    change ("enabled" =? "disabled")%string with false.
    rewrite Hd. cbn [andb]. apply quiet_ret. reflexivity.
  - change ("disabled" =? "enabled")%string with false.
    change ("disabled" =? "disabled")%string with true.
    rewrite Hd. cbn [andb]. apply quiet_ret. reflexivity.
Qed.

End Durable_steps.

Section Settling.

Context {S : Type} (api : Client S).
Variable view : S -> Device.key -> option Device.settings.
Hypothesis durable : Durable api view.
Variables (a : Args.t) (pool address : name) (port : Z).

Local Abbreviation k := (pool, address, port).
Local Abbreviation T := ({[ "changed" := true ]} : gmap string bool).

Lemma conforms_of_steps cfg :
  ((((((True
        /\ (forall d, Args.connection_limit a = Some d -> Device.connection_limit cfg = d))
       /\ (forall d, Args.description a = Some d -> Device.description cfg = d))
      /\ (forall d, Args.rate_limit a = Some d -> Device.rate_limit cfg = d))
     /\ (forall d, Args.ratio a = Some d -> Device.ratio cfg = d))
    /\ (forall i, Args.session_state a = Some i ->
          violated "forced_disabled" i
                   (status_word "SESSION_STATUS_" (Device.session_status cfg)) = false))
   /\ (forall i, Args.monitor_state a = Some i ->
         violated "forced_down" i
                  (status_word "MONITOR_STATUS_" (Device.monitor_status cfg)) = false))
  /\ (forall d, Args.priority_group a = Some d -> Device.priority cfg = d) ->
  conforms a cfg.
Proof. unfold conforms. tauto. Qed.

Lemma state_token_disabled i : state_token i = "STATE_DISABLED" <-> i = disabled.
Proof. destruct i; split; intros H; try reflexivity; discriminate. Qed.

Lemma hoare_set_session cfg i :
  hoare (fun s => view s k = Some cfg)
        (set_member_session_enabled_state api pool address port (choice_str i))
        (fun _ s' => exists raw,
             view s' k = Some (Device.with_session_status raw cfg)
             /\ (status_word "SESSION_STATUS_" raw = "forced_disabled" <-> i = disabled)).
Proof.
  unfold set_member_session_enabled_state. cbv zeta. rewrite state_token_eq.
  eapply hoare_weaken;
    [ | |eapply hoare_write_state, (durable_set_session_state _ _ durable)].
  - intros s H. exact H.
  - intros _ s' (raw & Hv & Hraw). exists raw. split; [exact Hv|].
    rewrite Hraw. apply state_token_disabled.
Qed.

Lemma hoare_set_monitor cfg i :
  hoare (fun s => view s k = Some cfg)
        (set_member_monitor_state api pool address port (choice_str i))
        (fun _ s' => exists raw,
             view s' k = Some (Device.with_monitor_status raw cfg)
             /\ (status_word "MONITOR_STATUS_" raw = "forced_down" <-> i = disabled)).
Proof.
  unfold set_member_monitor_state. cbv zeta. rewrite state_token_eq.
  eapply hoare_weaken;
    [ | |eapply hoare_write_state, (durable_set_monitor_state _ _ durable)].
  - intros s H. exact H.
  - intros _ s' (raw & Hv & Hraw). exists raw. split; [exact Hv|].
    rewrite Hraw. apply state_token_disabled.
Qed.

(** outside check mode the update path leaves every supplied attribute as desired *)
Lemma modify_attributes_settles r0 :
  Args.check_mode a = false ->
  hoare (member_has view k (fun _ => True))
        (modify_attributes api a pool address port r0)
        (fun _ s' => member_has view k (conforms a) s').
Proof.
  intros Hcm.
  unfold modify_attributes, modify_connection_limit, modify_description, modify_rate_limit,
    modify_ratio, modify_session_state, modify_monitor_state, modify_priority_group.
  rewrite Hcm. change (negb false) with true. cbv iota.
  eapply hoare_bind.
  { eapply (hoare_modify_scalar view k Z.eqb _ _ _ Device.connection_limit
              Device.with_connection_limit).
    - intros x y. apply Z.eqb_eq.
    - intros cfg. apply hoare_read, (durable_get_connection_limit _ _ durable).
    - intros x cfg. apply hoare_write, (durable_set_connection_limit _ _ durable).
    - reflexivity.
    - intros x cfg H. exact H. }
  intros r1. eapply hoare_bind.
  { eapply (hoare_modify_scalar view k String.eqb _ _ _ Device.description
              Device.with_description).
    - intros x y. apply String.eqb_eq.
    - intros cfg. apply hoare_read, (durable_get_description _ _ durable).
    - intros x cfg. apply hoare_write, (durable_set_description _ _ durable).
    - reflexivity.
    - intros x cfg H. exact H. }
  intros r2. eapply hoare_bind.
  { eapply (hoare_modify_scalar view k Z.eqb _ _ _ Device.rate_limit
              Device.with_rate_limit).
    - intros x y. apply Z.eqb_eq.
    - intros cfg. apply hoare_read, (durable_get_rate_limit _ _ durable).
    - intros x cfg. apply hoare_write, (durable_set_rate_limit _ _ durable).
    - reflexivity.
    - intros x cfg H. exact H. }
  intros r3. eapply hoare_bind.
  { eapply (hoare_modify_scalar view k Z.eqb _ _ _ Device.ratio Device.with_ratio).
    - intros x y. apply Z.eqb_eq.
    - intros cfg. apply hoare_read, (durable_get_ratio _ _ durable).
    - intros x cfg. apply hoare_write, (durable_set_ratio _ _ durable).
    - reflexivity.
    - intros x cfg H. exact H. }
  intros r4. eapply hoare_bind.
  { eapply (hoare_modify_state view k "forced_disabled" "SESSION_STATUS_" _ _ _
              Device.session_status Device.with_session_status).
    - intros cfg. apply hoare_read_status, (durable_get_session_status _ _ durable).
    - intros i cfg. apply hoare_set_session.
    - reflexivity.
    - intros x cfg H. exact H. }
  intros r5. eapply hoare_bind.
  { eapply (hoare_modify_state view k "forced_down" "MONITOR_STATUS_" _ _ _
              Device.monitor_status Device.with_monitor_status).
    - intros cfg. apply hoare_read_status, (durable_get_monitor_status _ _ durable).
    - intros i cfg. apply hoare_set_monitor.
    - reflexivity.
    - intros x cfg H. exact H. }
  intros r6. eapply hoare_weaken; [intros s H; exact H| |].
  2:{ eapply (hoare_modify_scalar view k Z.eqb _ _ _ Device.priority Device.with_priority).
      - intros x y. apply Z.eqb_eq.
      - intros cfg. apply hoare_read, (durable_get_priority _ _ durable).
      - intros x cfg. apply hoare_write, (durable_set_priority _ _ durable).
      - reflexivity.
      - intros x cfg H. exact H. }
  intros _ s' (cfg & Hv & H). exists cfg. split; [exact Hv|].
  apply conforms_of_steps. exact H.
Qed.

(** a creation leaves a member with every supplied attribute as desired *)
Lemma create_member_settles :
  hoare (fun _ => True)
        (create_member api a pool address port)
        (fun _ s' => member_has view k (conforms a) s').
Proof.
  unfold create_member.
  eapply hoare_bind with (R := fun _ s' => member_has view k (fun _ => True) s').
  { intros s [] s' t _ E. unfold add_pool_member, invoke in E. cbv zeta in E.
    destruct (Pool_add_member_v2 api [pool] [[Member address port]] s)
      as [[[]|e] s1] eqn:Ea; [|discriminate].
    inversion E; subst.
    destruct (durable_add _ _ durable _ _ _ _ _ Ea) as [cfg Hcfg].
    exists cfg. split; [exact Hcfg|exact I]. }
  intros ?. eapply hoare_bind.
  { eapply (hoare_create_set view k _ _ Device.connection_limit
              Device.with_connection_limit).
    - intros x cfg. apply hoare_write, (durable_set_connection_limit _ _ durable).
    - reflexivity.
    - intros x cfg H. exact H. }
  intros ?. eapply hoare_bind.
  { eapply (hoare_create_set view k _ _ Device.description Device.with_description).
    - intros x cfg. apply hoare_write, (durable_set_description _ _ durable).
    - reflexivity.
    - intros x cfg H. exact H. }
  intros ?. eapply hoare_bind.
  { eapply (hoare_create_set view k _ _ Device.rate_limit Device.with_rate_limit).
    - intros x cfg. apply hoare_write, (durable_set_rate_limit _ _ durable).
    - reflexivity.
    - intros x cfg H. exact H. }
  intros ?. eapply hoare_bind.
  { eapply (hoare_create_set view k _ _ Device.ratio Device.with_ratio).
    - intros x cfg. apply hoare_write, (durable_set_ratio _ _ durable).
    - reflexivity.
    - intros x cfg H. exact H. }
  intros ?. eapply hoare_bind.
  { eapply (hoare_create_state view k "forced_disabled" "SESSION_STATUS_" _ _
              Device.session_status Device.with_session_status).
    - intros i cfg. apply hoare_set_session.
    - reflexivity.
    - intros x cfg H. exact H. }
  intros ?. eapply hoare_bind.
  { eapply (hoare_create_state view k "forced_down" "MONITOR_STATUS_" _ _
              Device.monitor_status Device.with_monitor_status).
    - intros i cfg. apply hoare_set_monitor.
    - reflexivity.
    - intros x cfg H. exact H. }
  intros ?. eapply hoare_weaken; [intros s H; exact H| |].
  2:{ eapply (hoare_create_set view k _ _ Device.priority Device.with_priority).
      - intros x cfg. apply hoare_write, (durable_set_priority _ _ durable).
      - reflexivity.
      - intros x cfg H. exact H. }
  intros _ s' (cfg & Hv & H). exists cfg. split; [exact Hv|].
  apply conforms_of_steps. exact H.
Qed.

(** on a member that conforms the update path only reads *)
Lemma modify_attributes_quiet cfg r0 :
  conforms a cfg ->
  quiet (fun s => view s k = Some cfg)
        (modify_attributes api a pool address port r0)
        (fun r => r = r0).
Proof.
  intros (H1 & H2 & H3 & H4 & H5 & H6 & H7).
  unfold modify_attributes, modify_connection_limit, modify_description, modify_rate_limit,
    modify_ratio, modify_session_state, modify_monitor_state, modify_priority_group.
  eapply quiet_bind.
  { eapply (quiet_modify_scalar view k Z.eqb _ _ _ _ Device.connection_limit).
    - apply Z.eqb_refl.
    - apply quiet_read; [reflexivity|apply (durable_get_connection_limit _ _ durable)].
    - exact H1. }
  intros r' Hr'. simpl in Hr'. subst r'. eapply quiet_bind.
  { eapply (quiet_modify_scalar view k String.eqb _ _ _ _ Device.description).
    - apply String.eqb_refl.
    - apply quiet_read; [reflexivity|apply (durable_get_description _ _ durable)].
    - exact H2. }
  intros r' Hr'. simpl in Hr'. subst r'. eapply quiet_bind.
  { eapply (quiet_modify_scalar view k Z.eqb _ _ _ _ Device.rate_limit).
    - apply Z.eqb_refl.
    - apply quiet_read; [reflexivity|apply (durable_get_rate_limit _ _ durable)].
    - exact H3. }
  intros r' Hr'. simpl in Hr'. subst r'. eapply quiet_bind.
  { eapply (quiet_modify_scalar view k Z.eqb _ _ _ _ Device.ratio).
    - apply Z.eqb_refl.
    - apply quiet_read; [reflexivity|apply (durable_get_ratio _ _ durable)].
    - exact H4. }
  intros r' Hr'. simpl in Hr'. subst r'. eapply quiet_bind.
  { eapply (quiet_modify_state view k "forced_disabled" "SESSION_STATUS_" _ _ _ _
              Device.session_status).
    - apply quiet_read_status; [reflexivity|apply (durable_get_session_status _ _ durable)].
    - exact H5. }
  intros r' Hr'. simpl in Hr'. subst r'. eapply quiet_bind.
  { eapply (quiet_modify_state view k "forced_down" "MONITOR_STATUS_" _ _ _ _
              Device.monitor_status).
    - apply quiet_read_status; [reflexivity|apply (durable_get_monitor_status _ _ durable)].
    - exact H6. }
  intros r' Hr'. simpl in Hr'. subst r'.
  eapply (quiet_modify_scalar view k Z.eqb _ _ _ _ Device.priority).
  - apply Z.eqb_refl.
  - apply quiet_read; [reflexivity|apply (durable_get_priority _ _ durable)].
  - exact H7.
Qed.

Lemma hoare_any {A} (P : S -> Prop) (m : M S A) : hoare P m (fun _ _ => True).
Proof. intros s x s' t _ _. exact I. Qed.

Lemma quiet_fail_json {A} (P : S -> Prop) msg (Q : A -> Prop) : quiet P (fail_json msg) Q.
Proof.
  intros s r s' t HP E. inversion E; subst.
  split; [constructor|]. split; [assumption|]. discriminate.
Qed.

Lemma quiet_connect v0 :
  quiet (fun s => view s k = v0) (connect api) (fun _ => True).
Proof.
  intros s r s' t Hv E. unfold connect, invoke in E.
  pose proof (durable_connect _ _ durable s k) as Hk.
  destruct (bigip_api api s) as [[[]|e] s1]; inversion E; subst; simpl in Hk;
    (split; [repeat constructor|]); (split; [congruence|]); auto.
Qed.

Lemma quiet_pool_exists v0 :
  quiet (fun s => view s k = v0) (pool_exists api pool) (fun _ => True).
Proof.
  intros s r s' t Hv E. rewrite pool_exists_eq in E.
  pose proof (durable_pool_probe _ _ durable [pool] s k) as Hk.
  destruct (Pool_get_object_status api [pool] s) as [[[]|e] s1]; inversion E; subst;
    simpl in Hk; (split; [repeat constructor|]); (split; [congruence|]); auto.
Qed.

(** a probe tells a durable client's member from its absence *)
Lemma member_exists_sound :
  hoare (fun _ => True) (member_exists api pool address port)
        (fun found s' => if found then is_Some (view s' k) else view s' k = None).
Proof.
  intros s found s' t _ E. rewrite member_exists_eq in E.
  destruct (durable_member_probe _ _ durable pool address port s) as (Hk & Hr & Hf).
  destruct (Pool_get_member_object_status api [pool] [[Member address port]] s)
    as [[[]|e] s1].
  - inversion E; subst. simpl in *. rewrite Hk. auto.
  - simpl in *. destruct (not_found_flavored e) eqn:Hnf; inversion E; subst.
    rewrite Hk. eauto.
Qed.

Lemma member_exists_quiet v0 :
  quiet (fun s => view s k = v0) (member_exists api pool address port)
        (fun found => if found then is_Some v0 else v0 = None).
Proof.
  intros s r s' t Hv E. rewrite member_exists_eq in E.
  destruct (durable_member_probe _ _ durable pool address port s) as (Hk & Hr & Hf).
  destruct (Pool_get_member_object_status api [pool] [[Member address port]] s)
    as [[[]|e] s1]; simpl in *.
  - inversion E; subst. split; [repeat constructor|]. split; [rewrite Hk; reflexivity|].
    intros found Hfound. inversion Hfound; subst. auto.
  - destruct (not_found_flavored e) eqn:Hnf; inversion E; subst;
      (split; [repeat constructor|]); (split; [rewrite Hk; reflexivity|]);
      try discriminate.
    intros found Hfound. inversion Hfound; subst. eauto.
Qed.

(** a real run that ends with a result leaves the member as the task wants it *)
Lemma reconcile_member_settles :
  Args.check_mode a = false ->
  hoare (fun _ => True) (reconcile_member api a pool address port)
        (fun _ s' => settled a (view s' k)).
Proof.
  intros Hcm. unfold reconcile_member, settled. cbv zeta.
  destruct (Args.state a =? "absent")%string.
  - eapply hoare_bind; [apply member_exists_sound|]. intros [|].
    + unfold remove_member. rewrite Hcm. change (negb false) with true. cbv iota.
      eapply hoare_bind with (R := fun _ s' => view s' k = None).
      { intros s x s' t _ E. unfold remove_pool_member, invoke in E. cbv zeta in E.
        destruct (Pool_remove_member_v2 api [pool] [[Member address port]] s)
          as [[[]|e] s1] eqn:Er; [|discriminate].
        inversion E; subst. eapply (durable_remove _ _ durable); eauto. }
      intros ?. destruct (Args.preserve_node a).
      * apply hoare_ret. auto.
      * intros s x s' t Hv E. rewrite bind_eq, delete_node_address_eq in E.
        pose proof (durable_delete_node _ _ durable [address] s k) as Hk.
        destruct (NodeAddressV2_delete_node_address api [address] s) as [[[]|e] s1];
          simpl in Hk.
        -- inversion E; subst. congruence.
        -- destruct (still_referenced e); inversion E; subst. congruence.
    + apply hoare_ret. auto.
  - destruct (Args.state a =? "present")%string; [|apply hoare_any].
    eapply hoare_bind; [apply member_exists_sound|]. intros [|]; cbn [negb].
    + eapply hoare_weaken; [| |apply (modify_attributes_settles _ Hcm)].
      * intros s [cfg Hcfg]. exists cfg. auto.
      * intros _ s' (cfg & Hv & Hc). eauto.
    + rewrite Hcm. change (negb false) with true. cbv iota.
      eapply hoare_bind with (R := fun _ s' => member_has view k (conforms a) s').
      { intros s x s' t _ E. exact (create_member_settles s x s' t I E). }
      intros ?. apply hoare_ret. intros s (cfg & Hv & Hc). eauto.
Qed.

(** on a member that is as the task wants it, a run reads and reports no change *)
Lemma reconcile_member_quiet v0 :
  settled a v0 ->
  quiet (fun s => view s k = v0) (reconcile_member api a pool address port)
        (fun r => r = {[ "changed" := false ]}).
Proof.
  unfold reconcile_member, settled. cbv zeta.
  destruct (Args.state a =? "absent")%string.
  - intros ->. eapply quiet_bind; [apply member_exists_quiet|].
    intros [|] Hfound; simpl in Hfound.
    + destruct Hfound as [? Hx]. discriminate Hx.
    + apply quiet_ret. reflexivity.
  - destruct (Args.state a =? "present")%string; [|intros _; apply quiet_ret; reflexivity].
    intros (cfg & -> & Hc). eapply quiet_bind; [apply member_exists_quiet|].
    intros [|] Hfound; simpl in Hfound; [|discriminate]. cbn [negb].
    apply modify_attributes_quiet. exact Hc.
Qed.

Lemma main_try_settles :
  Args.check_mode a = false ->
  hoare (fun _ => True) (main_try api a pool address port)
        (fun _ s' => settled a (view s' k)).
Proof.
  intros Hcm. unfold main_try.
  eapply hoare_bind; [apply hoare_any|]. intros ?. simpl.
  eapply hoare_bind; [apply hoare_any|]. intros ?. simpl.
  eapply hoare_bind; [apply hoare_any|]. intros ?. simpl.
  eapply hoare_weaken; [| |apply (reconcile_member_settles Hcm)]; auto.
Qed.

Lemma main_try_quiet v0 :
  settled a v0 ->
  quiet (fun s => view s k = v0) (main_try api a pool address port)
        (fun r => r = {[ "changed" := false ]}).
Proof.
  intros Hs. unfold main_try.
  eapply quiet_bind; [apply quiet_connect|]. intros ? _.
  eapply quiet_bind; [apply quiet_pool_exists|]. intros found _.
  eapply quiet_bind with (R := fun _ => True).
  { destruct (negb found); [apply quiet_fail_json|apply quiet_ret; exact I]. }
  intros ? _. apply reconcile_member_quiet, Hs.
Qed.

End Settling.

(** ** Runs whose calls all go well *)

Section Finishing.

Context {S : Type} (api : Client S).

Lemma finishes_ret {A} (Q : A -> Prop) (a : A) : Q a -> finishes Q (ret (S:=S) a).
Proof. intros H s r s' t E _. inversion E; subst. eauto. Qed.

Lemma finishes_bind {A B} (R : A -> Prop) (Q : B -> Prop) (m : M S A) (k : A -> M S B) :
  finishes R m -> (forall a, R a -> finishes Q (k a)) -> finishes Q (bind m k).
Proof.
  intros Hm Hk s r s' t E Hall. unfold bind in E.
  destruct (m s) as [[r1 s1] t1] eqn:Em.
  destruct r1 as [a| |].
  - destruct (k a s1) as [[r2 s2] t2] eqn:Ek. inversion E; subst.
    apply Forall_app in Hall as [Hall1 Hall2].
    destruct (Hm _ _ _ _ Em Hall1) as (a' & Ha' & HR). inversion Ha'; subst a'.
    exact (Hk a HR _ _ _ _ Ek Hall2).
  - inversion E; subst. destruct (Hm _ _ _ _ Em Hall) as (a' & Ha' & _). discriminate.
  - inversion E; subst. destruct (Hm _ _ _ _ Em Hall) as (a' & Ha' & _). discriminate.
Qed.

Lemma finishes_weaken {A} (Q Q' : A -> Prop) (m : M S A) :
  (forall a, Q a -> Q' a) -> finishes Q m -> finishes Q' m.
Proof.
  intros H Hm s r s' t E Hall. destruct (Hm _ _ _ _ E Hall) as (a & Ha & HQ). eauto.
Qed.

(** a call that is not the member probe *)
Lemma finishes_invoke c (op : S -> reply unit * S) :
  call_method c <> m_get_member_object_status ->
  finishes (fun _ => True) (invoke c no_payload op).
Proof.
  intros Hc s r s' t E Hall. unfold invoke in E.
  destruct (op s) as [[[]|e] s1]; inversion E; subst; [eauto|].
  inversion Hall as [|? ? Hans _]; subst. destruct Hans as [Hm _]. contradiction.
Qed.

Lemma finishes_read {A} c (inj : list (list A) -> payload)
    (op : S -> reply (list (list A)) * S) :
  call_method c <> m_get_member_object_status ->
  (forall v, answered (Ev c (Reply (inj v))) -> is_Some (first_of v)) ->
  finishes (fun _ => True) (bind (invoke c inj op) (fun result => index00 result)).
Proof.
  intros Hc Hinj s r s' t E Hall. unfold bind, invoke in E.
  destruct (op s) as [[v|e] s1].
  - assert (is_Some (first_of v)) as [x Hx].
    { apply Hinj. destruct v as [|[|? ?] ?]; simpl in E; inversion E; subst;
        inversion Hall; assumption. }
    destruct v as [|[|y ?] ?]; try discriminate. simpl in E. inversion E; subst. eauto.
  - inversion E; subst. inversion Hall as [|? ? Hans _]; subst.
    destruct Hans as [Hm _]. contradiction.
Qed.

Lemma finishes_read_status c (op : S -> reply (list (list string)) * S) (f : string -> string) :
  call_method c <> m_get_member_object_status ->
  finishes (fun _ => True)
           (bind (invoke c PStrs op)
                 (fun result => bind (index00 result) (fun result => ret (f result)))).
Proof.
  intros Hc s r s' t E Hall. unfold bind, invoke in E.
  destruct (op s) as [[v|e] s1].
  - assert (is_Some (first_of v)) as [x Hx].
    { destruct v as [|[|? ?] ?]; simpl in E; inversion E; subst;
        inversion Hall; assumption. }
    destruct v as [|[|y ?] ?]; try discriminate. simpl in E. inversion E; subst. eauto.
  - inversion E; subst. inversion Hall as [|? ? Hans _]; subst.
    destruct Hans as [Hm _]. contradiction.
Qed.

Lemma finishes_pool_exists pool : finishes (fun found => found = true) (pool_exists api pool).
Proof.
  intros s r s' t E Hall. rewrite pool_exists_eq in E.
  destruct (Pool_get_object_status api [pool] s) as [[[]|e] s1]; inversion E; subst;
    [eauto|].
  inversion Hall as [|? ? Hans _]; subst. destruct Hans as [Hm _]. discriminate Hm.
Qed.

Lemma finishes_member_exists pool address port :
  finishes (fun _ => True) (member_exists api pool address port).
Proof.
  intros s r s' t E Hall. rewrite member_exists_eq in E.
  destruct (Pool_get_member_object_status api [pool] [[Member address port]] s)
    as [[[]|e] s1]; inversion E; subst; [eauto|].
  inversion Hall as [|? ? Hans _]; subst. destruct Hans as [_ Hnf].
  rewrite Hnf. eauto.
Qed.

Lemma finishes_delete_node_address address :
  finishes (fun _ => True) (delete_node_address api address).
Proof.
  intros s r s' t E Hall. rewrite delete_node_address_eq in E.
  destruct (NodeAddressV2_delete_node_address api [address] s) as [[[]|e] s1];
    inversion E; subst; [eauto|].
  inversion Hall as [|? ? Hans _]; subst. destruct Hans as [Hm _]. discriminate Hm.
Qed.

Ltac finishes_step :=
  first
    [ apply finishes_ret; exact I
    | apply finishes_invoke; discriminate
    | apply finishes_read; [discriminate|intros v Hv; exact Hv]
    | apply finishes_read_status; discriminate
    | apply finishes_member_exists
    | apply finishes_delete_node_address
    | eapply finishes_bind with (R := fun _ => True); [ | intros ? _ ]
    | match goal with
      | |- finishes _ (if ?b then _ else _) => destruct b
      | |- finishes _ (match ?o with _ => _ end) => destruct o
      end ].

Lemma main_try_finishes a pool address port :
  finishes (fun _ => True) (main_try api a pool address port).
Proof.
  unfold main_try.
  eapply finishes_bind with (R := fun _ => True);
    [unfold connect; apply finishes_invoke; discriminate|intros ? _].
  eapply finishes_bind; [apply finishes_pool_exists|intros found ->].
  cbn [negb].
  eapply finishes_bind with (R := fun _ => True); [apply finishes_ret; exact I|intros ? _].
  unfold reconcile_member. unfold_steps.
  unfold remove_pool_member, add_pool_member, get_connection_limit, set_connection_limit,
    get_description, set_description, get_rate_limit, set_rate_limit, get_ratio, set_ratio,
    get_priority_group, set_priority_group, set_member_session_enabled_state,
    get_member_session_status, set_member_monitor_state, get_member_monitor_status.
  cbv zeta.
  repeat finishes_step.
Qed.

End Finishing.

Section Idempotence.

Context {S : Type} (api : Client S).
Variable fqdn_name : string -> option string -> name.

Local Abbreviation pool_of a := (fqdn_name (Args.partition a) (Some (Args.pool a))).
Local Abbreviation address_of a := (fqdn_name (Args.partition a) (Args.host a)).

(** X6.  Once the arguments have passed the checks of [main], a run all
    of whose remote calls go well (each replies, the getters with a first
    value; the member probe may also answer "not found") ends with
    [exit_json]: a run fails only on its arguments, on a missing pool, or
    on a remote call that fails or returns nothing. *)
Theorem answered_run_ends_with_a_result (a : Args.t) (s : S) (port : Z) :
  enters_try a port ->
  Forall answered (trace_of (main api fqdn_name a s)) ->
  exists result s' t, main api fqdn_name a s = (exit_json result, s', t).
Proof.
  intros Hv Hall. rewrite (main_enters_try api fqdn_name a port s Hv) in *.
  rewrite trace_of_finish in Hall.
  destruct (main_try api a (pool_of a) (address_of a) port s) as [[r s'] t] eqn:E.
  destruct (main_try_finishes api a _ _ _ _ _ _ _ E Hall) as (result & -> & _).
  unfold finish. eauto.
Qed.

(** X7.  On a durable client, after a run outside check mode has ended
    with a result, a second run of the same task from the state the
    first one left makes no write call; if it ends with a result, the
    result is [changed=False]; and it does end so when its calls go
    well. *)
Theorem second_run_changes_nothing (view : S -> Device.key -> option Device.settings)
    (a : Args.t) (s s1 s2 : S) (r1 : gmap string bool) (o2 : outcome)
    (t1 t2 : list event) :
  Durable api view ->
  Args.check_mode a = false ->
  main api fqdn_name a s = (exit_json r1, s1, t1) ->
  main api fqdn_name a s1 = (o2, s2, t2) ->
  Forall (fun e => is_write (ev_method e) = false) t2
  /\ (forall r2, o2 = exit_json r2 -> r2 = {[ "changed" := false ]})
  /\ (Forall answered t2 -> o2 = exit_json {[ "changed" := false ]}).
Proof.
  intros Hd Hcm H1 H2.
  destruct (main_cases api fqdn_name a s) as [[port Hv]|(o & Ho & Hne)].
  2:{ rewrite H1 in Ho. inversion Ho; subst. exfalso. eapply Hne; reflexivity. }
  rewrite (main_enters_try api fqdn_name a port s Hv) in H1.
  rewrite (main_enters_try api fqdn_name a port s1 Hv) in H2.
  destruct (main_try api a (pool_of a) (address_of a) port s) as [[[x| |] y] z] eqn:E1;
    try discriminate.
  unfold finish in H1. inversion H1; subst.
  pose proof (main_try_settles api view Hd a _ _ _ Hcm _ _ _ _ I E1) as Hsettled.
  simpl in Hsettled.
  destruct (main_try api a (pool_of a) (address_of a) port s1) as [[x2 y2] z2] eqn:E2.
  destruct (main_try_quiet api view Hd a _ _ _ _ Hsettled _ _ _ _ eq_refl E2)
    as (Hread & _ & Hres).
  pose proof (main_try_finishes api a _ _ _ _ _ _ _ E2) as Hfin.
  destruct x2 as [x2| |]; unfold finish in H2; inversion H2; subst;
    (split; [exact Hread|]); split; try discriminate.
  - intros r2 Hr2. inversion Hr2; subst. apply Hres. reflexivity.
  - intros _. rewrite (Hres x2 eq_refl). reflexivity.
  - intros Hall. destruct (Hfin Hall) as (? & Hx & _). discriminate Hx.
  - intros Hall. destruct (Hfin Hall) as (? & Hx & _). discriminate Hx.
Qed.

End Idempotence.

(** ** What [changed] reports *)

Section Changed.

Context {S : Type} (api : Client S).
Variable fqdn_name : string -> option string -> name.

Local Abbreviation pool_of a := (fqdn_name (Args.partition a) (Some (Args.pool a))).
Local Abbreviation address_of a := (fqdn_name (Args.partition a) (Args.host a)).
Local Abbreviation T := ({[ "changed" := true ]} : gmap string bool).

Lemma wrote_app t1 t2 : wrote (t1 ++ t2) = wrote t1 || wrote t2.
Proof. apply existsb_app. Qed.

Lemma wrote_cons e t : wrote (e :: t) = is_write (ev_method e) || wrote t.
Proof. reflexivity. Qed.

Lemma reads_wrote t : Forall (fun e => is_write (ev_method e) = false) t -> wrote t = false.
Proof.
  induction 1 as [|e t He _ IH]; [reflexivity|]. simpl. rewrite He, IH. reflexivity.
Qed.

Lemma getters_read pool address port :
  emits (fun e => is_write (ev_method e) = false) (get_connection_limit api pool address port)
  /\ emits (fun e => is_write (ev_method e) = false) (get_description api pool address port)
  /\ emits (fun e => is_write (ev_method e) = false) (get_rate_limit api pool address port)
  /\ emits (fun e => is_write (ev_method e) = false) (get_ratio api pool address port)
  /\ emits (fun e => is_write (ev_method e) = false)
           (get_member_session_status api pool address port)
  /\ emits (fun e => is_write (ev_method e) = false)
           (get_member_monitor_status api pool address port)
  /\ emits (fun e => is_write (ev_method e) = false) (get_priority_group api pool address port).
Proof. repeat split; solve_emits. Qed.

Ltac tracks_read Hread :=
  match goal with
  | E : context [get_connection_limit ?api ?p ?a ?q ?s] |- _ =>
      pose proof (proj1 (getters_read p a q) s) as Hread;
      destruct (get_connection_limit api p a q s) as [[[current| |] s1] t1]
  | E : context [get_description ?api ?p ?a ?q ?s] |- _ =>
      pose proof (proj1 (proj2 (getters_read p a q)) s) as Hread;
      destruct (get_description api p a q s) as [[[current| |] s1] t1]
  | E : context [get_rate_limit ?api ?p ?a ?q ?s] |- _ =>
      pose proof (proj1 (proj2 (proj2 (getters_read p a q))) s) as Hread;
      destruct (get_rate_limit api p a q s) as [[[current| |] s1] t1]
  | E : context [get_ratio ?api ?p ?a ?q ?s] |- _ =>
      pose proof (proj1 (proj2 (proj2 (proj2 (getters_read p a q)))) s) as Hread;
      destruct (get_ratio api p a q s) as [[[current| |] s1] t1]
  | E : context [get_member_session_status ?api ?p ?a ?q ?s] |- _ =>
      pose proof (proj1 (proj2 (proj2 (proj2 (proj2 (getters_read p a q))))) s) as Hread;
      destruct (get_member_session_status api p a q s) as [[[current| |] s1] t1]
  | E : context [get_member_monitor_status ?api ?p ?a ?q ?s] |- _ =>
      pose proof (proj1 (proj2 (proj2 (proj2 (proj2 (proj2 (getters_read p a q)))))) s)
        as Hread;
      destruct (get_member_monitor_status api p a q s) as [[[current| |] s1] t1]
  | E : context [get_priority_group ?api ?p ?a ?q ?s] |- _ =>
      pose proof (proj2 (proj2 (proj2 (proj2 (proj2 (proj2 (getters_read p a q)))))) s)
        as Hread;
      destruct (get_priority_group api p a q s) as [[[current| |] s1] t1]
  end.

Ltac tracks_step Hcm :=
  intros s r0 r s' t E; rewrite Hcm in E; cbn [negb] in E;
  match type of E with
  | context [match ?o with Some _ => _ | None => _ end] =>
      destruct o; [|inversion E; reflexivity]
  end;
  rewrite bind_eq in E;
  let Hread := fresh "Hread" in
  tracks_read Hread; try discriminate;
  apply reads_wrote in Hread; unfold trace_of in Hread; simpl in Hread;
  repeat match type of E with
         | context [if ?b then _ else _] => destruct b
         end;
  rewrite ?bind_eq, ?invoke_unit_eq in E;
  repeat match type of E with
         | context [match ?x with (_, _) => _ end] => destruct x as [[[]|?] ?]
         end;
  unfold after, ret in E; simpl in E; inversion E; subst;
  rewrite ?wrote_app, ?Hread; reflexivity.

Lemma modify_connection_limit_tracks a pool address port :
  Args.check_mode a = false -> tracks (modify_connection_limit api a pool address port).
Proof. intros Hcm. unfold modify_connection_limit, set_connection_limit. tracks_step Hcm. Qed.

Lemma modify_description_tracks a pool address port :
  Args.check_mode a = false -> tracks (modify_description api a pool address port).
Proof. intros Hcm. unfold modify_description, set_description. tracks_step Hcm. Qed.

Lemma modify_rate_limit_tracks a pool address port :
  Args.check_mode a = false -> tracks (modify_rate_limit api a pool address port).
Proof. intros Hcm. unfold modify_rate_limit, set_rate_limit. tracks_step Hcm. Qed.

Lemma modify_ratio_tracks a pool address port :
  Args.check_mode a = false -> tracks (modify_ratio api a pool address port).
Proof. intros Hcm. unfold modify_ratio, set_ratio. tracks_step Hcm. Qed.

Lemma modify_session_state_tracks a pool address port :
  Args.check_mode a = false -> tracks (modify_session_state api a pool address port).
Proof.
  intros Hcm. unfold modify_session_state, set_member_session_enabled_state.
  tracks_step Hcm.
Qed.

Lemma modify_monitor_state_tracks a pool address port :
  Args.check_mode a = false -> tracks (modify_monitor_state api a pool address port).
Proof.
  intros Hcm. unfold modify_monitor_state, set_member_monitor_state.
  tracks_step Hcm.
Qed.

Lemma modify_priority_group_tracks a pool address port :
  Args.check_mode a = false -> tracks (modify_priority_group api a pool address port).
Proof. intros Hcm. unfold modify_priority_group, set_priority_group. tracks_step Hcm. Qed.

Lemma tracks_seq (f g : gmap string bool -> M S (gmap string bool)) :
  tracks f -> tracks g -> tracks (fun r => bind (f r) g).
Proof.
  intros Hf Hg s r0 r s' t E. rewrite bind_eq in E.
  destruct (f r0 s) as [[[r1| |] s1] t1] eqn:Ef; try discriminate.
  destruct (g r1 s1) as [[r2 s2] t2] eqn:Eg. unfold after in E. simpl in E.
  inversion E; subst. rewrite wrote_app, (Hg _ _ _ _ _ Eg), (Hf _ _ _ _ _ Ef).
  destruct (wrote t1), (wrote t2); reflexivity.
Qed.

Lemma modify_attributes_tracks a pool address port :
  Args.check_mode a = false -> tracks (modify_attributes api a pool address port).
Proof.
  intros Hcm. unfold modify_attributes.
  apply tracks_seq; [apply modify_connection_limit_tracks, Hcm|].
  apply tracks_seq; [apply modify_description_tracks, Hcm|].
  apply tracks_seq; [apply modify_rate_limit_tracks, Hcm|].
  apply tracks_seq; [apply modify_ratio_tracks, Hcm|].
  apply tracks_seq; [apply modify_session_state_tracks, Hcm|].
  apply tracks_seq; [apply modify_monitor_state_tracks, Hcm|].
  apply modify_priority_group_tracks, Hcm.
Qed.

Lemma wrote_first (t : list event) c cs :
  map ev_call t = c :: cs -> is_write (call_method c) = true -> wrote t = true.
Proof.
  destruct t as [|e t]; [discriminate|]. simpl. intros H Hc. inversion H; subst.
  unfold ev_method. rewrite Hc. reflexivity.
Qed.

Lemma reconcile_member_reports a pool address port s r s' t :
  Args.check_mode a = false ->
  reconcile_member api a pool address port s = (Ok r, s', t) ->
  r !! "changed" = Some (wrote t).
Proof.
  intros Hcm. unfold reconcile_member. cbv zeta.
  destruct (Args.state a =? "absent")%string.
  - rewrite bind_eq, member_exists_eq.
    destruct (Pool_get_member_object_status _ _ _ _) as [[[]|e] s3].
    + rewrite remove_member_eq, Hcm. cbn [negb].
      destruct (Pool_remove_member_v2 _ _ _ _) as [[[]|e4] s4]; [|discriminate].
      destruct (Args.preserve_node a).
      { intros H. inversion H; subst. reflexivity. }
      destruct (NodeAddressV2_delete_node_address _ _ _) as [[[]|e5] s5].
      * intros H. inversion H; subst. reflexivity.
      * destruct (still_referenced e5); intros H; inversion H; subst. reflexivity.
    + destruct (not_found_flavored e); intros H; inversion H; subst. reflexivity.
  - destruct (Args.state a =? "present")%string.
    2:{ intros H. inversion H; subst. reflexivity. }
    rewrite bind_eq, member_exists_eq.
    destruct (Pool_get_member_object_status _ _ _ _) as [[[]|e] s3].
    + cbn [negb].
      destruct (modify_attributes api a pool address port {[ "changed" := false ]} s3)
        as [[r3 s4] t4] eqn:Em.
      unfold after. simpl. intros H. inversion H; subst.
      rewrite (modify_attributes_tracks a pool address port Hcm _ _ _ _ _ Em).
      change (wrote (Ev (call_member_probe pool address port) (Reply PNone) :: t4))
        with (wrote t4).
      destruct (wrote t4); reflexivity.
    + destruct (not_found_flavored e); [|discriminate].
      cbn [negb]. rewrite Hcm. cbn [negb]. rewrite bind_eq.
      destruct (create_member api a pool address port s3) as [[[[]| |] s4] t4] eqn:Ec;
        try discriminate.
      unfold after, ret. simpl. intros H. inversion H; subst.
      destruct (create_member_scripted api a _ _ _ _ _ _ _ Ec) as [_ Hcalls].
      rewrite wrote_cons, wrote_app, (wrote_first t4 _ _ (Hcalls tt eq_refl) eq_refl).
      reflexivity.
Qed.

(** X8.  Outside check mode the result tells whether the run wrote:
    [changed] is [True] when the run made a write call (a member added or
    removed, a node deleted, an attribute set) and [False] when it made
    none. *)
Theorem changed_tells_whether_the_run_wrote (a : Args.t) (s s' : S)
    (result : gmap string bool) (t : list event) :
  Args.check_mode a = false ->
  main api fqdn_name a s = (exit_json result, s', t) ->
  result !! "changed" = Some (wrote t).
Proof.
  intros Hcm Hmain.
  destruct (main_cases api fqdn_name a s) as [[port Hv]|(o & Ho & Hne)].
  2:{ rewrite Hmain in Ho. inversion Ho; subst. exfalso. eapply Hne; reflexivity. }
  rewrite (main_enters_try api fqdn_name a port s Hv), main_try_eq in Hmain.
  destruct (bigip_api api s) as [[[]|e1] s1]; [|discriminate].
  destruct (Pool_get_object_status api [pool_of a] s1) as [[[]|e2] s2].
  2:{ destruct (not_found_flavored e2); discriminate. }
  destruct (reconcile_member api a (pool_of a) (address_of a) port s2)
    as [[[r| |] s3] t3] eqn:Er; try discriminate.
  unfold after, finish in Hmain. simpl in Hmain. inversion Hmain; subst.
  rewrite (reconcile_member_reports a _ _ _ _ _ _ _ Hcm Er). reflexivity.
Qed.

End Changed.

(** ** Failed calls *)

Section Failures.

Context {S : Type} (api : Client S).
Variable fqdn_name : string -> option string -> name.

Local Abbreviation pool_of a := (fqdn_name (Args.partition a) (Some (Args.pool a))).
Local Abbreviation address_of a := (fqdn_name (Args.partition a) (Args.host a)).

Lemma tidy_ret {A} (a : A) : tidy (ret (S:=S) a).
Proof. intros s r s' t E. inversion E; subst. constructor. Qed.

Lemma tidy_raise {A} e : tidy (raise (S:=S) (A:=A) e).
Proof. intros s r s' t E. inversion E; subst. right. constructor. Qed.

Lemma tidy_fail_json {A} msg : tidy (fail_json (S:=S) (A:=A) msg).
Proof. intros s r s' t E. inversion E; subst. constructor. Qed.

Lemma tidy_index00 {A} (v : list (list A)) : tidy (index00 (S:=S) v).
Proof. destruct v as [|[|x ?] ?]; simpl; auto using tidy_ret, tidy_raise. Qed.

Lemma tidy_invoke {A} c (inj : A -> payload) op : tidy (invoke (S:=S) c inj op).
Proof.
  intros s r s' t E. unfold invoke in E. destruct (op s) as [[x|e] s1]; inversion E; subst.
  - constructor; [left; eexists; reflexivity|constructor].
  - left. exists [], c. split; [reflexivity|constructor].
Qed.

Lemma tidy_bind {A B} (m : M S A) (k : A -> M S B) :
  tidy m -> (forall a, tidy (k a)) -> tidy (bind m k).
Proof.
  intros Hm Hk s r s' t E. unfold bind in E.
  destruct (m s) as [[r1 s1] t1] eqn:Em. specialize (Hm _ _ _ _ Em).
  destruct r1 as [a|e|msg].
  - destruct (k a s1) as [[r2 s2] t2] eqn:Ek. specialize (Hk a _ _ _ _ Ek).
    inversion E; subst. destruct r; try (apply Forall_app; auto).
    destruct Hk as [(t0 & c & -> & H0)|Hall].
    + left. exists (t1 ++ t0), c. split; [apply app_assoc|]. apply Forall_app. auto.
    + right. apply Forall_app. auto.
  - inversion E; subst. exact Hm.
  - inversion E; subst. exact Hm.
Qed.

Lemma tidy_pool_exists pool : tidy (pool_exists api pool).
Proof.
  intros s r s' t E. rewrite pool_exists_eq in E.
  destruct (Pool_get_object_status api [pool] s) as [[[]|e] s1]; inversion E; subst.
  - constructor; [left; eexists; reflexivity|constructor].
  - destruct (not_found_flavored e) eqn:Hnf.
    + constructor; [right; exact Hnf|constructor].
    + left. exists [], (call_pool_probe pool). split; [reflexivity|constructor].
Qed.

Lemma tidy_member_exists pool address port : tidy (member_exists api pool address port).
Proof.
  intros s r s' t E. rewrite member_exists_eq in E.
  destruct (Pool_get_member_object_status api [pool] [[Member address port]] s)
    as [[[]|e] s1]; inversion E; subst.
  - constructor; [left; eexists; reflexivity|constructor].
  - destruct (not_found_flavored e) eqn:Hnf.
    + constructor; [right; exact Hnf|constructor].
    + left. exists [], (call_member_probe pool address port).
      split; [reflexivity|constructor].
Qed.

Lemma tidy_delete_node_address address : tidy (delete_node_address api address).
Proof.
  intros s r s' t E. rewrite delete_node_address_eq in E.
  destruct (NodeAddressV2_delete_node_address api [address] s) as [[[]|e] s1];
    inversion E; subst.
  - constructor; [left; eexists; reflexivity|constructor].
  - destruct (still_referenced e) eqn:Hsr.
    + constructor; [right; exact Hsr|constructor].
    + left. exists [], (call_delete_node address). split; [reflexivity|constructor].
Qed.

Ltac tidy_step :=
  first
    [ apply tidy_ret | apply tidy_raise | apply tidy_fail_json | apply tidy_index00
    | apply tidy_invoke | apply tidy_pool_exists | apply tidy_member_exists
    | apply tidy_delete_node_address
    | apply tidy_bind; [ | intros ? ]
    | match goal with
      | |- tidy (if ?b then _ else _) => destruct b
      | |- tidy (match ?o with _ => _ end) => destruct o
      end ].

Lemma main_try_tidy a pool address port : tidy (main_try api a pool address port).
Proof.
  unfold main_try, reconcile_member. unfold_steps.
  unfold connect, remove_pool_member, add_pool_member, get_connection_limit,
    set_connection_limit, get_description, set_description, get_rate_limit, set_rate_limit,
    get_ratio, set_ratio, get_priority_group, set_priority_group,
    set_member_session_enabled_state, get_member_session_status, set_member_monitor_state,
    get_member_monitor_status.
  cbv zeta. repeat tidy_step.
Qed.

Lemma last_or_inside {A} (t0 t1 tg : list A) (x y : A) :
  t0 ++ x :: t1 = tg ++ [y] -> (t1 = [] /\ x = y) \/ In x tg.
Proof.
  destruct t1 as [|z t1] using rev_ind.
  - intros H. apply app_inj_tail in H as [_ ->]. left. split; reflexivity.
  - intros H. clear IHt1. rewrite app_comm_cons, app_assoc in H.
    apply app_inj_tail in H as [<- _]. right. apply in_or_app. right. left. reflexivity.
Qed.

(** X9.  A failed remote call ends the run, unless it is one of the
    failures the module takes for an answer (a probe answered "was not
    found", a node deletion answered "is referenced by a member of
    pool"): no call follows it, and the run fails with "received
    exception: " and the text of the failure. *)
Theorem unhandled_failure_ends_the_run (a : Args.t) (s s' : S) (o : outcome)
    (t t0 t1 : list event) (c : call) (x : exn) :
  main api fqdn_name a s = (o, s', t) ->
  t = t0 ++ Ev c (Fault x) :: t1 ->
  handled (Ev c (Fault x)) = true
  \/ (t1 = [] /\ o = failed ("received exception: " ++ str_exn x)%string).
Proof.
  intros Hmain Ht.
  destruct (main_cases api fqdn_name a s) as [[port Hv]|(o' & Ho & _)].
  2:{ rewrite Hmain in Ho. inversion Ho; subst. destruct t0; discriminate. }
  rewrite (main_enters_try api fqdn_name a port s Hv) in Hmain.
  destruct (main_try api a (pool_of a) (address_of a) port s) as [[r s3] t3] eqn:E.
  pose proof (main_try_tidy a _ _ _ _ _ _ _ E) as Htidy.
  assert (forall l, Forall fine l -> In (Ev c (Fault x)) l -> handled (Ev c (Fault x)) = true)
    as Hfine.
  { intros l Hall Hin. rewrite Forall_forall in Hall.
    apply list_elem_of_In in Hin. destruct (Hall _ Hin) as [[p Hp]|Hh]; [discriminate|].
    exact Hh. }
  assert (In (Ev c (Fault x)) t) as Hin.
  { subst t. apply in_or_app. right. left. reflexivity. }
  destruct r as [result|y|msg]; unfold finish in Hmain; injection Hmain as Ho Hs Htr;
    subst t3.
  - left. eapply Hfine; eauto.
  - destruct Htidy as [(tg & c' & Htg & Hall)|Hall]; [|left; eapply Hfine; eauto].
    rewrite Ht in Htg. destruct (last_or_inside _ _ _ _ _ Htg) as [[-> Heq]|Hin'].
    + right. inversion Heq; subst. split; reflexivity.
    + left. eapply Hfine; eauto.
  - left. eapply Hfine; eauto.
Qed.

End Failures.

(** ** The order of the calls *)

Ltac sublist_step :=
  first [ apply sublist_nil | apply sublist_skip | apply sublist_cons ].

Section Order.

Context {S : Type} (api : Client S).
Variable fqdn_name : string -> option string -> name.

Local Abbreviation pool_of a := (fqdn_name (Args.partition a) (Some (Args.pool a))).
Local Abbreviation address_of a := (fqdn_name (Args.partition a) (Args.host a)).

Lemma in_order_ret {A} L (a : A) : in_order L (ret (S:=S) a).
Proof. intros s. apply sublist_nil_l. Qed.

Lemma in_order_raise {A} L e : in_order L (raise (S:=S) (A:=A) e).
Proof. intros s. apply sublist_nil_l. Qed.

Lemma in_order_fail_json {A} L msg : in_order L (fail_json (S:=S) (A:=A) msg).
Proof. intros s. apply sublist_nil_l. Qed.

Lemma in_order_index00 {A} L (v : list (list A)) : in_order L (index00 (S:=S) v).
Proof. destruct v as [|[|x ?] ?]; simpl; auto using in_order_ret, in_order_raise. Qed.

Lemma in_order_invoke {A} L c (inj : A -> payload) op :
  in_order (call_method c :: L) (invoke (S:=S) c inj op).
Proof.
  intros s. unfold invoke. destruct (op s) as [[x|e] s1]; simpl;
    apply sublist_skip, sublist_nil_l.
Qed.

Lemma in_order_pool_exists L pool : in_order (m_get_object_status :: L) (pool_exists api pool).
Proof.
  intros s. rewrite pool_exists_eq.
  destruct (Pool_get_object_status api [pool] s) as [[[]|e] s1]; simpl;
    apply sublist_skip, sublist_nil_l.
Qed.

Lemma in_order_member_exists L pool address port :
  in_order (m_get_member_object_status :: L) (member_exists api pool address port).
Proof.
  intros s. rewrite member_exists_eq.
  destruct (Pool_get_member_object_status api [pool] [[Member address port]] s)
    as [[[]|e] s1]; simpl; apply sublist_skip, sublist_nil_l.
Qed.

Lemma in_order_delete_node_address L address :
  in_order (m_delete_node_address :: L) (delete_node_address api address).
Proof.
  intros s. rewrite delete_node_address_eq.
  destruct (NodeAddressV2_delete_node_address api [address] s) as [[[]|e] s1]; simpl;
    apply sublist_skip, sublist_nil_l.
Qed.

Lemma in_order_weaken {A} L L' (m : M S A) :
  sublist L L' -> in_order L m -> in_order L' m.
Proof. intros HL Hm s. etransitivity; [apply Hm|exact HL]. Qed.

Lemma in_order_skip {A} x L (m : M S A) : in_order L m -> in_order (x :: L) m.
Proof. apply in_order_weaken, sublist_cons. reflexivity. Qed.

(** what follows a step takes its methods from further down the list *)
Lemma in_order_app {A B} L1 L2 (m : M S A) (k : A -> M S B) :
  in_order L1 m -> (forall a, in_order L2 (k a)) -> in_order (L1 ++ L2) (bind m k).
Proof.
  intros Hm Hk s. unfold bind. specialize (Hm s).
  destruct (m s) as [[[a|e|msg] s1] t1]; simpl in *.
  - specialize (Hk a s1). destruct (k a s1) as [[r s2] t2]. simpl in *.
    rewrite map_app. apply sublist_app; assumption.
  - etransitivity; [exact Hm|]. apply sublist_inserts_r. reflexivity.
  - etransitivity; [exact Hm|]. apply sublist_inserts_r. reflexivity.
Qed.

Lemma in_order_bind_nil {A B} L (m : M S A) (k : A -> M S B) :
  in_order [] m -> (forall a, in_order L (k a)) -> in_order L (bind m k).
Proof. apply (in_order_app [] L). Qed.

Lemma in_order_bind_cons {A B} x L (m : M S A) (k : A -> M S B) :
  in_order [x] m -> (forall a, in_order L (k a)) -> in_order (x :: L) (bind m k).
Proof. apply (in_order_app [x] L). Qed.

Ltac order :=
  lazymatch goal with
  | |- in_order _ (if ?b then _ else _) => destruct b; order
  | |- in_order _ (match ?o with _ => _ end) => destruct o; order
  | |- in_order _ (bind _ _) =>
      first [ apply in_order_bind_nil; [solve [order] | intros ?; order]
            | apply in_order_bind_cons; [solve [order] | intros ?; order]
            | apply in_order_skip; order ]
  | |- _ =>
      first [ apply in_order_ret | apply in_order_raise | apply in_order_fail_json
            | apply in_order_index00 | apply in_order_invoke | apply in_order_pool_exists
            | apply in_order_member_exists | apply in_order_delete_node_address
            | apply in_order_skip; order ]
  end.

Ltac order_leaf f := unfold f; unfold_wrappers; order.

Lemma modify_connection_limit_in_order a pool address port r :
  in_order [m_get_member_connection_limit; m_set_member_connection_limit]
           (modify_connection_limit api a pool address port r).
Proof. order_leaf @modify_connection_limit. Qed.

Lemma modify_description_in_order a pool address port r :
  in_order [m_get_member_description; m_set_member_description]
           (modify_description api a pool address port r).
Proof. order_leaf @modify_description. Qed.

Lemma modify_rate_limit_in_order a pool address port r :
  in_order [m_get_member_rate_limit; m_set_member_rate_limit]
           (modify_rate_limit api a pool address port r).
Proof. order_leaf @modify_rate_limit. Qed.

Lemma modify_ratio_in_order a pool address port r :
  in_order [m_get_member_ratio; m_set_member_ratio]
           (modify_ratio api a pool address port r).
Proof. order_leaf @modify_ratio. Qed.

Lemma modify_session_state_in_order a pool address port r :
  in_order [m_get_member_session_status; m_set_member_session_enabled_state]
           (modify_session_state api a pool address port r).
Proof. order_leaf @modify_session_state. Qed.

Lemma modify_monitor_state_in_order a pool address port r :
  in_order [m_get_member_monitor_status; m_set_member_monitor_state]
           (modify_monitor_state api a pool address port r).
Proof. order_leaf @modify_monitor_state. Qed.

Lemma modify_priority_group_in_order a pool address port r :
  in_order [m_get_member_priority; m_set_member_priority]
           (modify_priority_group api a pool address port r).
Proof. order_leaf @modify_priority_group. Qed.

Lemma modify_attributes_in_order a pool address port r :
  in_order [ m_get_member_connection_limit; m_set_member_connection_limit;
             m_get_member_description; m_set_member_description;
             m_get_member_rate_limit; m_set_member_rate_limit;
             m_get_member_ratio; m_set_member_ratio;
             m_get_member_session_status; m_set_member_session_enabled_state;
             m_get_member_monitor_status; m_set_member_monitor_state;
             m_get_member_priority; m_set_member_priority ]
           (modify_attributes api a pool address port r).
Proof.
  unfold modify_attributes.
  apply (in_order_app [_; _] _); [apply modify_connection_limit_in_order|intros ?].
  apply (in_order_app [_; _] _); [apply modify_description_in_order|intros ?].
  apply (in_order_app [_; _] _); [apply modify_rate_limit_in_order|intros ?].
  apply (in_order_app [_; _] _); [apply modify_ratio_in_order|intros ?].
  apply (in_order_app [_; _] _); [apply modify_session_state_in_order|intros ?].
  apply (in_order_app [_; _] _); [apply modify_monitor_state_in_order|intros ?].
  apply modify_priority_group_in_order.
Qed.

Lemma create_member_in_order a pool address port :
  in_order [ m_add_member_v2; m_set_member_connection_limit; m_set_member_description;
             m_set_member_rate_limit; m_set_member_ratio;
             m_set_member_session_enabled_state; m_set_member_monitor_state;
             m_set_member_priority ]
           (create_member api a pool address port).
Proof. order_leaf @create_member. Qed.

Lemma remove_member_in_order a pool address port :
  in_order [m_remove_member_v2; m_delete_node_address]
           (remove_member api a pool address port).
Proof. order_leaf @remove_member. Qed.

Lemma reconcile_member_in_order a pool address port :
  in_order (m_get_member_object_status :: skipn 3 call_order)
           (reconcile_member api a pool address port).
Proof.
  unfold reconcile_member. cbv zeta.
  destruct (Args.state a =? "absent")%string; [|destruct (Args.state a =? "present")%string].
  - apply in_order_bind_cons; [apply in_order_member_exists|intros found].
    destruct found; [|apply in_order_ret].
    eapply in_order_weaken; [|apply remove_member_in_order]. repeat sublist_step.
  - apply in_order_bind_cons; [apply in_order_member_exists|intros found].
    destruct (negb found).
    + apply in_order_weaken with
        (L := [ m_add_member_v2; m_set_member_connection_limit; m_set_member_description;
                m_set_member_rate_limit; m_set_member_ratio;
                m_set_member_session_enabled_state; m_set_member_monitor_state;
                m_set_member_priority ] ++ []); [repeat sublist_step|].
      apply in_order_app; [|intros ?; apply in_order_ret].
      destruct (negb (Args.check_mode a)); [apply create_member_in_order|apply in_order_ret].
    + eapply in_order_weaken; [|apply modify_attributes_in_order]. repeat sublist_step.
  - apply in_order_ret.
Qed.

Lemma main_try_in_order a pool address port :
  in_order call_order (main_try api a pool address port).
Proof.
  unfold main_try.
  apply in_order_bind_cons; [apply in_order_invoke|intros ?].
  apply in_order_bind_cons; [apply in_order_pool_exists|intros pool_found].
  apply in_order_bind_nil.
  - destruct (negb pool_found); [apply in_order_fail_json|apply in_order_ret].
  - intros ?. apply reconcile_member_in_order.
Qed.

Lemma call_order_NoDup : NoDup call_order.
Proof. apply (bool_decide_unpack _). vm_compute. exact I. Qed.

(** a call, then what follows it *)
Lemma bind_call_first {A} L c (op : S -> reply unit * S) (k : unit -> M S A) :
  (forall u, in_order L (k u)) ->
  forall s, exists l',
    map ev_method (trace_of (bind (invoke c no_payload op) k s)) = call_method c :: l'
    /\ sublist l' L.
Proof.
  intros Hk s. rewrite bind_eq, invoke_unit_eq.
  destruct (op s) as [[[]|e] s1].
  - rewrite trace_of_after. exists (map ev_method (trace_of (k tt s1))).
    split; [reflexivity|apply Hk].
  - exists []. split; [reflexivity|apply sublist_nil_l].
Qed.

Lemma create_member_order a pool address port s :
  create_order (map ev_method (trace_of (create_member api a pool address port s))).
Proof.
  unfold create_member, add_pool_member, create_order. cbv zeta.
  apply bind_call_first. intros _. unfold attributes. simpl map. unfold_wrappers. order.
Qed.

Lemma remove_member_order a pool address port s :
  absent_order (map ev_method (trace_of (remove_member api a pool address port s))).
Proof.
  rewrite remove_member_eq. unfold absent_order.
  destruct (negb (Args.check_mode a)); [|eexists; reflexivity].
  destruct (Pool_remove_member_v2 _ _ _ _) as [[[]|e] s1]; [|eexists; reflexivity].
  rewrite trace_of_after. destruct (Args.preserve_node a); [eexists; reflexivity|].
  destruct (NodeAddressV2_delete_node_address _ _ _) as [[[]|e] s2];
    exists []; reflexivity.
Qed.

Lemma main_in_call_order a s :
  sublist (map ev_method (trace_of (main api fqdn_name a s))) call_order.
Proof.
  destruct (main_cases api fqdn_name a s) as [[port Hv]|(o & -> & _)];
    [|apply sublist_nil_l].
  rewrite (main_enters_try api fqdn_name a port s Hv), trace_of_finish.
  apply main_try_in_order.
Qed.

(** no method is called twice *)
Lemma main_calls_once a s : NoDup (map ev_method (trace_of (main api fqdn_name a s))).
Proof. eapply sublist_NoDup; [apply call_order_NoDup|apply main_in_call_order]. Qed.

Lemma same_method_same_event (t : list event) (e1 e2 : event) :
  NoDup (map ev_method t) -> In e1 t -> In e2 t -> ev_method e1 = ev_method e2 -> e1 = e2.
Proof.
  induction t as [|e t IH]; [intros _ []|].
  simpl. intros Hnd [<-|H1] [<-|H2] Hm; inversion Hnd as [|? ? Hnot Hnd']; subst.
  - reflexivity.
  - exfalso. apply Hnot. rewrite Hm. apply list_elem_of_In, in_map, H2.
  - exfalso. apply Hnot. rewrite <- Hm. apply list_elem_of_In, in_map, H1.
  - apply IH; assumption.
Qed.

End Order.

(** ** What a run leaves behind *)

Section Converges.

Context {S : Type} (api : Client S).
Variable view : S -> Device.key -> option Device.settings.
Hypothesis durable : Durable api view.
Variable fqdn_name : string -> option string -> name.

Local Abbreviation pool_of a := (fqdn_name (Args.partition a) (Some (Args.pool a))).
Local Abbreviation address_of a := (fqdn_name (Args.partition a) (Args.host a)).

Lemma still_ret {A} (a : A) : still view (ret (S:=S) a).
Proof. intros s r s' t E _ k. inversion E; subst. reflexivity. Qed.

Lemma still_raise {A} e : still view (raise (S:=S) (A:=A) e).
Proof. intros s r s' t E _ k. inversion E; subst. reflexivity. Qed.

Lemma still_fail_json {A} msg : still view (fail_json (S:=S) (A:=A) msg).
Proof. intros s r s' t E _ k. inversion E; subst. reflexivity. Qed.

Lemma still_index00 {A} (v : list (list A)) : still view (index00 (S:=S) v).
Proof. destruct v as [|[|x ?] ?]; simpl; auto using still_ret, still_raise. Qed.

Lemma still_bind {A B} (m : M S A) (k : A -> M S B) :
  still view m -> (forall a, still view (k a)) -> still view (bind m k).
Proof.
  intros Hm Hk s r s' t E Hw key. unfold bind in E.
  destruct (m s) as [[r1 s1] t1] eqn:Em. specialize (Hm _ _ _ _ Em).
  destruct r1 as [a|e|msg].
  - destruct (k a s1) as [[r2 s2] t2] eqn:Ek. inversion E; subst.
    rewrite wrote_app in Hw. apply orb_false_iff in Hw as [H1 H2].
    rewrite (Hk a _ _ _ _ Ek H2). auto.
  - inversion E; subst. auto.
  - inversion E; subst. auto.
Qed.

(** a write call shows in the trace, whatever it replies *)
Lemma still_write {A} c (inj : A -> payload) op :
  is_write (call_method c) = true -> still view (invoke c inj op).
Proof.
  intros Hc s r s' t E Hw. unfold invoke in E.
  destruct (op s) as [[x|e] s1]; inversion E; subst;
    rewrite wrote_cons in Hw; unfold ev_method in Hw; simpl in Hw; rewrite Hc in Hw;
    discriminate.
Qed.

Lemma still_read {A} c (inj : A -> payload) (op : S -> reply A * S) :
  (forall s, keeps_view view s (op s).2) -> still view (invoke c inj op).
Proof.
  intros Hop s r s' t E _ k. unfold invoke in E. specialize (Hop s k).
  destruct (op s) as [[x|e] s1]; inversion E; subst; exact Hop.
Qed.

Lemma still_pool_exists pool : still view (pool_exists api pool).
Proof.
  intros s r s' t E _ k. rewrite pool_exists_eq in E.
  pose proof (durable_pool_probe _ _ durable [pool] s k) as Hk.
  destruct (Pool_get_object_status api [pool] s) as [[[]|e] s1]; inversion E; subst;
    exact Hk.
Qed.

Lemma still_member_exists pool address port :
  still view (member_exists api pool address port).
Proof.
  intros s r s' t E _ k. rewrite member_exists_eq in E.
  destruct (durable_member_probe _ _ durable pool address port s) as (Hk & _).
  specialize (Hk k).
  destruct (Pool_get_member_object_status api [pool] [[Member address port]] s)
    as [[[]|e] s1]; inversion E; subst; exact Hk.
Qed.

Lemma still_delete_node_address address : still view (delete_node_address api address).
Proof.
  intros s r s' t E Hw. rewrite delete_node_address_eq in E.
  destruct (NodeAddressV2_delete_node_address api [address] s) as [[[]|e] s1];
    inversion E; subst; discriminate Hw.
Qed.

Ltac durable_read :=
  intros ?;
  first
    [ apply (durable_connect _ _ durable)
    | apply (proj1 (durable_get_connection_limit _ _ durable _ _ _ _))
    | apply (proj1 (durable_get_description _ _ durable _ _ _ _))
    | apply (proj1 (durable_get_rate_limit _ _ durable _ _ _ _))
    | apply (proj1 (durable_get_ratio _ _ durable _ _ _ _))
    | apply (proj1 (durable_get_priority _ _ durable _ _ _ _))
    | apply (proj1 (durable_get_session_status _ _ durable _ _ _ _))
    | apply (proj1 (durable_get_monitor_status _ _ durable _ _ _ _)) ].

Ltac still_step :=
  first
    [ apply still_ret | apply still_raise | apply still_fail_json | apply still_index00
    | apply still_write; reflexivity
    | apply still_read; durable_read
    | apply still_pool_exists | apply still_member_exists
    | apply still_delete_node_address
    | apply still_bind; [ | intros ? ]
    | match goal with
      | |- still _ (if ?b then _ else _) => destruct b
      | |- still _ (match ?o with _ => _ end) => destruct o
      end ].

Ltac still_leaf f := unfold f; unfold_wrappers; repeat still_step.

Lemma modify_connection_limit_still a pool address port r :
  still view (modify_connection_limit api a pool address port r).
Proof. still_leaf @modify_connection_limit. Qed.

Lemma modify_description_still a pool address port r :
  still view (modify_description api a pool address port r).
Proof. still_leaf @modify_description. Qed.

Lemma modify_rate_limit_still a pool address port r :
  still view (modify_rate_limit api a pool address port r).
Proof. still_leaf @modify_rate_limit. Qed.

Lemma modify_ratio_still a pool address port r :
  still view (modify_ratio api a pool address port r).
Proof. still_leaf @modify_ratio. Qed.

Lemma modify_session_state_still a pool address port r :
  still view (modify_session_state api a pool address port r).
Proof. still_leaf @modify_session_state. Qed.

Lemma modify_monitor_state_still a pool address port r :
  still view (modify_monitor_state api a pool address port r).
Proof. still_leaf @modify_monitor_state. Qed.

Lemma modify_priority_group_still a pool address port r :
  still view (modify_priority_group api a pool address port r).
Proof. still_leaf @modify_priority_group. Qed.

Lemma modify_attributes_still a pool address port r :
  still view (modify_attributes api a pool address port r).
Proof.
  unfold modify_attributes.
  repeat (apply still_bind; [|intros ?]);
    auto using modify_connection_limit_still, modify_description_still,
      modify_rate_limit_still, modify_ratio_still, modify_session_state_still,
      modify_monitor_state_still, modify_priority_group_still.
Qed.

Lemma create_member_still a pool address port :
  still view (create_member api a pool address port).
Proof. still_leaf @create_member. Qed.

Lemma remove_member_still a pool address port :
  still view (remove_member api a pool address port).
Proof. still_leaf @remove_member. Qed.

Lemma main_try_still a pool address port :
  still view (main_try api a pool address port).
Proof.
  unfold main_try, reconcile_member. cbv zeta.
  repeat first
    [ apply modify_attributes_still | apply create_member_still | apply remove_member_still
    | apply still_pool_exists | apply still_member_exists
    | unfold connect; apply still_read; durable_read
    | apply still_ret | apply still_fail_json
    | apply still_bind; [ | intros ? ]
    | match goal with
      | |- still _ (if ?b then _ else _) => destruct b
      end ].
Qed.

(** outside check mode the body of [try] reports whether it wrote *)
Lemma main_try_reports a pool address port s r s' t :
  Args.check_mode a = false ->
  main_try api a pool address port s = (Ok r, s', t) ->
  r !! "changed" = Some (wrote t).
Proof.
  intros Hcm E. rewrite main_try_eq in E.
  destruct (bigip_api api s) as [[[]|e1] s1]; [|discriminate].
  destruct (Pool_get_object_status api [pool] s1) as [[[]|e2] s2].
  2:{ destruct (not_found_flavored e2); discriminate. }
  destruct (reconcile_member api a pool address port s2) as [[[r3| |] s3] t3] eqn:Er;
    try discriminate.
  unfold after in E. simpl in E. inversion E; subst.
  rewrite (reconcile_member_reports api a _ _ _ _ _ _ _ Hcm Er). reflexivity.
Qed.

(** X11.  On a durable client a run outside check mode that ends with a
    result leaves the member as the task asks: with [state=absent] the
    pool has no such member; with [state=present] the member is there and
    every attribute the task supplies has the value asked for (a session
    or monitor asked [disabled] reads back as the forced sentinel, one
    asked [enabled] does not). *)
Theorem run_leaves_the_member_as_asked (a : Args.t) (s s' : S) (port : Z)
    (result : gmap string bool) (t : list event) :
  Args.check_mode a = false ->
  Args.port a = Some port ->
  main api fqdn_name a s = (exit_json result, s', t) ->
  settled a (view s' (pool_of a, address_of a, port)).
Proof.
  intros Hcm Hport Hmain.
  destruct (main_cases api fqdn_name a s) as [[port' Hv]|(o & Ho & Hne)].
  2:{ rewrite Hmain in Ho. inversion Ho; subst. exfalso. eapply Hne; reflexivity. }
  assert (port' = port) as ->.
  { destruct Hv as (_ & _ & _ & Hp & _). congruence. }
  rewrite (main_enters_try api fqdn_name a port s Hv) in Hmain.
  destruct (main_try api a (pool_of a) (address_of a) port s) as [[[x| |] y] z] eqn:E;
    try discriminate.
  unfold finish in Hmain. inversion Hmain; subst.
  exact (main_try_settles api view durable a _ _ _ Hcm _ _ _ _ I E).
Qed.

(** X12.  On a durable client the result of a run outside check mode is
    [changed=False] exactly when the member was as the task asks before
    the run. *)
Theorem unchanged_means_already_as_asked (a : Args.t) (s s' : S) (port : Z)
    (result : gmap string bool) (t : list event) :
  Args.check_mode a = false ->
  Args.port a = Some port ->
  main api fqdn_name a s = (exit_json result, s', t) ->
  result !! "changed" = Some false
  <-> settled a (view s (pool_of a, address_of a, port)).
Proof.
  intros Hcm Hport Hmain.
  destruct (main_cases api fqdn_name a s) as [[port' Hv]|(o & Ho & Hne)].
  2:{ rewrite Hmain in Ho. inversion Ho; subst. exfalso. eapply Hne; reflexivity. }
  assert (port' = port) as ->.
  { destruct Hv as (_ & _ & _ & Hp & _). congruence. }
  rewrite (main_enters_try api fqdn_name a port s Hv) in Hmain.
  destruct (main_try api a (pool_of a) (address_of a) port s) as [[[x| |] y] z] eqn:E;
    try discriminate.
  unfold finish in Hmain. inversion Hmain; subst. split.
  - intros Hch. rewrite (main_try_reports _ _ _ _ _ _ _ _ Hcm E) in Hch.
    injection Hch as Hw.
    rewrite <- (main_try_still _ _ _ _ _ _ _ _ E Hw).
    exact (main_try_settles api view durable a _ _ _ Hcm _ _ _ _ I E).
  - intros Hs.
    destruct (main_try_quiet api view durable a _ _ _ _ Hs _ _ _ _ eq_refl E)
      as (_ & _ & Hres).
    rewrite (Hres _ eq_refl). reflexivity.
Qed.

End Converges.

(** ** The update path *)

Section Update.

Context {S : Type} (api : Client S).
Variable fqdn_name : string -> option string -> name.

Local Abbreviation pool_of a := (fqdn_name (Args.partition a) (Some (Args.pool a))).
Local Abbreviation address_of a := (fqdn_name (Args.partition a) (Args.host a)).
Local Abbreviation T := ({[ "changed" := true ]} : gmap string bool).

(** a getter: one call, then [v[0][0]] *)
Lemma get_run {A} c (inj : list (list A) -> payload) (op : S -> reply (list (list A)) * S) s :
  bind (invoke c inj op) (fun result => index00 result) s =
    match op s with
    | (Reply v, s1) =>
        (match first_of v with Some x => Ok x | None => Raise IndexError end, s1,
         [Ev c (Reply (inj v))])
    | (Fault e, s1) => (Raise e, s1, [Ev c (Fault e)])
    end.
Proof.
  unfold bind, invoke. destruct (op s) as [[v|e] s1]; [|reflexivity].
  destruct v as [|[|x ?] ?]; reflexivity.
Qed.

Lemma get_status_run c (op : S -> reply (list (list string)) * S) prefix s :
  bind (invoke c PStrs op)
       (fun result => bind (index00 result)
                           (fun result => ret (PyStr.lower (PyStr.split_last prefix result)))) s =
    match op s with
    | (Reply v, s1) =>
        (match first_of v with
         | Some raw => Ok (status_word prefix raw)
         | None => Raise IndexError
         end, s1, [Ev c (Reply (PStrs v))])
    | (Fault e, s1) => (Raise e, s1, [Ev c (Fault e)])
    end.
Proof.
  unfold bind, invoke. destruct (op s) as [[v|e] s1]; [|reflexivity].
  destruct v as [|[|x ?] ?]; reflexivity.
Qed.

Ltac reconcile_simpl :=
  unfold readable, contradicts, read_int, read_str, cell;
  cbn [ev_reply ev_method ev_call call_method get_call set_call call_member getter_of
       setter_of fmap option_fmap option_map].

Ltac reconcile_leaf E :=
  unfold after, ret, bind in E; simpl in E; inversion E; subst;
  split; first [reflexivity | discriminate].

Ltac reconcile_write E set_op :=
  rewrite bind_eq, invoke_unit_eq in E;
  match type of E with
  | context [set_op ?p ?m ?v ?s] => destruct (set_op p m v s) as [[[]|?e] ?s]
  end;
  [ left; reconcile_leaf E
  | right; eexists; reconcile_leaf E ].

Ltac reconcile_scalar x inj get_op set_op Hd :=
  match goal with
  | E : _ = (_, _, _) |- _ =>
      cbv zeta in E; rewrite bind_eq, get_run in E;
      match type of E with
      | context [get_op ?p ?m ?s] => destruct (get_op p m s) as [[?v|?e] ?s]
      end;
      [ match type of E with
        | context [Ev ?c (Reply (inj ?v))] =>
            exists (Ev c (Reply (inj v)));
            split; [reflexivity|]; reconcile_simpl; rewrite Hd;
            destruct (first_of v) as [?current|]; cbn [fmap option_fmap option_map]
        end;
        [ match type of E with
          | context [negb (?b)] => destruct b
          end; cbn [negb] in *;
          [ reconcile_leaf E
          | destruct (Args.check_mode _); cbn [negb] in E;
            [ reconcile_leaf E | reconcile_write E set_op ] ]
        | reconcile_leaf E ]
      | match type of E with
        | context [Ev ?c (Fault ?e)] =>
            exists (Ev c (Fault e)); split; [reflexivity|]; reconcile_simpl; reconcile_leaf E
        end ]
  end.

Lemma modify_connection_limit_reconciles a pool address port :
  reconciles a pool address port a_connection_limit
             (modify_connection_limit api a pool address port).
Proof.
  intros r0 s r s' t E. unfold modify_connection_limit in E. unfold desired_payload.
  destruct (Args.connection_limit a) as [d|] eqn:Hd; cbn [fmap option_fmap option_map].
  2:{ inversion E; subst. split; reflexivity. }
  unfold get_connection_limit, set_connection_limit in E.
  reconcile_scalar a_connection_limit (@PInts) (Pool_get_member_connection_limit api)
                   (Pool_set_member_connection_limit api) Hd.
Qed.

Lemma modify_description_reconciles a pool address port :
  reconciles a pool address port a_description (modify_description api a pool address port).
Proof.
  intros r0 s r s' t E. unfold modify_description in E. unfold desired_payload.
  destruct (Args.description a) as [d|] eqn:Hd; cbn [fmap option_fmap option_map].
  2:{ inversion E; subst. split; reflexivity. }
  unfold get_description, set_description in E.
  reconcile_scalar a_description (@PStrs) (Pool_get_member_description api)
                   (Pool_set_member_description api) Hd.
Qed.

Lemma modify_rate_limit_reconciles a pool address port :
  reconciles a pool address port a_rate_limit (modify_rate_limit api a pool address port).
Proof.
  intros r0 s r s' t E. unfold modify_rate_limit in E. unfold desired_payload.
  destruct (Args.rate_limit a) as [d|] eqn:Hd; cbn [fmap option_fmap option_map].
  2:{ inversion E; subst. split; reflexivity. }
  unfold get_rate_limit, set_rate_limit in E.
  reconcile_scalar a_rate_limit (@PInts) (Pool_get_member_rate_limit api)
                   (Pool_set_member_rate_limit api) Hd.
Qed.

Lemma modify_ratio_reconciles a pool address port :
  reconciles a pool address port a_ratio (modify_ratio api a pool address port).
Proof.
  intros r0 s r s' t E. unfold modify_ratio in E. unfold desired_payload.
  destruct (Args.ratio a) as [d|] eqn:Hd; cbn [fmap option_fmap option_map].
  2:{ inversion E; subst. split; reflexivity. }
  unfold get_ratio, set_ratio in E.
  reconcile_scalar a_ratio (@PInts) (Pool_get_member_ratio api)
                   (Pool_set_member_ratio api) Hd.
Qed.

Lemma modify_priority_group_reconciles a pool address port :
  reconciles a pool address port a_priority_group
             (modify_priority_group api a pool address port).
Proof.
  intros r0 s r s' t E. unfold modify_priority_group in E. unfold desired_payload.
  destruct (Args.priority_group a) as [d|] eqn:Hd; cbn [fmap option_fmap option_map].
  2:{ inversion E; subst. split; reflexivity. }
  unfold get_priority_group, set_priority_group in E.
  reconcile_scalar a_priority_group (@PInts) (Pool_get_member_priority api)
                   (Pool_set_member_priority api) Hd.
Qed.

Ltac reconcile_state x get_op set_op Hd :=
  match goal with
  | E : _ = (_, _, _) |- _ =>
      cbv zeta in E; rewrite state_token_eq in E; rewrite bind_eq, get_status_run in E;
      match type of E with
      | context [get_op ?p ?m ?s] => destruct (get_op p m s) as [[?v|?e] ?s]
      end;
      [ match type of E with
        | context [Ev ?c (Reply (PStrs ?v))] =>
            exists (Ev c (Reply (PStrs v)));
            split; [reflexivity|]; reconcile_simpl; rewrite Hd;
            destruct (first_of v) as [?raw|]; cbn [fmap option_fmap option_map]
        end;
        [ match goal with
          | i : choice |- _ =>
              destruct i; cbn [choice_str violated state_token] in *;
              [ change ("enabled" =? "enabled")%string with true in E;
                change ("enabled" =? "disabled")%string with false in E
              | change ("disabled" =? "enabled")%string with false in E;
                change ("disabled" =? "disabled")%string with true in E ]
          end;
          match type of E with
          | context [(?w =? ?sentinel)%string] => destruct (w =? sentinel)%string
          end; cbn [negb andb] in *;
          first
            [ reconcile_leaf E
            | destruct (Args.check_mode _); cbn [negb] in E;
              [ reconcile_leaf E | reconcile_write E set_op ] ]
        | reconcile_leaf E ]
      | match type of E with
        | context [Ev ?c (Fault ?e)] =>
            exists (Ev c (Fault e)); split; [reflexivity|]; reconcile_simpl; reconcile_leaf E
        end ]
  end.

Lemma modify_session_state_reconciles a pool address port :
  reconciles a pool address port a_session_state
             (modify_session_state api a pool address port).
Proof.
  intros r0 s r s' t E. unfold modify_session_state in E. unfold desired_payload.
  destruct (Args.session_state a) as [i|] eqn:Hd; cbn [fmap option_fmap option_map].
  2:{ inversion E; subst. split; reflexivity. }
  unfold get_member_session_status, set_member_session_enabled_state in E.
  reconcile_state a_session_state (Pool_get_member_session_status api)
                  (Pool_set_member_session_enabled_state api) Hd.
Qed.

Lemma modify_monitor_state_reconciles a pool address port :
  reconciles a pool address port a_monitor_state
             (modify_monitor_state api a pool address port).
Proof.
  intros r0 s r s' t E. unfold modify_monitor_state in E. unfold desired_payload.
  destruct (Args.monitor_state a) as [i|] eqn:Hd; cbn [fmap option_fmap option_map].
  2:{ inversion E; subst. split; reflexivity. }
  unfold get_member_monitor_status, set_member_monitor_state in E.
  reconcile_state a_monitor_state (Pool_get_member_monitor_status api)
                  (Pool_set_member_monitor_state api) Hd.
Qed.

Lemma getter_reads x : is_write (getter_of x) = false.
Proof. destruct x; reflexivity. Qed.

Lemma setter_writes x : is_write (setter_of x) = true.
Proof. destruct x; reflexivity. Qed.

Lemma get_call_reads x pool address port g :
  ev_call g = get_call x pool address port -> is_write (ev_method g) = false.
Proof. intros H. unfold ev_method. rewrite H. apply getter_reads. Qed.

Lemma setter_contradicts_nothing a c r :
  is_write (call_method c) = true -> contradicts a (Ev c r) = false.
Proof. unfold contradicts, ev_method. simpl. destruct (call_method c); try reflexivity; discriminate. Qed.

Lemma contradicts_readable a x pool address port g :
  ev_call g = get_call x pool address port -> contradicts a g = true -> readable x g = true.
Proof.
  destruct g as [c r]. simpl. intros ->.
  destruct x; unfold contradicts, readable, read_int, read_str; simpl;
    repeat match goal with
           | |- context [match ?o with Some _ => _ | None => _ end] => destruct o
           | |- context [match ?o with Reply _ => _ | Fault _ => _ end] => destruct o
           | |- context [match ?o with PNone => _ | _ => _ end] => destruct o
           end; intros H; try discriminate H; reflexivity.
Qed.

(** one step *)
Lemma reconciles_audited a pool address port x
    (step : gmap string bool -> M S (gmap string bool)) :
  reconciles a pool address port x step -> audited a pool address port [x] step.
Proof.
  intros H r0 s r s' t E. specialize (H _ _ _ _ _ E).
  destruct (desired_payload a x) as [p|] eqn:Hp.
  2:{ destruct H as [-> ->]. split; [intros e []|]. split; [intros g []|].
      intros res Hres. inversion Hres; subst. split; [reflexivity|].
      intros x' p' [<-|[]] Hp'. congruence. }
  destruct H as (g & Hg & H).
  pose proof (get_call_reads _ _ _ _ _ Hg) as Hread.
  assert (forall sr, contradicts a (Ev (set_call x pool address port p) sr) = false) as Hset.
  { intros sr. apply setter_contradicts_nothing, setter_writes. }
  destruct (readable x g) eqn:Hr; [destruct (contradicts a g) eqn:Hc;
                                 [destruct (Args.check_mode a) eqn:Hcm|]|].
  - destruct H as [-> ->]. split; [|split].
    + intros e [<-|[]] He. congruence.
    + intros g' _ _ ?. discriminate.
    + intros res Hres. inversion Hres; subst. split.
      * simpl. rewrite Hc. reflexivity.
      * intros x' p' [<-|[]] Hp'. exists g. split; [left; reflexivity|].
        split; [exact Hg|]. split; [exact Hr|]. intros _ ?. discriminate.
  - assert (forall sr t, t = [g; Ev (set_call x pool address port p) sr] ->
            (forall e, In e t -> is_write (ev_method e) = true ->
               false = false
               /\ exists x' p' g',
                    In x' [x] /\ desired_payload a x' = Some p'
                    /\ ev_call e = set_call x' pool address port p'
                    /\ In g' t /\ ev_call g' = get_call x' pool address port
                    /\ contradicts a g' = true)
            /\ (forall g', In g' t -> contradicts a g' = true -> false = false ->
                exists x' p' sr',
                  In x' [x] /\ desired_payload a x' = Some p'
                  /\ ev_call g' = get_call x' pool address port
                  /\ In (Ev (set_call x' pool address port p') sr') t)) as Hsound.
    { intros sr t0 ->. split.
      - intros e [<-|[<-|[]]] He; [congruence|]. split; [reflexivity|].
        exists x, p, g. split; [left; reflexivity|]. split; [exact Hp|].
        split; [reflexivity|]. split; [left; reflexivity|]. split; [exact Hg|exact Hc].
      - intros g' [<-|[<-|[]]] Hc' _; [|rewrite Hset in Hc'; discriminate].
        exists x, p, sr. split; [left; reflexivity|]. split; [exact Hp|].
        split; [exact Hg|]. right. left. reflexivity. }
    destruct H as [[-> ->]|(e0 & -> & ->)].
    + destruct (Hsound (Reply PNone) _ eq_refl) as [Hs1 Hs2].
      split; [exact Hs1|]. split; [exact Hs2|].
      intros res Hres. inversion Hres; subst. split.
      * simpl. rewrite Hc. reflexivity.
      * intros x' p' [<-|[]] Hp'. exists g. split; [left; reflexivity|].
        split; [exact Hg|]. split; [exact Hr|]. intros _ _.
        right. left. congruence.
    + destruct (Hsound (Fault e0) _ eq_refl) as [Hs1 Hs2].
      split; [exact Hs1|]. split; [exact Hs2|]. discriminate.
  - destruct H as [-> ->]. split; [|split].
    + intros e [<-|[]] He. congruence.
    + intros g' [<-|[]] Hc' _. congruence.
    + intros res Hres. inversion Hres; subst. split.
      * simpl. rewrite Hc. reflexivity.
      * intros x' p' [<-|[]] Hp'. exists g. split; [left; reflexivity|].
        split; [exact Hg|]. split; [exact Hr|]. congruence.
  - destruct H as [-> Hno]. split; [|split].
    + intros e [<-|[]] He. congruence.
    + intros g' [<-|[]] Hc' _. rewrite (contradicts_readable a x pool address port g Hg Hc') in Hr.
      discriminate.
    + intros res Hres. destruct (Hno _ Hres).
Qed.

(** steps in a row *)
Lemma audited_seq a pool address port xs1 xs2
    (f1 f2 : gmap string bool -> M S (gmap string bool)) :
  audited a pool address port xs1 f1 ->
  audited a pool address port xs2 f2 ->
  audited a pool address port (xs1 ++ xs2) (fun r => bind (f1 r) f2).
Proof.
  intros H1 H2 r0 s r s' t E. rewrite bind_eq in E.
  destruct (f1 r0 s) as [[r1 s1] t1] eqn:E1.
  destruct (H1 _ _ _ _ _ E1) as (Hs1 & Hw1 & Hc1).
  assert (forall t2 e, In e t1 -> is_write (ev_method e) = true ->
            Args.check_mode a = false
            /\ exists x p g,
                 In x (xs1 ++ xs2) /\ desired_payload a x = Some p
                 /\ ev_call e = set_call x pool address port p
                 /\ In g (t1 ++ t2) /\ ev_call g = get_call x pool address port
                 /\ contradicts a g = true) as Hleft.
  { intros t2 e Hin He. destruct (Hs1 e Hin He) as (Hcm & x & p & g & Hx & Hp & He' & Hg & Hg' & Hc).
    split; [exact Hcm|]. exists x, p, g. rewrite !in_app_iff. auto 10. }
  assert (forall t2 g, In g t1 -> contradicts a g = true -> Args.check_mode a = false ->
            exists x p sr,
              In x (xs1 ++ xs2) /\ desired_payload a x = Some p
              /\ ev_call g = get_call x pool address port
              /\ In (Ev (set_call x pool address port p) sr) (t1 ++ t2)) as Hwleft.
  { intros t2 g Hin Hc Hcm. destruct (Hw1 g Hin Hc Hcm) as (x & p & sr & Hx & Hp & Hg & Hsr).
    exists x, p, sr. rewrite !in_app_iff. auto 10. }
  destruct r1 as [r1|e1|msg1].
  - destruct (f2 r1 s1) as [[r2 s2] t2] eqn:E2. unfold after in E. simpl in E.
    inversion E; subst. destruct (H2 _ _ _ _ _ E2) as (Hs2 & Hw2 & Hc2). split; [|split].
    + intros e Hin He. apply in_app_iff in Hin as [Hin|Hin]; [eapply Hleft; eauto|].
      destruct (Hs2 e Hin He) as (Hcm & x & p & g & Hx & Hp & He' & Hg & Hg' & Hc).
      split; [exact Hcm|]. exists x, p, g. rewrite !in_app_iff. auto 10.
    + intros g Hin Hc Hcm. apply in_app_iff in Hin as [Hin|Hin]; [eapply Hwleft; eauto|].
      destruct (Hw2 g Hin Hc Hcm) as (x & p & sr & Hx & Hp & Hg & Hsr).
      exists x, p, sr. rewrite !in_app_iff. auto 10.
    + intros res Hres. destruct (Hc1 _ eq_refl) as [Hr1 Hall1].
      destruct (Hc2 _ Hres) as [Hr2 Hall2]. split.
      * rewrite existsb_app, Hr2, Hr1.
        destruct (existsb (contradicts a) t1), (existsb (contradicts a) t2); reflexivity.
      * intros x p Hx Hp. apply in_app_iff in Hx as [Hx|Hx].
        -- destruct (Hall1 x p Hx Hp) as (g & Hg & Hg' & Hr & Hset).
           exists g. rewrite !in_app_iff. auto 10.
        -- destruct (Hall2 x p Hx Hp) as (g & Hg & Hg' & Hr & Hset).
           exists g. rewrite !in_app_iff. auto 10.
  - inversion E; subst. split; [|split; [|discriminate]].
    + intros e Hin He. destruct (Hleft [] e Hin He) as (Hcm & x & p & g & H).
      rewrite app_nil_r in H. eauto 10.
    + intros g Hin Hc Hcm. destruct (Hwleft [] g Hin Hc Hcm) as (x & p & sr & H).
      rewrite app_nil_r in H. eauto 10.
  - inversion E; subst. split; [|split; [|discriminate]].
    + intros e Hin He. destruct (Hleft [] e Hin He) as (Hcm & x & p & g & H).
      rewrite app_nil_r in H. eauto 10.
    + intros g Hin Hc Hcm. destruct (Hwleft [] g Hin Hc Hcm) as (x & p & sr & H).
      rewrite app_nil_r in H. eauto 10.
Qed.

Lemma modify_attributes_audited a pool address port :
  audited a pool address port attributes (modify_attributes api a pool address port).
Proof.
  unfold modify_attributes, attributes.
  apply (audited_seq a pool address port [_] _ _ _
           (reconciles_audited _ _ _ _ _ _ (modify_connection_limit_reconciles a pool address port))).
  apply (audited_seq a pool address port [_] _ _ _
           (reconciles_audited _ _ _ _ _ _ (modify_description_reconciles a pool address port))).
  apply (audited_seq a pool address port [_] _ _ _
           (reconciles_audited _ _ _ _ _ _ (modify_rate_limit_reconciles a pool address port))).
  apply (audited_seq a pool address port [_] _ _ _
           (reconciles_audited _ _ _ _ _ _ (modify_ratio_reconciles a pool address port))).
  apply (audited_seq a pool address port [_] _ _ _
           (reconciles_audited _ _ _ _ _ _ (modify_session_state_reconciles a pool address port))).
  apply (audited_seq a pool address port [_] _ _ _
           (reconciles_audited _ _ _ _ _ _ (modify_monitor_state_reconciles a pool address port))).
  apply reconciles_audited, modify_priority_group_reconciles.
Qed.

Lemma creation_no_probe a pool address port :
  emits (fun e => calls m_get_member_object_status e = false)
        (bind (if negb (Args.check_mode a)
               then create_member api a pool address port
               else ret tt)
              (fun _ => ret T)).
Proof. solve_emits. Qed.

(** with [state=present] and a member the probe has found, [main] runs
    the steps of the update path after the session opening and the two
    probes, and ends as they end *)
Lemma update_path_run a s o s' t c port :
  main api fqdn_name a s = (o, s', t) ->
  Args.state a = "present" ->
  Args.port a = Some port ->
  call_method c = m_get_member_object_status ->
  In (Ev c (Reply PNone)) t ->
  exists s3 r4 t4,
    modify_attributes api a (pool_of a) (address_of a) port {[ "changed" := false ]} s3
    = (r4, s', t4)
    /\ c = call_member_probe (pool_of a) (address_of a) port
    /\ t = [Ev call_connect (Reply PNone);
            Ev (call_pool_probe (pool_of a)) (Reply PNone);
            Ev c (Reply PNone)] ++ t4
    /\ finish (r4, s', t4) = (o, s', t4).
Proof.
  intros Hmain Hst Hport Hc Hin.
  destruct (main_cases api fqdn_name a s) as [[port' Hv]|(o' & Ho & _)].
  2:{ rewrite Hmain in Ho. inversion Ho; subst. destruct Hin. }
  assert (port' = port) as ->.
  { destruct Hv as (_ & _ & _ & Hp & _). congruence. }
  rewrite (main_enters_try api fqdn_name a port s Hv), main_try_eq in Hmain.
  destruct (bigip_api api s) as [[[]|e1] s1].
  2:{ inversion Hmain; subst. destruct Hin as [Hx|[]]. inversion Hx. }
  destruct (Pool_get_object_status api [pool_of a] s1) as [[[]|e2] s2].
  2:{ apply finish_trace in Hmain. subst t. simpl in Hin.
      destruct Hin as [Hx|[Hx|[]]]; inversion Hx; subst; discriminate. }
  unfold reconcile_member in Hmain. rewrite Hst in Hmain.
  change ("present" =? "absent")%string with false in Hmain.
  change ("present" =? "present")%string with true in Hmain.
  cbv iota in Hmain. rewrite bind_eq, member_exists_eq in Hmain.
  destruct (Pool_get_member_object_status _ _ _ _) as [[[]|e3] s3].
  2:{ exfalso. apply finish_trace in Hmain. subst t.
      destruct (not_found_flavored e3).
      - rewrite !trace_of_after in Hin. simpl in Hin.
        destruct Hin as [Hx|[Hx|[Hx|Hx]]]; try (inversion Hx; subst; discriminate).
        eapply calls_In; [exact Hc|exact Hx|]. apply creation_no_probe.
      - simpl in Hin.
        destruct Hin as [Hx|[Hx|[Hx|[]]]]; inversion Hx; subst; discriminate. }
  change (negb true) with false in Hmain. cbv iota in Hmain.
  pose proof (modify_attributes_no_probe api a (pool_of a) (address_of a) port
                {[ "changed" := false ]} s3) as Hnp.
  destruct (modify_attributes api a (pool_of a) (address_of a) port {[ "changed" := false ]} s3)
    as [[r4 s4] t4] eqn:Em.
  unfold trace_of in Hnp. simpl in Hnp.
  assert (c = call_member_probe (pool_of a) (address_of a) port
          /\ s4 = s'
          /\ t = [Ev call_connect (Reply PNone);
                  Ev (call_pool_probe (pool_of a)) (Reply PNone);
                  Ev (call_member_probe (pool_of a) (address_of a) port) (Reply PNone)] ++ t4
          /\ finish (r4, s4, t4) = (o, s4, t4)) as (-> & -> & -> & Hfin).
  { assert (t = [Ev call_connect (Reply PNone);
                 Ev (call_pool_probe (pool_of a)) (Reply PNone);
                 Ev (call_member_probe (pool_of a) (address_of a) port) (Reply PNone)] ++ t4
            /\ s4 = s' /\ finish (r4, s4, t4) = (o, s4, t4)) as (-> & -> & Hfin).
    { destruct r4; unfold after, finish in Hmain; simpl in Hmain; inversion Hmain; subst;
        split; try reflexivity; split; reflexivity. }
    simpl in Hin. destruct Hin as [Hx|[Hx|[Hx|Hx]]]; try (inversion Hx; subst; discriminate).
    - inversion Hx; subst. repeat split; assumption.
    - exfalso. eapply calls_In; [exact Hc|exact Hx|exact Hnp]. }
  exists s3, r4, t4. repeat split; assumption.
Qed.

Lemma setter_of_inj x y : setter_of x = setter_of y -> x = y.
Proof. destruct x, y; intros H; try reflexivity; discriminate H. Qed.

Lemma getter_of_inj x y : getter_of x = getter_of y -> x = y.
Proof. destruct x, y; intros H; try reflexivity; discriminate H. Qed.

Lemma session_contradicts a pool address port intent g raw :
  Args.session_state a = Some intent ->
  ev_call g = get_call a_session_state pool address port ->
  read_str g = Some raw ->
  contradicts a g = violated "forced_disabled" intent (status_word "SESSION_STATUS_" raw).
Proof.
  destruct g as [c r]. simpl. intros Hi -> Hr.
  unfold contradicts. simpl. rewrite Hi, Hr. reflexivity.
Qed.

Lemma monitor_contradicts a pool address port intent g raw :
  Args.monitor_state a = Some intent ->
  ev_call g = get_call a_monitor_state pool address port ->
  read_str g = Some raw ->
  contradicts a g = violated "forced_down" intent (status_word "MONITOR_STATUS_" raw).
Proof.
  destruct g as [c r]. simpl. intros Hi -> Hr.
  unfold contradicts. simpl. rewrite Hi, Hr. reflexivity.
Qed.

Lemma state_read x g :
  is_scalar x = false -> readable x g = true -> exists raw, read_str g = Some raw.
Proof.
  intros Hx Hr. destruct x; try discriminate Hx; unfold readable in Hr;
    destruct (read_str g) as [raw|]; try discriminate Hr; eauto.
Qed.

Lemma scalar_contradicts a pool address port x p g v :
  is_scalar x = true ->
  desired_payload a x = Some p ->
  ev_call g = get_call x pool address port ->
  ev_reply g = Reply v ->
  contradicts a g = differs p v.
Proof.
  destruct g as [c r]. simpl. intros Hx Hp -> ->.
  destruct x; try discriminate Hx; unfold desired_payload in Hp;
    unfold contradicts, differs, read_int, read_str, cell; simpl;
    match type of Hp with
    | _ <$> ?o = _ => destruct o as [d|]; [|discriminate Hp]
    end; simpl in Hp; inversion Hp; subst p;
    destruct v as [| |v|v]; try reflexivity;
    destruct (first_of v) as [cur|]; reflexivity.
Qed.

Lemma scalar_read x g :
  readable x g = true -> exists v, ev_reply g = Reply v /\ is_Some (cell v).
Proof.
  destruct g as [c r]. unfold readable, read_int, read_str, cell. simpl.
  destruct r as [[| |v|v]|]; destruct x; try discriminate;
    destruct (first_of v) as [cur|] eqn:Hf; try discriminate;
    intros _; eexists; (split; [reflexivity|]); simpl; rewrite Hf; simpl; eauto.
Qed.

Lemma prologue_methods pool c (e : event) :
  call_method c = m_get_member_object_status ->
  In e [Ev call_connect (Reply PNone); Ev (call_pool_probe pool) (Reply PNone);
        Ev c (Reply PNone)] ->
  ev_method e = m_bigip_api \/ ev_method e = m_get_object_status
  \/ ev_method e = m_get_member_object_status.
Proof. intros Hc [<-|[<-|[<-|[]]]]; auto. Qed.

(** what a run on the update path does about one attribute the task
    supplies *)
Lemma attribute_reconciled a s o s' t c port x p :
  main api fqdn_name a s = (o, s', t) ->
  Args.state a = "present" ->
  Args.port a = Some port ->
  call_method c = m_get_member_object_status ->
  In (Ev c (Reply PNone)) t ->
  desired_payload a x = Some p ->
  (forall e, In e t -> ev_method e = setter_of x ->
     ev_call e = set_call x (pool_of a) (address_of a) port p
     /\ Args.check_mode a = false
     /\ exists g, In g t /\ ev_call g = get_call x (pool_of a) (address_of a) port
                  /\ readable x g = true /\ contradicts a g = true)
  /\ (forall g, In g t -> ev_call g = get_call x (pool_of a) (address_of a) port ->
      contradicts a g = true -> Args.check_mode a = false ->
      exists sr, In (Ev (set_call x (pool_of a) (address_of a) port p) sr) t)
  /\ (forall result, o = exit_json result ->
      exists g, In g t /\ ev_call g = get_call x (pool_of a) (address_of a) port
        /\ readable x g = true
        /\ ((exists e, In e t /\ ev_method e = setter_of x)
            <-> contradicts a g = true /\ Args.check_mode a = false)
        /\ (contradicts a g = true -> Args.check_mode a = false ->
            In (Ev (set_call x (pool_of a) (address_of a) port p) (Reply PNone)) t)
        /\ (result !! "changed" = Some true
            <-> contradicts a g = true
                \/ exists g',
                     In g' t /\ ev_call g' <> get_call x (pool_of a) (address_of a) port
                     /\ contradicts a g' = true)).
Proof.
  intros Hmain Hst Hport Hc Hin Hp.
  pose proof (main_calls_once api fqdn_name a s) as Hnd. rewrite Hmain in Hnd.
  unfold trace_of in Hnd. simpl in Hnd.
  destruct (update_path_run a s o s' t c port Hmain Hst Hport Hc Hin)
    as (s3 & r4 & t4 & Em & Hc' & Ht & Hfin).
  destruct (modify_attributes_audited _ _ _ _ _ _ _ _ _ Em) as (Hsound & Hwrite & Hcompl).
  assert (In x attributes) as Hx.
  { unfold attributes. destruct x; simpl; auto 10. }
  assert (forall e, In e t -> ev_method e = setter_of x ->
     ev_call e = set_call x (pool_of a) (address_of a) port p
     /\ Args.check_mode a = false
     /\ exists g, In g t /\ ev_call g = get_call x (pool_of a) (address_of a) port
                  /\ readable x g = true /\ contradicts a g = true) as Hs.
  { intros e He Hm. rewrite Ht in He. apply in_app_iff in He as [He|He].
    { exfalso. destruct (prologue_methods _ _ _ Hc He) as [H|[H|H]];
        rewrite H in Hm; destruct x; discriminate Hm. }
    assert (is_write (ev_method e) = true) as Hw by (rewrite Hm; apply setter_writes).
    destruct (Hsound e He Hw) as (Hcm & x' & p' & g & _ & Hp' & He' & Hg & Hg' & Hcon).
    assert (x' = x) as ->.
    { apply setter_of_inj. rewrite <- Hm. unfold ev_method. rewrite He'. reflexivity. }
    assert (p' = p) as -> by congruence.
    split; [exact He'|]. split; [exact Hcm|]. exists g.
    split; [rewrite Ht; apply in_app_iff; auto|]. split; [exact Hg'|].
    split; [eapply contradicts_readable; eauto|exact Hcon]. }
  split; [exact Hs|]. split.
  { intros g Hg Hg' Hcon Hcm. rewrite Ht in Hg. apply in_app_iff in Hg as [Hg|Hg].
    { exfalso. destruct (prologue_methods _ _ _ Hc Hg) as [H|[H|H]];
        unfold contradicts in Hcon; rewrite H in Hcon; discriminate Hcon. }
    destruct (Hwrite g Hg Hcon Hcm) as (x' & p' & sr & _ & Hp' & Hgx & Hsr).
    assert (x' = x) as ->.
    { apply getter_of_inj. rewrite Hg' in Hgx. inversion Hgx. reflexivity. }
    assert (p' = p) as -> by congruence.
    exists sr. rewrite Ht. apply in_app_iff. auto. }
  intros result ->.
  assert (r4 = Ok result) as ->.
  { destruct r4; unfold finish in Hfin; inversion Hfin; reflexivity. }
  destruct (Hcompl result eq_refl) as [Hres Hall].
  assert (result !! "changed" = Some (existsb (contradicts a) t)) as Hch.
  { assert (existsb (contradicts a) t = existsb (contradicts a) t4) as ->.
    { rewrite Ht, existsb_app. unfold contradicts at 1, ev_method. simpl. rewrite Hc.
      reflexivity. }
    rewrite Hres. destruct (existsb (contradicts a) t4); reflexivity. }
  destruct (Hall x p Hx Hp) as (g & Hg & Hg' & Hr & Hset).
  assert (In g t) as Hgt by (rewrite Ht; apply in_app_iff; auto).
  exists g. split; [exact Hgt|]. split; [exact Hg'|]. split; [exact Hr|].
  split; [|split].
  - split.
    + intros (e & He & Hm). destruct (Hs e He Hm) as (_ & Hcm & g' & Hg1 & Hg2 & _ & Hcon).
      assert (g' = g) as ->.
      { apply (same_method_same_event t); auto. unfold ev_method. congruence. }
      auto.
    + intros [Hcon Hcm]. eexists. split.
      * rewrite Ht. apply in_app_iff. right. apply (Hset Hcon Hcm).
      * reflexivity.
  - intros Hcon Hcm. rewrite Ht. apply in_app_iff. right. apply (Hset Hcon Hcm).
  - rewrite Hch. split.
    + intros Heq. injection Heq as Heq. apply existsb_exists in Heq as (g' & Hg1 & Hcon).
      destruct (decide (ev_method g' = ev_method g)) as [Hm|Hm].
      * left. rewrite <- (same_method_same_event t g' g Hnd Hg1 Hgt Hm). exact Hcon.
      * right. exists g'. split; [exact Hg1|]. split; [|exact Hcon].
        intros Heq. apply Hm. unfold ev_method. congruence.
    + intros [Hcon|(g' & Hg1 & _ & Hcon)]; f_equal; apply existsb_exists; eauto.
Qed.

(** C1 (amended).  With [state=present] and a member the probe has
    found, the session state is reconciled against the sentinel
    "forced_disabled" alone, as [sentinel_rule] says: intent "enabled"
    is violated when the status read back is the sentinel, intent
    "disabled" when it is anything else; the set-call is made exactly
    when the intent is violated and the run is not in check mode, and
    a violated intent makes the result [changed=True].  The same holds
    of the monitor state with the sentinel "forced_down". *)
Theorem state_written_only_against_forced_sentinel (a : Args.t) (s s' : S) (o : outcome)
    (t : list event) (c : call) (port : Z) :
  main api fqdn_name a s = (o, s', t) ->
  Args.state a = "present" ->
  Args.port a = Some port ->
  call_method c = m_get_member_object_status ->
  In (Ev c (Reply PNone)) t ->
  (forall intent, Args.session_state a = Some intent ->
     sentinel_rule a o t intent "forced_disabled" "SESSION_STATUS_"
       (call_member m_get_member_session_status (pool_of a) (address_of a) port PNone)
       (call_member m_set_member_session_enabled_state (pool_of a) (address_of a) port
                    (PStrs [[state_token intent]])))
  /\ (forall intent, Args.monitor_state a = Some intent ->
     sentinel_rule a o t intent "forced_down" "MONITOR_STATUS_"
       (call_member m_get_member_monitor_status (pool_of a) (address_of a) port PNone)
       (call_member m_set_member_monitor_state (pool_of a) (address_of a) port
                    (PStrs [[state_token intent]]))).
Proof.
  intros Hmain Hst Hport Hc Hin. split; intros intent Hi.
  - assert (desired_payload a a_session_state = Some (PStrs [[state_token intent]])) as Hp.
    { unfold desired_payload. rewrite Hi. reflexivity. }
    destruct (attribute_reconciled a s o s' t c port _ _ Hmain Hst Hport Hc Hin Hp)
      as (Hs & Hw & Hr).
    split; [|split].
    + intros e He Hm. destruct (Hs e He Hm) as (He' & Hcm & g & Hg & Hg' & Hrd & Hcon).
      destruct (state_read a_session_state g eq_refl Hrd) as [raw Hraw].
      rewrite (session_contradicts a _ _ _ intent g raw Hi Hg' Hraw) in Hcon.
      split; [exact He'|]. split; [exact Hcm|]. exists g, raw. auto.
    + intros g raw Hg Hg' Hraw Hv Hcm. apply (Hw g Hg Hg'); [|exact Hcm].
      rewrite (session_contradicts a _ _ _ intent g raw Hi Hg' Hraw). exact Hv.
    + intros result Ho. destruct (Hr result Ho) as (g & Hg & Hg' & Hrd & Hiff & Hset & Hch).
      destruct (state_read a_session_state g eq_refl Hrd) as [raw Hraw].
      rewrite (session_contradicts a _ _ _ intent g raw Hi Hg' Hraw) in Hiff, Hset, Hch.
      exists g, raw. auto 10.
  - assert (desired_payload a a_monitor_state = Some (PStrs [[state_token intent]])) as Hp.
    { unfold desired_payload. rewrite Hi. reflexivity. }
    destruct (attribute_reconciled a s o s' t c port _ _ Hmain Hst Hport Hc Hin Hp)
      as (Hs & Hw & Hr).
    split; [|split].
    + intros e He Hm. destruct (Hs e He Hm) as (He' & Hcm & g & Hg & Hg' & Hrd & Hcon).
      destruct (state_read a_monitor_state g eq_refl Hrd) as [raw Hraw].
      rewrite (monitor_contradicts a _ _ _ intent g raw Hi Hg' Hraw) in Hcon.
      split; [exact He'|]. split; [exact Hcm|]. exists g, raw. auto.
    + intros g raw Hg Hg' Hraw Hv Hcm. apply (Hw g Hg Hg'); [|exact Hcm].
      rewrite (monitor_contradicts a _ _ _ intent g raw Hi Hg' Hraw). exact Hv.
    + intros result Ho. destruct (Hr result Ho) as (g & Hg & Hg' & Hrd & Hiff & Hset & Hch).
      destruct (state_read a_monitor_state g eq_refl Hrd) as [raw Hraw].
      rewrite (monitor_contradicts a _ _ _ intent g raw Hi Hg' Hraw) in Hiff, Hset, Hch.
      exists g, raw. auto 10.
Qed.

(** X4.  With [state=present] and a member the probe has found, each
    scalar attribute the task supplies (connection limit, description,
    rate limit, ratio, priority group) is reconciled as [scalar_rule]
    says: the value is read back and compared with the one asked for;
    the set-call, carrying the value asked for, is made exactly when
    the two differ and the run is not in check mode, and a difference
    makes the result [changed=True]; a value that is already there is
    not written again. *)
Theorem scalar_written_only_when_different (a : Args.t) (s s' : S) (o : outcome)
    (t : list event) (c : call) (port : Z) (x : attribute) (p : payload) :
  main api fqdn_name a s = (o, s', t) ->
  Args.state a = "present" ->
  Args.port a = Some port ->
  call_method c = m_get_member_object_status ->
  In (Ev c (Reply PNone)) t ->
  is_scalar x = true ->
  desired_payload a x = Some p ->
  scalar_rule a o t p
    (call_member (getter_of x) (pool_of a) (address_of a) port PNone)
    (call_member (setter_of x) (pool_of a) (address_of a) port p).
Proof.
  intros Hmain Hst Hport Hc Hin Hx Hp.
  destruct (attribute_reconciled a s o s' t c port _ _ Hmain Hst Hport Hc Hin Hp)
    as (Hs & Hw & Hr).
  split; [|split].
  - intros e He Hm. destruct (Hs e He Hm) as (He' & Hcm & g & Hg & Hg' & Hrd & Hcon).
    destruct (scalar_read x g Hrd) as (v & Hv & _).
    rewrite (scalar_contradicts a _ _ _ x p g v Hx Hp Hg' Hv) in Hcon.
    split; [exact He'|]. split; [exact Hcm|]. exists g, v. auto.
  - intros g v Hg Hg' Hv Hd Hcm. apply (Hw g Hg Hg'); [|exact Hcm].
    rewrite (scalar_contradicts a _ _ _ x p g v Hx Hp Hg' Hv). exact Hd.
  - intros result Ho. destruct (Hr result Ho) as (g & Hg & Hg' & Hrd & Hiff & Hset & Hch).
    destruct (scalar_read x g Hrd) as (v & Hv & Hsome).
    rewrite (scalar_contradicts a _ _ _ x p g v Hx Hp Hg' Hv) in Hiff, Hset, Hch.
    exists g, v. auto 10.
Qed.

End Update.

(** ** The order of the calls of a run *)

Section Run_order.

Context {S : Type} (api : Client S).
Variable fqdn_name : string -> option string -> name.

Local Abbreviation pool_of a := (fqdn_name (Args.partition a) (Some (Args.pool a))).
Local Abbreviation address_of a := (fqdn_name (Args.partition a) (Args.host a)).

Lemma reconciles_blocked a pool address port x
    (step : gmap string bool -> M S (gmap string bool)) :
  reconciles a pool address port x step -> blocked [x] step.
Proof.
  intros H r0 s. destruct (step r0 s) as [[r s'] t] eqn:E.
  specialize (H _ _ _ _ _ E). unfold trace_of. simpl.
  assert (block x (map ev_method t)) as Hb.
  { destruct (desired_payload a x) as [p|].
    - destruct H as (g & Hg & H).
      assert (ev_method g = getter_of x) as Hm by (unfold ev_method; rewrite Hg; reflexivity).
      destruct (readable x g), (contradicts a g), (Args.check_mode a);
        try (destruct H as [-> _]; right; left; simpl; rewrite Hm; reflexivity).
      destruct H as [[-> _]|(e & -> & _)]; right; right; simpl; rewrite Hm; reflexivity.
    - destruct H as [-> _]. left. reflexivity. }
  exists [map ev_method t]. split; [constructor; [exact Hb|constructor]|].
  simpl. rewrite app_nil_r. reflexivity.
Qed.

Lemma no_blocks xs :
  Forall2 block xs (map (fun _ => []) xs)
  /\ concat (map (fun _ : attribute => @nil method) xs) = [].
Proof.
  induction xs as [|x xs [IH1 IH2]]; simpl; [split; [constructor|reflexivity]|].
  split; [constructor; [left; reflexivity|exact IH1]|exact IH2].
Qed.

Lemma blocked_seq xs1 xs2 (f1 f2 : gmap string bool -> M S (gmap string bool)) :
  blocked xs1 f1 -> blocked xs2 f2 -> blocked (xs1 ++ xs2) (fun r => bind (f1 r) f2).
Proof.
  intros H1 H2 r0 s. destruct (H1 r0 s) as (bs1 & Hb1 & Ht1). rewrite bind_eq.
  destruct (f1 r0 s) as [[[r1|e|msg] s1] t1]; unfold trace_of in Ht1; simpl in Ht1.
  - destruct (H2 r1 s1) as (bs2 & Hb2 & Ht2). rewrite trace_of_after.
    exists (bs1 ++ bs2). split; [apply Forall2_app; assumption|].
    rewrite map_app, concat_app, Ht1, Ht2. reflexivity.
  - destruct (no_blocks xs2) as [Hn1 Hn2].
    exists (bs1 ++ map (fun _ => []) xs2). split; [apply Forall2_app; assumption|].
    unfold trace_of. simpl. rewrite concat_app, Ht1, Hn2, app_nil_r. reflexivity.
  - destruct (no_blocks xs2) as [Hn1 Hn2].
    exists (bs1 ++ map (fun _ => []) xs2). split; [apply Forall2_app; assumption|].
    unfold trace_of. simpl. rewrite concat_app, Ht1, Hn2, app_nil_r. reflexivity.
Qed.

Lemma modify_attributes_blocked a pool address port :
  blocked attributes (modify_attributes api a pool address port).
Proof.
  unfold modify_attributes, attributes.
  apply (blocked_seq [_] _ _ _
           (reconciles_blocked _ _ _ _ _ _ (modify_connection_limit_reconciles api a pool address port))).
  apply (blocked_seq [_] _ _ _
           (reconciles_blocked _ _ _ _ _ _ (modify_description_reconciles api a pool address port))).
  apply (blocked_seq [_] _ _ _
           (reconciles_blocked _ _ _ _ _ _ (modify_rate_limit_reconciles api a pool address port))).
  apply (blocked_seq [_] _ _ _
           (reconciles_blocked _ _ _ _ _ _ (modify_ratio_reconciles api a pool address port))).
  apply (blocked_seq [_] _ _ _
           (reconciles_blocked _ _ _ _ _ _ (modify_session_state_reconciles api a pool address port))).
  apply (blocked_seq [_] _ _ _
           (reconciles_blocked _ _ _ _ _ _ (modify_monitor_state_reconciles api a pool address port))).
  eapply reconciles_blocked, modify_priority_group_reconciles.
Qed.

Lemma reconcile_member_order a pool address port s :
  let l := map ev_method (trace_of (reconcile_member api a pool address port s)) in
  l = []
  \/ l = [m_get_member_object_status]
  \/ exists rest,
       l = m_get_member_object_status :: rest
       /\ ((Args.state a = "absent" /\ absent_order rest)
           \/ (Args.state a = "present" /\ (create_order rest \/ update_order rest))).
Proof.
  unfold reconcile_member. cbv zeta.
  destruct (Args.state a =? "absent")%string eqn:Hst.
  - apply String.eqb_eq in Hst. rewrite bind_eq, member_exists_eq.
    destruct (Pool_get_member_object_status _ _ _ _) as [[[]|e] s1].
    + right. right. rewrite trace_of_after. eexists. split; [reflexivity|].
      left. split; [exact Hst|]. apply remove_member_order.
    + right. left. destruct (not_found_flavored e); reflexivity.
  - destruct (Args.state a =? "present")%string eqn:Hst'; [|left; reflexivity].
    apply String.eqb_eq in Hst'. rewrite bind_eq, member_exists_eq.
    destruct (Pool_get_member_object_status _ _ _ _) as [[[]|e] s1].
    + right. right. rewrite trace_of_after. eexists. split; [reflexivity|].
      right. split; [exact Hst'|]. right. cbn [negb].
      destruct (modify_attributes_blocked a pool address port {[ "changed" := false ]} s1)
        as (bs & Hbs & Ht).
      exists bs. split; assumption.
    + destruct (not_found_flavored e); [|right; left; reflexivity].
      cbn [negb]. rewrite trace_of_after, bind_eq.
      destruct (negb (Args.check_mode a)); [|right; left; reflexivity].
      right. right. eexists. split; [reflexivity|].
      right. split; [exact Hst'|]. left.
      pose proof (create_member_order api a pool address port s1) as Hc.
      destruct (create_member api a pool address port s1) as [[[[]| |] s2] t2];
        unfold trace_of in *; simpl in *; rewrite ?app_nil_r; exact Hc.
Qed.

(** X10.  The calls of a run follow one of three paths after the
    session opening, the pool probe and the member probe, as far as the
    run goes.  With [state=absent]: the removal, then the node
    deletion.  With [state=present], either the creation, then
    setters, in the order of the attributes; or, for each attribute in
    turn, in the order connection limit, description, rate limit,
    ratio, session state, monitor state, priority group, nothing, or
    its getter, or its getter and right after it its setter.  So no
    method is called twice, a setter comes after the creation or right
    after its own getter, and a removal or deletion never goes with a
    creation or an update. *)
Theorem calls_follow_one_order (a : Args.t) (s : S) :
  run_order a (map ev_method (trace_of (main api fqdn_name a s)))
  /\ NoDup (map ev_method (trace_of (main api fqdn_name a s))).
Proof.
  split; [|apply main_calls_once].
  unfold run_order.
  destruct (main_cases api fqdn_name a s) as [[port Hv]|(o & -> & _)];
    [|left; eexists; reflexivity].
  rewrite (main_enters_try api fqdn_name a port s Hv), trace_of_finish, main_try_eq.
  destruct (bigip_api api s) as [[[]|e1] s1]; [|left; eexists; reflexivity].
  destruct (Pool_get_object_status api [pool_of a] s1) as [[[]|e2] s2];
    [|left; eexists; reflexivity].
  rewrite trace_of_after, map_app.
  destruct (reconcile_member_order a (pool_of a) (address_of a) port s2)
    as [Hl|[Hl|(rest & Hl & Hrest)]]; rewrite Hl.
  - left. eexists. reflexivity.
  - left. exists []. reflexivity.
  - right. exists rest. split; [reflexivity|exact Hrest].
Qed.

End Run_order.

(** ** The theorems at work on the reference device *)

Lemma validation_precedes_remote_calls_example :
  (exists msg,
     main Device.client Device.fqdn_name
          (Device.job "present" "web" "10.0.0.1" 70000 None None None None false) Device.lab
     = (failed msg, Device.lab, [])
     /\ (true = true -> false = false -> validation_message msg))
  /\ (exists o s' r t,
     main Device.client Device.fqdn_name
          (Device.job "present" "web" "10.0.0.1" 65535 None None None None false) Device.lab
     = (o, s', Ev call_connect r :: t)).
Proof.
  split.
  - apply (proj1 (validation_precedes_remote_calls Device.client Device.fqdn_name
                    (Device.job "present" "web" "10.0.0.1" 70000 None None None None false)
                    Device.lab)).
    left. exists 70000. split; [reflexivity|lia].
  - apply (proj2 (validation_precedes_remote_calls Device.client Device.fqdn_name
                    (Device.job "present" "web" "10.0.0.1" 65535 None None None None false)
                    Device.lab) 65535); [right| | | |]; reflexivity.
Defined.

Lemma probes_read_not_found_as_absent_example :
  pool_exists Device.client Device.web Device.lab
    = (Ok true, Device.lab, [Ev (call_pool_probe Device.web) (Reply PNone)])
  /\ pool_exists Device.client (Some "/Common/nope") Device.lab
    = (Ok false, Device.lab,
       [Ev (call_pool_probe (Some "/Common/nope")) (Fault (Device.not_found "pool"))])
  /\ member_exists Device.client Device.web Device.node1 80 Device.lab
    = (Ok true, Device.lab, [Ev (call_member_probe Device.web Device.node1 80) (Reply PNone)])
  /\ member_exists Device.client Device.web Device.node1 81 Device.lab
    = (Ok false, Device.lab,
       [Ev (call_member_probe Device.web Device.node1 81)
           (Fault (Device.not_found "pool member"))]).
Proof.
  pose proof (probes_read_not_found_as_absent Device.client Device.web Device.node1 80
                Device.lab) as (H1 & _ & H3 & _).
  pose proof (probes_read_not_found_as_absent Device.client (Some "/Common/nope")
                Device.node1 80 Device.lab) as (_ & H2 & _ & _).
  pose proof (probes_read_not_found_as_absent Device.client Device.web Device.node1 81
                Device.lab) as (_ & _ & _ & H4).
  split; [|split; [|split]].
  - apply H1. vm_compute. reflexivity.
  - apply (H2 (Device.not_found "pool")). vm_compute. reflexivity.
  - apply H3. vm_compute. reflexivity.
  - apply (H4 (Device.not_found "pool member")). vm_compute. reflexivity.
Defined.

Lemma missing_pool_fails_after_one_probe_example :
  main Device.client Device.fqdn_name
       (Device.job "present" "nope" "10.0.0.1" 80 None None None None false) Device.lab
  = (failed "pool /Common/nope does not exist", Device.lab,
     [Ev call_connect (Reply PNone);
      Ev (call_pool_probe (Some "/Common/nope")) (Fault (Device.not_found "pool"))]).
Proof.
  destruct (main Device.client Device.fqdn_name
              (Device.job "present" "nope" "10.0.0.1" 80 None None None None false)
              Device.lab) as [[o s'] t] eqn:Hrun.
  assert (s' = Device.lab) as ->.
  { vm_compute in Hrun. inversion Hrun. reflexivity. }
  destruct (missing_pool_fails_after_one_probe Device.client Device.fqdn_name _ _ _ _ _
              (Device.not_found "pool") Hrun) as [-> ->].
  - vm_compute in Hrun. inversion Hrun. right. left. reflexivity.
  - reflexivity.
  - reflexivity.
Defined.

Lemma absent_member_needs_nothing_example :
  main Device.client Device.fqdn_name
       (Device.job "absent" "web" "10.0.0.1" 81 None None None None false) Device.lab
  = (exit_json {[ "changed" := false ]}, Device.lab,
     [Ev call_connect (Reply PNone);
      Ev (call_pool_probe Device.web) (Reply PNone);
      Ev (call_member_probe Device.web Device.node1 81)
         (Fault (Device.not_found "pool member"))]).
Proof.
  destruct (main Device.client Device.fqdn_name
              (Device.job "absent" "web" "10.0.0.1" 81 None None None None false)
              Device.lab) as [[o s'] t] eqn:Hrun.
  assert (s' = Device.lab) as ->.
  { vm_compute in Hrun. inversion Hrun. reflexivity. }
  destruct (absent_member_needs_nothing Device.client Device.fqdn_name _ _ _ _ _
              (call_member_probe Device.web Device.node1 81)
              (Device.not_found "pool member") Hrun) as [-> ->].
  - reflexivity.
  - reflexivity.
  - vm_compute in Hrun. inversion Hrun. right. right. left. reflexivity.
  - reflexivity.
  - reflexivity.
Defined.

(** the node serves another member: the member goes, the node stays *)
Lemma node_deletion_outcomes_example :
  exists s' t,
    main Device.client Device.fqdn_name
         (Device.job "absent" "web" "10.0.0.1" 80 None None None None false)
         Device.lab_shared
    = (exit_json (<[ "deleted" := false ]> {[ "changed" := true ]}), s', t)
    /\ map ev_method t =
         [m_bigip_api; m_get_object_status; m_get_member_object_status;
          m_remove_member_v2; m_delete_node_address].
Proof.
  pose (run := main Device.client Device.fqdn_name
                    (Device.job "absent" "web" "10.0.0.1" 80 None None None None false)
                    Device.lab_shared).
  destruct (node_deletion_outcomes Device.client Device.fqdn_name _ _ _ _ _
              (call_member_probe Device.web Device.node1 80) (run_eta run))
    as (port & Hport & [(r & Ht & Ho)|(e & Ht & Ho)]).
  - reflexivity.
  - reflexivity.
  - reflexivity.
  - reflexivity.
  - vm_compute. right. right. left. reflexivity.
  - exists run.1.2, run.2. split; [|vm_compute; reflexivity].
    assert (r = Fault (OperationFailed
                "01070110:3: Node address '/Common/10.0.0.1' is referenced by a member of pool."))
      as Hr.
    { vm_compute in Ht. inversion Ht. reflexivity. }
    rewrite Hr in Ho. rewrite (run_eta run) at 1. rewrite Ho. reflexivity.
  - exfalso. vm_compute in Ht. inversion Ht.
Defined.

Lemma deleted_only_after_real_removal_example :
  Args.state (Device.job "absent" "web" "10.0.0.1" 80 None None None None false) = "absent"
  /\ Args.preserve_node (Device.job "absent" "web" "10.0.0.1" 80 None None None None false)
     = false
  /\ Args.check_mode (Device.job "absent" "web" "10.0.0.1" 80 None None None None false)
     = false.
Proof.
  destruct (main Device.client Device.fqdn_name
              (Device.job "absent" "web" "10.0.0.1" 80 None None None None false)
              Device.lab) as [[o s'] t] eqn:Hrun.
  assert (o = exit_json (<[ "deleted" := true ]> {[ "changed" := true ]})) as ->.
  { vm_compute in Hrun. inversion Hrun. vm_compute. reflexivity. }
  destruct (deleted_only_after_real_removal Device.client Device.fqdn_name _ _ _ _ _ Hrun)
    as [Hdel _].
  destruct Hdel as (H1 & H2 & H3 & _).
  - exists true. vm_compute. reflexivity.
  - split; [exact H1|split; [exact H2|exact H3]].
Defined.

Lemma creation_writes_supplied_attributes_example :
  exists s' t,
    main Device.client Device.fqdn_name
         (Device.job "present" "web" "10.0.0.2" 80 (Some disabled) None (Some 10)
                     (Some "db") false)
         Device.lab
    = (exit_json {[ "changed" := true ]}, s', t)
    /\ map ev_call t =
         [call_connect; call_pool_probe Device.web;
          call_member_probe Device.web (Some "/Common/10.0.0.2") 80;
          call_member m_add_member_v2 Device.web (Some "/Common/10.0.0.2") 80 PNone;
          call_member m_set_member_connection_limit Device.web (Some "/Common/10.0.0.2") 80
                      (PInts [[10]]);
          call_member m_set_member_description Device.web (Some "/Common/10.0.0.2") 80
                      (PStrs [["db"]]);
          call_member m_set_member_session_enabled_state Device.web
                      (Some "/Common/10.0.0.2") 80 (PStrs [["STATE_DISABLED"]])].
Proof.
  destruct (main Device.client Device.fqdn_name
              (Device.job "present" "web" "10.0.0.2" 80 (Some disabled) None (Some 10)
                          (Some "db") false)
              Device.lab) as [[o s'] t] eqn:Hrun.
  exists s', t.
  destruct (creation_writes_supplied_attributes Device.client Device.fqdn_name _ _ _ _ _
              (call_member_probe Device.web (Some "/Common/10.0.0.2") 80)
              (Device.not_found "pool member") 80 Hrun) as [Hends Hcalls].
  - reflexivity.
  - reflexivity.
  - reflexivity.
  - reflexivity.
  - vm_compute in Hrun. inversion Hrun. right. right. left. reflexivity.
  - reflexivity.
  - assert (o = exit_json {[ "changed" := true ]}) as ->.
    { apply Hends. vm_compute in Hrun. inversion Hrun. unfold writes_replied.
      repeat (constructor; [intros _; eexists; reflexivity|]).
      constructor; [intros H; discriminate H|].
      repeat (constructor; [intros _; eexists; reflexivity|]). constructor. }
    destruct (Hcalls _ eq_refl) as [_ Hmap]. split; [reflexivity|exact Hmap].
Defined.

(** a member forced offline is asked "enabled": the status is read, the
    state is written, and the run reports a change *)
Lemma state_written_only_against_forced_sentinel_example :
  exists result s' t,
    main Device.client Device.fqdn_name
         (Device.job "present" "web" "10.0.0.1" 80 (Some enabled) None None None false)
         Device.lab_forced
    = (exit_json result, s', t)
    /\ In (Ev (call_member m_set_member_session_enabled_state Device.web Device.node1 80
                           (PStrs [["STATE_ENABLED"]])) (Reply PNone)) t
    /\ result !! "changed" = Some true.
Proof.
  pose (run := main Device.client Device.fqdn_name
                    (Device.job "present" "web" "10.0.0.1" 80 (Some enabled) None None None
                                false)
                    Device.lab_forced).
  assert (exists result, run.1.1 = exit_json result) as [result Ho].
  { eexists. vm_compute. reflexivity. }
  exists result, run.1.2, run.2. split; [rewrite <- Ho; apply run_eta|].
  destruct (state_written_only_against_forced_sentinel Device.client Device.fqdn_name
              _ _ _ _ _ (call_member_probe Device.web Device.node1 80) 80 (run_eta run))
    as [Hsession _].
  - reflexivity.
  - reflexivity.
  - reflexivity.
  - vm_compute. right. right. left. reflexivity.
  - destruct (Hsession enabled eq_refl) as (_ & _ & Hresult).
    destruct (Hresult result Ho) as (g & raw & Hg & Hcall & Hraw & _ & Hset & Hch).
    assert (raw = "SESSION_STATUS_FORCED_DISABLED") as ->.
    { destruct g as [gc gr]. simpl in Hcall, Hraw. subst gc. vm_compute in Hg.
      repeat (destruct Hg as [Hg|Hg]; [inversion Hg; subst; try discriminate|]);
        try destruct Hg.
      inversion Hraw. reflexivity. }
    split; [apply Hset; reflexivity|apply Hch; left; reflexivity].
Defined.

Lemma check_mode_predicts_without_writing_example :
  Forall (fun e => is_write (ev_method e) = false)
         (trace_of (main Device.client Device.fqdn_name
                         (Device.job "present" "web" "10.0.0.1" 80 None None (Some 10)
                                     None true)
                         Device.lab))
  /\ (forall r s1 t1 r' s2 t2,
      main Device.client Device.fqdn_name
           (Device.job "present" "web" "10.0.0.1" 80 None None (Some 10) None true)
           Device.lab
      = (exit_json r, s1, t1) ->
      main Device.client Device.fqdn_name
           (Args.with_check_mode false
              (Device.job "present" "web" "10.0.0.1" 80 None None (Some 10) None true))
           Device.lab
      = (exit_json r', s2, t2) ->
      r !! "changed" = r' !! "changed").
Proof.
  apply (check_mode_predicts_without_writing Device.client Device.fqdn_name
           (Device.job "present" "web" "10.0.0.1" 80 None None (Some 10) None true)
           Device.lab).
  reflexivity.
Defined.

(** C1, as first stated, fails in check mode: the live session status
    is the sentinel and the intent is "enabled", the run reports
    [changed=True], and yet no set-call is issued. *)
Lemma forced_member_in_check_mode_is_not_written :
  Args.state (Device.job "present" "web" "10.0.0.1" 80 (Some enabled) None None None true)
  = "present"
  /\ Args.session_state
       (Device.job "present" "web" "10.0.0.1" 80 (Some enabled) None None None true)
     = Some enabled
  /\ exists s' t,
      main Device.client Device.fqdn_name
           (Device.job "present" "web" "10.0.0.1" 80 (Some enabled) None None None true)
           Device.lab_forced
      = (exit_json {[ "changed" := true ]}, s', t)
      /\ In (Ev (call_member_probe Device.web Device.node1 80) (Reply PNone)) t
      /\ get_member_session_status Device.client Device.web Device.node1 80 Device.lab_forced
         = (Ok "forced_disabled", Device.lab_forced,
            [Ev (call_member m_get_member_session_status Device.web Device.node1 80 PNone)
                (Reply (PStrs [["SESSION_STATUS_FORCED_DISABLED"]]))])
      /\ In (Ev (call_member m_get_member_session_status Device.web Device.node1 80 PNone)
                (Reply (PStrs [["SESSION_STATUS_FORCED_DISABLED"]]))) t
      /\ Forall (fun e => calls m_set_member_session_enabled_state e = false) t.
Proof.
  split; [reflexivity|]. split; [reflexivity|].
  destruct (main Device.client Device.fqdn_name
              (Device.job "present" "web" "10.0.0.1" 80 (Some enabled) None None None true)
              Device.lab_forced) as [[o s'] t] eqn:Hrun.
  vm_compute in Hrun. inversion Hrun. subst. clear Hrun.
  do 2 eexists. split; [vm_compute; reflexivity|].
  split; [right; right; left; reflexivity|].
  split; [vm_compute; reflexivity|].
  split; [right; right; right; left; reflexivity|].
  repeat constructor.
Defined.

(** ** The further properties at work on the reference device *)

Lemma calls_aim_at_the_task_member_example :
  Forall (fun e => aims_at Device.web Device.node1 80 (ev_call e))
         (trace_of (main Device.client Device.fqdn_name
                         (Device.job "absent" "web" "10.0.0.1" 80 None None None None false)
                         Device.lab)).
Proof.
  apply (calls_aim_at_the_task_member Device.client Device.fqdn_name
           (Device.job "absent" "web" "10.0.0.1" 80 None None None None false)
           Device.lab 80).
  reflexivity.
Defined.

Lemma preserved_node_is_never_deleted_example :
  Forall (fun e => calls m_delete_node_address e = false)
         (trace_of (main Device.client Device.fqdn_name
                         (Args.Build_t "absent" None None "web" "Common" (Some "10.0.0.1")
                                       (Some 80) None None None None true None false false
                                       true true)
                         Device.lab)).
Proof.
  apply (preserved_node_is_never_deleted Device.client Device.fqdn_name
           (Args.Build_t "absent" None None "web" "Common" (Some "10.0.0.1")
                         (Some 80) None None None None true None false false true true)
           Device.lab).
  reflexivity.
Defined.

(** a member without a limit is asked a limit of 10: the limit is read,
    written, and the run reports a change *)
Lemma scalar_written_only_when_different_example :
  exists result s' t,
    main Device.client Device.fqdn_name
         (Device.job "present" "web" "10.0.0.1" 80 None None (Some 10) None false)
         Device.lab
    = (exit_json result, s', t)
    /\ In (Ev (call_member m_set_member_connection_limit Device.web Device.node1 80
                           (PInts [[10]])) (Reply PNone)) t
    /\ result !! "changed" = Some true.
Proof.
  pose (run := main Device.client Device.fqdn_name
                    (Device.job "present" "web" "10.0.0.1" 80 None None (Some 10) None false)
                    Device.lab).
  assert (exists result, run.1.1 = exit_json result) as [result Ho].
  { eexists. vm_compute. reflexivity. }
  exists result, run.1.2, run.2. split; [rewrite <- Ho; apply run_eta|].
  destruct (scalar_written_only_when_different Device.client Device.fqdn_name
              _ _ _ _ _ (call_member_probe Device.web Device.node1 80) 80
              a_connection_limit (PInts [[10]]) (run_eta run))
    as (_ & _ & Hresult).
  - reflexivity.
  - reflexivity.
  - reflexivity.
  - vm_compute. right. right. left. reflexivity.
  - reflexivity.
  - reflexivity.
  - destruct (Hresult result Ho) as (g & v & Hg & Hcall & Hv & _ & _ & Hset & Hch).
    assert (differs (PInts [[10]]) v = true) as Hne.
    { destruct g as [gc gr]. simpl in Hcall, Hv. subst gc gr. vm_compute in Hg.
      repeat (destruct Hg as [Hg|Hg]; [inversion Hg; subst; try discriminate|]);
        try destruct Hg.
      reflexivity. }
    split; [apply Hset; [exact Hne|reflexivity]|apply Hch; left; exact Hne].
Defined.

Lemma status_read_back_is_the_lowercase_suffix_example :
  get_member_session_status Device.client Device.web Device.node1 80 Device.lab_forced
  = (Ok (PyStr.lower "FORCED_DISABLED"), Device.lab_forced,
     [Ev (call_member m_get_member_session_status Device.web Device.node1 80 PNone)
         (Reply (PStrs [["SESSION_STATUS_FORCED_DISABLED"]]))]).
Proof.
  apply (proj1 (proj1 (status_read_back_is_the_lowercase_suffix Device.client
                         Device.web Device.node1 80 Device.lab_forced)
                      [["SESSION_STATUS_FORCED_DISABLED"]] Device.lab_forced
                      ltac:(vm_compute; reflexivity))
               "FORCED_DISABLED").
  - reflexivity.
  - reflexivity.
  - reflexivity.
Defined.

Lemma answered_run_ends_with_a_result_example :
  exists result s' t,
    main Device.client Device.fqdn_name
         (Device.job "present" "web" "10.0.0.1" 80 (Some enabled) None (Some 10) None false)
         Device.lab
    = (exit_json result, s', t).
Proof.
  apply (answered_run_ends_with_a_result Device.client Device.fqdn_name
           (Device.job "present" "web" "10.0.0.1" 80 (Some enabled) None (Some 10) None
                       false)
           Device.lab 80).
  - unfold enters_try. cbn. split; [reflexivity|]. split; [discriminate|].
    split; [reflexivity|]. split; [reflexivity|]. lia.
  - vm_compute. repeat constructor; eexists; reflexivity.
Defined.

(** a member is created with its attributes; the second run finds nothing to do *)
Lemma second_run_changes_nothing_example :
  let a := Device.job "present" "web" "10.0.0.2" 80 (Some disabled) (Some disabled)
                      (Some 10) (Some "db") false in
  let first := main Device.client Device.fqdn_name a Device.lab in
  let second := main Device.client Device.fqdn_name a first.1.2 in
  first.1.1 = exit_json {[ "changed" := true ]}
  /\ Forall (fun e => is_write (ev_method e) = false) second.2
  /\ second.1.1 = exit_json {[ "changed" := false ]}.
Proof.
  intros a first second.
  assert (main Device.client Device.fqdn_name a Device.lab
          = (exit_json {[ "changed" := true ]}, first.1.2, first.2)) as E1.
  { vm_compute. reflexivity. }
  assert (main Device.client Device.fqdn_name a first.1.2
          = (second.1.1, second.1.2, second.2)) as E2.
  { subst second. destruct (main Device.client Device.fqdn_name a first.1.2) as [[? ?] ?].
    reflexivity. }
  destruct (second_run_changes_nothing Device.client Device.fqdn_name device_view
              a Device.lab first.1.2 second.1.2 _ second.1.1 first.2 second.2
              device_durable eq_refl E1 E2) as (Hquiet & _ & Hends).
  split; [vm_compute; reflexivity|]. split; [exact Hquiet|].
  apply Hends. vm_compute. repeat constructor; eexists; reflexivity.
Defined.

Lemma changed_tells_whether_the_run_wrote_example :
  exists result s' t,
    main Device.client Device.fqdn_name
         (Device.job "absent" "web" "10.0.0.1" 80 None None None None false) Device.lab
    = (exit_json result, s', t)
    /\ result !! "changed" = Some true.
Proof.
  destruct (main Device.client Device.fqdn_name
              (Device.job "absent" "web" "10.0.0.1" 80 None None None None false)
              Device.lab) as [[o s'] t] eqn:E.
  assert (exists result, o = exit_json result /\ wrote t = true) as (result & -> & Hw).
  { vm_compute in E. inversion E. eexists. split; reflexivity. }
  exists result, s', t. split; [reflexivity|].
  rewrite (changed_tells_whether_the_run_wrote Device.client Device.fqdn_name
             (Device.job "absent" "web" "10.0.0.1" 80 None None None None false)
             Device.lab s' result t eq_refl E).
  f_equal. exact Hw.
Defined.

(** the node is gone already: its deletion fails, and so does the run *)
Lemma unhandled_failure_ends_the_run_example :
  exists s' t,
    main Device.client Device.fqdn_name
         (Device.job "absent" "web" "10.0.0.1" 80 None None None None false)
         Device.lab_nodeless
    = (failed "received exception: 01020036:3: The requested node address was not found.",
       s', t).
Proof.
  destruct (main Device.client Device.fqdn_name
              (Device.job "absent" "web" "10.0.0.1" 80 None None None None false)
              Device.lab_nodeless) as [[o s'] t] eqn:E.
  exists s', t.
  destruct (unhandled_failure_ends_the_run Device.client Device.fqdn_name
              (Device.job "absent" "web" "10.0.0.1" 80 None None None None false)
              Device.lab_nodeless s' o t
              [Ev call_connect (Reply PNone);
               Ev (call_pool_probe Device.web) (Reply PNone);
               Ev (call_member_probe Device.web Device.node1 80) (Reply PNone);
               Ev (call_member m_remove_member_v2 Device.web Device.node1 80 PNone)
                  (Reply PNone)]
              []
              (call_delete_node Device.node1)
              (Device.not_found "node address") E) as [Hh|[_ ->]].
  - vm_compute in E. inversion E. reflexivity.
  - vm_compute in Hh. discriminate Hh.
  - reflexivity.
Defined.

(** a member is created disabled, with a limit and a description *)
Lemma run_leaves_the_member_as_asked_example :
  let a := Device.job "present" "web" "10.0.0.2" 80 (Some disabled) (Some disabled)
                      (Some 10) (Some "db") false in
  settled a (device_view (main Device.client Device.fqdn_name a Device.lab).1.2
                         (Device.web, Some "/Common/10.0.0.2", 80)).
Proof.
  intros a.
  destruct (main Device.client Device.fqdn_name a Device.lab) as [[o s'] t] eqn:E.
  assert (exists r, o = exit_json r) as [r ->].
  { vm_compute in E. inversion E. eexists. reflexivity. }
  exact (run_leaves_the_member_as_asked Device.client device_view device_durable
           Device.fqdn_name a Device.lab s' 80 r t eq_refl eq_refl E).
Defined.

(** the member is there and nothing is asked of it: the run says so *)
Lemma unchanged_means_already_as_asked_example :
  let a := Device.job "present" "web" "10.0.0.1" 80 None None None None false in
  settled a (device_view Device.lab (Device.web, Device.node1, 80)).
Proof.
  intros a.
  destruct (main Device.client Device.fqdn_name a Device.lab) as [[o s'] t] eqn:E.
  assert (exists r, o = exit_json r /\ r !! "changed" = Some false) as (r & -> & Hr).
  { vm_compute in E. inversion E. eexists. split; reflexivity. }
  exact (proj1 (unchanged_means_already_as_asked Device.client device_view device_durable
                  Device.fqdn_name a Device.lab s' 80 r t eq_refl eq_refl E) Hr).
Defined.
